(** * uva-node: [util.js]

    A shallow embedding of the text helpers ([unquote], [skipWhitespace],
    [parseArgs]) and of the multipart encoder ([writeFormData]) of
    [src/util.js], with the properties the specification states about
    them. *)

From Stdlib Require Import List ZArith Lia Bool String Ascii.
From Stdlib.Strings Require Import Byte.
Import ListNotations.

Local Open Scope Z_scope.

(* ================================================================= *)
(** ** JavaScript strings *)

(** A JavaScript string is a sequence of UTF-16 code units. *)
Module JS.

Definition char := Z.
Definition jsstring := list char.

(** String literals of the development: each character of a Rocq
    literal is one code unit (all literals used here are ASCII). *)
Definition js (s : string) : jsstring :=
  map (fun a => Z.of_N (N_of_ascii a)) (list_ascii_of_string s).

Definition TAB : char := 9.
Definition LF : char := 10.
Definition SPACE : char := 32.
Definition DQUOTE : char := 34.
Definition SQUOTE : char := 39.

Fixpoint str_eqb (a b : jsstring) : bool :=
  match a, b with
  | [], [] => true
  | x :: a', y :: b' => (x =? y) && str_eqb a' b'
  | _, _ => false
  end.

(** [s.length] *)
Definition length (s : jsstring) : Z := Z.of_nat (List.length s).

(** [s.charAt(i)]: the one-character string at index [i], or the empty
    string when [i] is out of range. *)
Definition charAt (s : jsstring) (i : Z) : jsstring :=
  if i <? 0 then []
  else match nth_error s (Z.to_nat i) with
       | Some c => [c]
       | None => []
       end.

(** [s.substring(a, b)] for [0 <= a <= b <= s.length] (the only way the
    source calls it; negative arguments are clamped to 0 as in
    JavaScript, and swapped when [a > b]). *)
Definition substring (s : jsstring) (a b : Z) : jsstring :=
  let a := Z.max 0 (Z.min a (length s)) in
  let b := Z.max 0 (Z.min b (length s)) in
  let lo := Z.min a b in
  let hi := Z.max a b in
  firstn (Z.to_nat (hi - lo)) (skipn (Z.to_nat lo) s).

(** The characters [String.prototype.trim] removes: ECMAScript
    WhiteSpace (TAB, VT, FF, SP, NBSP, BOM and the Unicode space
    separators) and LineTerminator (LF, CR, LS, PS). Engines older
    than Unicode 6.3 also count U+180E; nothing below depends on it. *)
Definition isWhiteSpace (c : char) : bool :=
  (c =? 9) || (c =? 10) || (c =? 11) || (c =? 12) || (c =? 13) ||
  (c =? 32) || (c =? 160) || (c =? 5760) ||
  ((8192 <=? c) && (c <=? 8202)) ||
  (c =? 8232) || (c =? 8233) || (c =? 8239) || (c =? 8287) ||
  (c =? 12288) || (c =? 65279).

Fixpoint trimStart (s : jsstring) : jsstring :=
  match s with
  | c :: s' => if isWhiteSpace c then trimStart s' else s
  | [] => []
  end.

Definition trimEnd (s : jsstring) : jsstring := rev (trimStart (rev s)).

(** [s.trim()] *)
Definition trim (s : jsstring) : jsstring := trimEnd (trimStart s).

End JS.
Import JS.

(* ================================================================= *)
(** ** [unquote] *)

(** The values the locals of [unquote] take: [end] is a one-character
    string, or the number [0] when the string is shorter than 2. *)
Inductive jsval :=
| VStr (s : jsstring)
| VNum (n : Z).

(** Strict equality [===] on these values. *)
Definition strict_eq (a b : jsval) : bool :=
  match a, b with
  | VStr x, VStr y => str_eqb x y
  | VNum x, VNum y => x =? y
  | _, _ => false
  end.

Inductive error :=
| MismatchedQuote        (* throw {message: "mismatched quote chars"} *)
| UnmatchedQuote.        (* throw new errors.UnmatchedQuote() *)

(** Outcome of a call: a returned value, a thrown exception, or (for
    the loops run with a step budget) an exhausted budget. *)
Inductive outcome (A : Type) :=
| Return (a : A)
| Throw (e : error)
| OutOfFuel.
Arguments Return {A} a.
Arguments Throw {A} e.
Arguments OutOfFuel {A}.

Definition unquote (s : jsstring) : outcome jsstring :=
  let s := trim s in
  if 1 <=? JS.length s then
    let start := VStr (charAt s 0) in
    let end_ := if 2 <=? JS.length s then VStr (charAt s (JS.length s - 1))
                else VNum 0 in
    let isQuote :=
      strict_eq start (VStr [DQUOTE]) || strict_eq start (VStr (js "'")) ||
      strict_eq end_ (VStr [DQUOTE]) || strict_eq end_ (VStr (js "'")) in
    if isQuote then
      if strict_eq start end_ then Return (substring s 1 (JS.length s - 1))
      else Throw MismatchedQuote
    else Return s
  else Return s.

(** *** Quoted sides, as the specification words them *)

(** The first character of [t] is a quote char. *)
Definition startQuoted (t : jsstring) : bool :=
  match t with
  | c :: _ => (c =? DQUOTE) || (c =? SQUOTE)
  | [] => false
  end.

(** The last character of [t] is a quote char, and [t] has at least
    two characters. *)
Definition endQuoted (t : jsstring) : bool :=
  (2 <=? JS.length t) &&
  match rev t with
  | c :: _ => (c =? DQUOTE) || (c =? SQUOTE)
  | [] => false
  end.

(* ================================================================= *)
(** ** [skipWhitespace] and [parseArgs] *)

(** [cur !== ' ' && cur !== "\t"] *)
Definition notBlank (cur : jsstring) : bool :=
  negb (str_eqb cur (js " ")) && negb (str_eqb cur [TAB]).

(** The [for] loop of [skipWhitespace]: [rest] holds the characters
    from index [i] to the end of [s]. *)
Fixpoint skipWhitespace_from (s rest : jsstring) (i : Z) : Z :=
  match rest with
  | [] => -1
  | _ :: rest' =>
      let cur := charAt s i in
      if notBlank cur then i else skipWhitespace_from s rest' (i + 1)
  end.

Definition skipWhitespace (s : jsstring) (startIdx : Z) : Z :=
  skipWhitespace_from s (skipn (Z.to_nat startIdx) s) startIdx.

(** Truthiness of [startQuote], which is [null] or a string. *)
Definition truthy (v : option jsstring) : bool :=
  match v with
  | Some (_ :: _) => true
  | _ => false
  end.

Definition opt_str_eqb (cur : jsstring) (v : option jsstring) : bool :=
  match v with
  | Some q => str_eqb cur q
  | None => false
  end.

(** The main loop of [parseArgs]; one unit of [fuel] per iteration. *)
Fixpoint parseArgs_loop (fuel : nat) (s : jsstring)
    (startQuote : option jsstring) (args : list jsstring)
    (curToken : jsstring) (i : Z) : outcome (list jsstring) :=
  match fuel with
  | O => OutOfFuel
  | S fuel' =>
      if i <? JS.length s then
        let cur := charAt s i in
        if truthy startQuote then
          (* inside a quoted arg *)
          if opt_str_eqb cur startQuote then
            let args := args ++ [trim curToken] in
            let i := skipWhitespace s (i + 1) in
            if i <? 0 then Return args
            else parseArgs_loop fuel' s None args [] i
          else
            parseArgs_loop fuel' s startQuote args (curToken ++ cur) (i + 1)
        else if str_eqb cur [DQUOTE] || str_eqb cur (js "'") then
          let curToken := trim curToken in
          let '(args, curToken) :=
            if negb (str_eqb curToken []) then (args ++ [curToken], [])
            else (args, curToken) in
          parseArgs_loop fuel' s (Some cur) args curToken (i + 1)
        else if str_eqb cur (js " ") || str_eqb cur [TAB] then
          let args := args ++ [trim curToken] in
          let i := skipWhitespace s (i + 1) in
          if i <? 0 then Return args
          else parseArgs_loop fuel' s None args [] i
        else
          parseArgs_loop fuel' s startQuote args (curToken ++ cur) (i + 1)
      else
        (* loop exit *)
        if truthy startQuote then Throw UnmatchedQuote
        else if negb (str_eqb curToken []) then Return (args ++ [trim curToken])
        else Return args
  end.

(** Every iteration advances [i] by at least one, so [s.length + 1]
    iterations always suffice (see [parseArgs_loop_tok]). *)
Definition parseArgs (s : jsstring) : outcome (list jsstring) :=
  let i := skipWhitespace s 0 in
  if i <? 0 then Return []
  else parseArgs_loop (S (List.length s)) s None [] [] i.

(* ================================================================= *)
(** ** The tokenizer as a machine over characters *)

Definition isQuoteChar (c : char) : bool := (c =? DQUOTE) || (c =? SQUOTE).

(** The separators of [parseArgs]: space and tab. *)
Definition isSep (c : char) : bool := (c =? SPACE) || (c =? TAB).

Definition nonEmpty (s : jsstring) : bool := negb (str_eqb s []).

(** Where [parseArgs] stands between two characters: skipping
    separators ([skipWhitespace] is running), inside an unquoted run
    with [curToken = cur], or inside a quoted arg opened by [q]. *)
Inductive mode :=
| Skip
| Unq (cur : jsstring)
| Quo (q : char) (cur : jsstring).

(** One character at a time; [parseArgs_tok] shows that [parseArgs]
    computes [tok Skip [] s]. *)
Fixpoint tok (m : mode) (args : list jsstring) (rest : jsstring)
    : outcome (list jsstring) :=
  match rest with
  | [] =>
      match m with
      | Skip => Return args
      | Unq cur => if nonEmpty cur then Return (args ++ [trim cur])
                   else Return args
      | Quo _ _ => Throw UnmatchedQuote
      end
  | c :: rest' =>
      match m with
      | Quo q cur =>
          if c =? q then tok Skip (args ++ [trim cur]) rest'
          else tok (Quo q (cur ++ [c])) args rest'
      | Skip =>
          if isSep c then tok Skip args rest'
          else if isQuoteChar c then tok (Quo c []) args rest'
          else tok (Unq [c]) args rest'
      | Unq cur =>
          if isQuoteChar c then
            tok (Quo c [])
                (if nonEmpty (trim cur) then args ++ [trim cur] else args)
                rest'
          else if isSep c then tok Skip (args ++ [trim cur]) rest'
          else tok (Unq (cur ++ [c])) args rest'
      end
  end.

(** The mode a state of the loop of [parseArgs] stands for. *)
Definition modeOf (startQuote : option jsstring) (curToken : jsstring) : mode :=
  match startQuote with
  | Some (q :: _) => Quo q curToken
  | _ => Unq curToken
  end.

(** The states of the loop: [startQuote] is [null] or a one-character
    string. *)
Definition quoteVar (startQuote : option jsstring) : Prop :=
  startQuote = None \/ exists q, startQuote = Some [q].

Definition contains (c : char) (t : jsstring) : bool :=
  existsb (fun x => x =? c) t.

(** The quote a mode is inside of. *)
Definition modeQuote (m : mode) : option char :=
  match m with
  | Quo q _ => Some q
  | _ => None
  end.

(** What holds of the token under construction in each mode. *)
Definition modeInv (m : mode) : Prop :=
  match m with
  | Skip => True
  | Unq cur => contains DQUOTE cur = false /\ contains SQUOTE cur = false
  | Quo q cur => isQuoteChar q = true /\ contains q cur = false
  end.

(** The quoted segment a mode is reading. *)
Definition modeSeg (m : mode) : option (char * jsstring) :=
  match m with
  | Quo q cur => Some (q, cur)
  | _ => None
  end.

Definition noWhiteSpace (s : jsstring) : bool :=
  forallb (fun c => negb (isWhiteSpace c)) s.

(** An unquoted run under construction is not empty and holds no
    whitespace. *)
Definition modeClean (m : mode) : Prop :=
  match m with
  | Unq cur => cur <> [] /\ noWhiteSpace cur = true
  | _ => True
  end.

(** The modes the machine reaches from [Skip]: an unquoted run is
    not empty, a quote is opened by a quote char. *)
Definition modeWF (m : mode) : Prop :=
  match m with
  | Skip => True
  | Unq cur => cur <> []
  | Quo q _ => isQuoteChar q = true
  end.

(** The characters of the token under construction of an unquoted
    run. *)
Definition pending (m : mode) : jsstring :=
  match m with
  | Unq cur => cur
  | _ => []
  end.

(** [pre] put in front of the tokens a call returns. *)
Definition prepend (pre : list jsstring) (o : outcome (list jsstring))
    : outcome (list jsstring) :=
  match o with
  | Return l => Return (pre ++ l)
  | Throw e => Throw e
  | OutOfFuel => OutOfFuel
  end.

(** A character of a word: neither whitespace nor a quote char. *)
Definition wordChar (c : char) : bool :=
  negb (isWhiteSpace c) && negb (isQuoteChar c).

(** Whitespace that [trim] removes but [parseArgs] does not separate
    on (a line feed, for instance). *)
Definition oddSpace (c : char) : bool := isWhiteSpace c && negb (isSep c).

(** Neither a quote char nor whitespace other than space and tab. *)
Definition plainChar (c : char) : bool :=
  negb (isQuoteChar c) && negb (oddSpace c).

(** [s] is empty or starts with a separator or a quote char. *)
Definition wordEnds (s : jsstring) : bool :=
  match s with
  | [] => true
  | c :: _ => isSep c || isQuoteChar c
  end.

(** At least one of the two quote chars does not occur in [t]. *)
Definition lacksQuote (t : jsstring) : Prop :=
  contains DQUOTE t = false \/ contains SQUOTE t = false.

(** A token as [parseArgs] pushes them: trimmed, first and last
    character not whitespace. *)
Definition trimmed (t : jsstring) : Prop :=
  trim t = t /\
  (forall c t', t = c :: t' -> isWhiteSpace c = false) /\
  (forall c t', t = t' ++ [c] -> isWhiteSpace c = false).

(** *** Quoting, as the specification words it *)

(** The quote that is open after reading [s], when [open] was open
    before: a quote char opens a quote, the same char closes it, and
    every other char inside it is literal. *)
Fixpoint openQuoteAfter (open : option char) (s : jsstring) : option char :=
  match s with
  | [] => open
  | c :: s' =>
      match open with
      | Some q => openQuoteAfter (if c =? q then None else Some q) s'
      | None => openQuoteAfter (if isQuoteChar c then Some c else None) s'
      end
  end.

(** A quote is opened in [s] but never closed. *)
Definition unclosedQuote (s : jsstring) : bool :=
  match openQuoteAfter None s with
  | Some _ => true
  | None => false
  end.

(** The contents of the quoted segments of [s] that are closed, in
    order; [open] is the quote open before [s] with the content read
    so far. *)
Fixpoint quotedSegmentsFrom (open : option (char * jsstring)) (s : jsstring)
    : list jsstring :=
  match s with
  | [] => []
  | c :: s' =>
      match open with
      | Some (q, seg) =>
          if c =? q then seg :: quotedSegmentsFrom None s'
          else quotedSegmentsFrom (Some (q, seg ++ [c])) s'
      | None =>
          quotedSegmentsFrom (if isQuoteChar c then Some (c, []) else None) s'
      end
  end.

Definition quotedSegments (s : jsstring) : list jsstring :=
  quotedSegmentsFrom None s.

(** The characters of [s] outside quoted segments (quote chars
    excluded). *)
Fixpoint unquotedCharsFrom (open : option char) (s : jsstring) : jsstring :=
  match s with
  | [] => []
  | c :: s' =>
      match open with
      | Some q => unquotedCharsFrom (if c =? q then None else Some q) s'
      | None =>
          if isQuoteChar c then unquotedCharsFrom (Some c) s'
          else c :: unquotedCharsFrom None s'
      end
  end.

Definition unquotedChars (s : jsstring) : jsstring := unquotedCharsFrom None s.

(** Number of empty strings in a list of tokens. *)
Definition countEmpty (l : list jsstring) : nat :=
  List.length (filter (fun t => str_eqb t []) l).

(** Number of segments that are empty once trimmed. *)
Definition countBlank (l : list jsstring) : nat :=
  List.length (filter (fun t => str_eqb (trim t) []) l).

(** Re-quoting, which the source has no function for: [t] between two
    copies of the quote char [pick t], and the re-quoted tokens joined
    by [sep]. *)
Definition requote (pick : jsstring -> char) (t : jsstring) : jsstring :=
  [pick t] ++ t ++ [pick t].

Fixpoint join (sep : jsstring) (l : list jsstring) : jsstring :=
  match l with
  | [] => []
  | [t] => t
  | t :: l' => t ++ sep ++ join sep l'
  end.

(** A quote char that does not occur in [t], when there is one. *)
Definition pickQuote (t : jsstring) : char :=
  if contains DQUOTE t then SQUOTE else DQUOTE.

(* ================================================================= *)
(** ** [writeFormData] *)

Module FormData.

(** *** The world the encoder runs in *)

Inductive encoding := Ascii | Utf8.

(** What the request object is handed: a string with its encoding, or
    a [Buffer]. A [Buffer] is handed over by reference, its bytes are
    not copied: [Buf start stop] is the [Buffer] over the bytes from
    [start] to [stop] of the memory allocated on line 212, which is
    [buffer] in the world below. [buf] itself is [Buf 0 bufCap], and
    [buf.slice(0, n)], which shares the memory of [buf], is [Buf 0 n].
    The bytes the request object sends for a [Buffer] are those the
    memory holds when the request object reads it ([chunkBytes]). *)
Inductive chunk :=
| Str (s : jsstring) (enc : encoding)
| Buf (start stop : nat).

Inductive event :=
| SetHeader (name value : jsstring)   (* httpReq.setHeader(name, value) *)
| Write (c : chunk)                   (* httpReq.write(...) *)
| End (c : chunk).                    (* httpReq.end(...) *)

(** An open file descriptor: the bytes of the file and the current
    position. *)
Record openFile := { of_data : list byte; of_pos : nat }.

(** What the next [fs.readSync] does: it delivers at most [k] bytes (a
    short read), or it fails. *)
Inductive readBehaviour :=
| ReadAtMost (k : positive)
| ReadFails.

Inductive ioerror :=
| ENOENT      (* fs.openSync: no such file *)
| EIO         (* fs.readSync failed *)
| EBADF       (* descriptor not open *)
| TypeError.  (* a property read off null *)

Record world := {
  files : jsstring -> option (list byte);  (* file contents by path *)
  fdTable : list (nat * openFile);         (* open descriptors *)
  reads : list readBehaviour;              (* behaviour of the next reads;
                                              full reads once exhausted *)
  entropy : list byte;                     (* source of pseudoRandomBytes *)
  garbage : list byte;                     (* contents of fresh memory *)
  buffer : list byte;                      (* the memory of [buf] *)
  trace : list event                       (* calls made on httpReq *)
}.

Inductive result (A : Type) :=
| Ok (a : A)
| Exn (e : ioerror)
| Fuel.
Arguments Ok {A} a.
Arguments Exn {A} e.
Arguments Fuel {A}.

(** State and exception monad over [world]. *)
Definition M (A : Type) := world -> result A * world.

Definition ret {A} (a : A) : M A := fun w => (Ok a, w).

Definition bind {A B} (m : M A) (k : A -> M B) : M B :=
  fun w =>
    match m w with
    | (Ok a, w') => k a w'
    | (Exn e, w') => (Exn e, w')
    | (Fuel, w') => (Fuel, w')
    end.

Definition outOfFuel {A} : M A := fun w => (Fuel, w).
Definition throw {A} (e : ioerror) : M A := fun w => (Exn e, w).

Notation "x <- m ;; k" := (bind m (fun x => k))
  (at level 100, m at next level, right associativity).
Notation "m ;;; k" := (bind m (fun _ => k))
  (at level 100, right associativity).

Definition set_fdTable (t : list (nat * openFile)) (w : world) : world :=
  {| files := files w; fdTable := t; reads := reads w;
     entropy := entropy w; garbage := garbage w; buffer := buffer w;
     trace := trace w |}.

Definition set_reads (r : list readBehaviour) (w : world) : world :=
  {| files := files w; fdTable := fdTable w; reads := r;
     entropy := entropy w; garbage := garbage w; buffer := buffer w;
     trace := trace w |}.

Definition set_entropy (e : list byte) (w : world) : world :=
  {| files := files w; fdTable := fdTable w; reads := reads w;
     entropy := e; garbage := garbage w; buffer := buffer w;
     trace := trace w |}.

Definition set_buffer (b : list byte) (w : world) : world :=
  {| files := files w; fdTable := fdTable w; reads := reads w;
     entropy := entropy w; garbage := garbage w; buffer := b;
     trace := trace w |}.

Definition set_trace (t : list event) (w : world) : world :=
  {| files := files w; fdTable := fdTable w; reads := reads w;
     entropy := entropy w; garbage := garbage w; buffer := buffer w;
     trace := t |}.

Fixpoint lookupFd (fd : nat) (t : list (nat * openFile)) : option openFile :=
  match t with
  | [] => None
  | (fd', f) :: t' => if Nat.eqb fd fd' then Some f else lookupFd fd t'
  end.

Fixpoint removeFd (fd : nat) (t : list (nat * openFile))
    : list (nat * openFile) :=
  match t with
  | [] => []
  | (fd', f) :: t' =>
      if Nat.eqb fd fd' then removeFd fd t' else (fd', f) :: removeFd fd t'
  end.

(** A descriptor that is not open: one above those that are (and
    above 0, 1, 2). *)
Fixpoint freshFd (t : list (nat * openFile)) : nat :=
  match t with
  | [] => 3
  | (fd, _) :: t' => Nat.max (S fd) (freshFd t')
  end.

Definition isOpen (fd : nat) (w : world) : bool :=
  match lookupFd fd (fdTable w) with Some _ => true | None => false end.

(** *** The platform calls *)

(** [n] bytes of [l], padded with zero bytes when [l] is shorter. *)
Definition take (n : nat) (l : list byte) : list byte :=
  firstn n (l ++ repeat x00 n).

(** [crypto.pseudoRandomBytes(n)] *)
Definition pseudoRandomBytes (n : nat) : M (list byte) :=
  fun w => (Ok (take n (entropy w)), set_entropy (skipn n (entropy w)) w).

(** [new Buffer(cap)]: [cap] bytes of fresh, uninitialised memory. *)
Definition newBuffer (cap : nat) : M unit :=
  fun w => (Ok tt, set_buffer (take cap (garbage w)) w).

Definition hexDigit (d : Z) : char :=
  if d <? 10 then 48 + d else 87 + d.

(** [(new Buffer(bytes)).toString('hex')] *)
Definition toHex (bytes : list byte) : jsstring :=
  flat_map (fun b => let n := Z.of_N (Byte.to_N b) in
                     [hexDigit (n / 16); hexDigit (n mod 16)]) bytes.

(** [fs.openSync(path, 'r')] *)
Definition openSync (path : jsstring) : M nat :=
  fun w =>
    match files w path with
    | None => (Exn ENOENT, w)
    | Some data =>
        let fd := freshFd (fdTable w) in
        (Ok fd,
         set_fdTable ((fd, {| of_data := data; of_pos := 0 |}) :: fdTable w) w)
    end.

(** [fs.readSync(fd, buf, offset, length, null)]: reads from the
    current position of [fd] into [buf] at [offset], returns the number
    of bytes read; on a regular file that is 0 only at end of file. *)
Definition readSync (fd offset length : nat) : M nat :=
  fun w =>
    match lookupFd fd (fdTable w) with
    | None => (Exn EBADF, w)
    | Some f =>
        match reads w with
        | ReadFails :: rs => (Exn EIO, set_reads rs w)
        | beh =>
            let limit := match beh with
                         | ReadAtMost k :: _ => Pos.to_nat k
                         | _ => length
                         end in
            let avail := (List.length (of_data f) - of_pos f)%nat in
            let n := Nat.min (Nat.min length limit) avail in
            let data := firstn n (skipn (of_pos f) (of_data f)) in
            let buf := firstn offset (buffer w) ++ data ++
                       skipn (offset + n) (buffer w) in
            let f' := {| of_data := of_data f; of_pos := of_pos f + n |} in
            (Ok n,
             set_buffer buf
               (set_reads (tl beh)
                  (set_fdTable ((fd, f') :: removeFd fd (fdTable w)) w)))
        end
    end.

(** [fs.closeSync(fd)] *)
Definition closeSync (fd : nat) : M unit :=
  fun w =>
    match lookupFd fd (fdTable w) with
    | None => (Exn EBADF, w)
    | Some _ => (Ok tt, set_fdTable (removeFd fd (fdTable w)) w)
    end.

Definition emit (e : event) : M unit :=
  fun w => (Ok tt, set_trace (trace w ++ [e]) w).

(** *** The field mapping *)

(** A value of the mapping:
    - [null];
    - a value whose [typeof] is not ['object'] (undefined, a boolean, a
      number, a string, a function), given by the string that
      [val + ''] is;
    - an object, given by its [filePath] property when it has one
      (the path of the file, taken to be a string) and by the string
      that [val + ''] is: [x,y] for the array of [x] and [y], [[object Object]] for a
      plain object, the date text for a [Date]. Reading [filePath] and
      converting the object to a string are taken to have no effect of
      their own. *)
Inductive value :=
| VNull
| VScalar (str : jsstring)
| VObject (filePath : option jsstring) (str : jsstring).

(** The path of a file field: [val] is an object other than [null]
    and [val.filePath] is truthy (a string that is not empty). *)
Definition fileOf (val : value) : option jsstring :=
  match val with
  | VObject (Some (c :: p)) _ => Some (c :: p)
  | _ => None
  end.

(** [typeof val === 'object' && val.filePath]: [typeof null] is
    ['object'] too, and reading [filePath] off [null] throws. *)
Definition fileTest (val : value) : M (option jsstring) :=
  match val with
  | VNull => throw TypeError
  | _ => ret (fileOf val)
  end.

(** [val + ...]: the string form of a value ([null] never gets here,
    the test before throws). *)
Definition toString (val : value) : jsstring :=
  match val with
  | VNull => js "null"
  | VScalar s => s
  | VObject _ s => s
  end.

(** *** The encoder *)

Definition CRLF : jsstring := [13; 10].

(** The inner [while (bufSize < bufCap)]: read until the buffer is
    full or the file is exhausted; returns the new [bufSize]. *)
Fixpoint fillBuffer (fuel : nat) (bufCap fd bufSize : nat) : M nat :=
  match fuel with
  | O => outOfFuel
  | S fuel' =>
      if Nat.ltb bufSize bufCap then
        nread <- readSync fd bufSize (bufCap - bufSize) ;;
        if Nat.eqb nread 0 then ret bufSize
        else fillBuffer fuel' bufCap fd (bufSize + nread)
      else ret bufSize
  end.

(** The outer [while (true)]: [httpReq.write(buf)] hands over [buf]
    itself and [httpReq.write(buf.slice(0, bufSize))] a [Buffer] on the
    same memory, which the reads that follow overwrite. *)
Fixpoint streamFile (fuel : nat) (bufCap fd bufSize : nat) : M unit :=
  match fuel with
  | O => outOfFuel
  | S fuel' =>
      bufSize <- fillBuffer fuel bufCap fd bufSize ;;
      if Nat.eqb bufSize bufCap then
        emit (Write (Buf 0 bufCap)) ;;;
        streamFile fuel' bufCap fd 0
      else
        emit (Write (Buf 0 bufSize))
  end.

Definition fileHeader (key filePath : jsstring) : jsstring :=
  CRLF ++ js "Content-Disposition: form-data; name=" ++ [DQUOTE] ++ key ++
  [DQUOTE] ++ js "; filename=" ++ [DQUOTE] ++ filePath ++ [DQUOTE] ++ CRLF ++
  js "Content-Type: application/octet-stream" ++ CRLF ++
  js "Content-Transfer-Encoding: binary" ++ CRLF ++ CRLF.

Definition scalarHeader (key : jsstring) : jsstring :=
  CRLF ++ js "Content-Disposition: form-data; name=" ++ [DQUOTE] ++ key ++
  [DQUOTE] ++ CRLF ++ CRLF.

(** The body of [for (var key in data)]. *)
Definition writeField (fuel : nat) (bufCap : nat) (boundStr : jsstring)
    (key : jsstring) (val : value) : M unit :=
  emit (Write (Str (js "--" ++ boundStr) Ascii)) ;;;
  file <- fileTest val ;;
  match file with
  | Some filePath =>
      emit (Write (Str (fileHeader key filePath) Utf8)) ;;;
      fd <- openSync filePath ;;
      streamFile fuel bufCap fd 0 ;;;
      closeSync fd ;;;
      emit (Write (Str CRLF Ascii))
  | None =>
      emit (Write (Str (scalarHeader key) Utf8)) ;;;
      emit (Write (Str (toString val ++ CRLF) Utf8))
  end.

Fixpoint writeFields (fuel : nat) (bufCap : nat) (boundStr : jsstring)
    (data : list (jsstring * value)) : M unit :=
  match data with
  | [] => ret tt
  | (key, val) :: data' =>
      writeField fuel bufCap boundStr key val ;;;
      writeFields fuel bufCap boundStr data'
  end.

Definition terminator (boundStr : jsstring) : jsstring :=
  js "--" ++ boundStr ++ js "--" ++ CRLF.

(** [1<<16] *)
Definition bufCap : nat := Nat.shiftl 1 16.

(** [data] lists the properties of the mapping in the order [for-in]
    visits them; [fuel] bounds the iterations of each streaming loop. *)
Definition writeFormData (fuel : nat) (data : list (jsstring * value))
    : M unit :=
  boundBytes <- pseudoRandomBytes 16 ;;
  let boundStr := toHex boundBytes in
  emit (SetHeader (js "Content-Type")
          (js "multipart/form-data; boundary=" ++ boundStr)) ;;;
  newBuffer bufCap ;;;
  writeFields fuel bufCap boundStr data ;;;
  emit (End (Str (terminator boundStr) Ascii)).

(** *** The stream, as the specification words it *)

(** The boundary string of a call started in [w]. *)
Definition boundaryOf (w : world) : jsstring := toHex (take 16 (entropy w)).

(** [l] cut into full blocks of [C] bytes followed by one last block
    of fewer than [C] bytes (empty when [C] divides the length). *)
Fixpoint chunksFrom (fuel C : nat) (l : list byte) : list (list byte) :=
  match fuel with
  | O => [l]
  | S fuel' =>
      if Nat.ltb (List.length l) C then [l]
      else firstn C l :: chunksFrom fuel' C (skipn C l)
  end.

Definition chunks (C : nat) (l : list byte) : list (list byte) :=
  chunksFrom (List.length l) C l.

(** The [write] calls for the body of a file of content [d]: one for
    each block, with a [Buffer] over as many bytes, from the start of
    the memory, as the block has. *)
Definition fileBody (C : nat) (d : list byte) : list event :=
  map (fun b => Write (Buf 0 (List.length b))) (chunks C d).

(** The part of one field. *)
Definition fieldEvents (fs : jsstring -> option (list byte)) (C : nat)
    (boundStr : jsstring) (kv : jsstring * value) : list event :=
  let (key, val) := kv in
  Write (Str (js "--" ++ boundStr) Ascii) ::
  match fileOf val with
  | Some filePath =>
      Write (Str (fileHeader key filePath) Utf8) ::
      fileBody C (match fs filePath with Some d => d | None => [] end) ++
      [Write (Str CRLF Ascii)]
  | None =>
      [Write (Str (scalarHeader key) Utf8);
       Write (Str (toString val ++ CRLF) Utf8)]
  end.

(** The bytes of a chunk, given the encoder of strings, when the
    memory of [buf] holds [mem]. *)
Definition chunkBytes (encode : encoding -> jsstring -> list byte)
    (mem : list byte) (c : chunk) : list byte :=
  match c with
  | Str s enc => encode enc s
  | Buf start stop => firstn (stop - start) (skipn start mem)
  end.

(** The bytes a request object sends for the calls [evs] when it reads
    the [Buffer]s it was handed while their memory holds [mem]. The
    request object of [http.request], which [createReq] returns, queues
    the chunks it is handed for as long as its socket is not connected,
    a [Buffer] as the object it was handed; a socket is assigned to it
    on a later tick, so for a call of [writeFormData] on a request just
    created it reads them when the memory holds what the call left
    there. *)
Definition streamBytes (encode : encoding -> jsstring -> list byte)
    (mem : list byte) (evs : list event) : list byte :=
  flat_map (fun e => match e with
                     | SetHeader _ _ => []
                     | Write c => chunkBytes encode mem c
                     | End c => chunkBytes encode mem c
                     end) evs.

Definition isEnd (e : event) : bool :=
  match e with End _ => true | _ => false end.

(** No read fails. *)
Definition noFail (rs : list readBehaviour) : Prop :=
  Forall (fun r => r <> ReadFails) rs.

(** No value of the mapping is [null], and every file of the mapping
    exists and is shorter than [fuel]. *)
Definition readable (fs : jsstring -> option (list byte)) (fuel : nat)
    (data : list (jsstring * value)) : Prop :=
  Forall (fun kv => snd kv <> VNull /\
                    forall path, fileOf (snd kv) = Some path ->
                      exists d, fs path = Some d /\ List.length d < fuel)%nat
         data.

(** *** Invariants of the runs *)

(** From [w] to [w']: the descriptor [fd] stays open on top of the
    table [T], the files are the same, and the request object got
    [write] calls only. *)
Definition evolves (fd : nat) (T : list (nat * openFile)) (w w' : world)
    : Prop :=
  (exists f', fdTable w' = (fd, f') :: T) /\
  files w' = files w /\
  exists cs, trace w' = trace w ++ map Write cs.

(** What a field leaves behind: [write] calls only, the files as they
    were, and the table of descriptors as it was, unless a read failed:
    then the descriptor opened for the field is still in the table. *)
Definition fieldFrame (w w' : world) (r : result unit) : Prop :=
  files w' = files w /\
  (exists cs, trace w' = trace w ++ map Write cs) /\
  match r with
  | Ok _ => fdTable w' = fdTable w
  | Exn EIO => exists f, fdTable w' = (freshFd (fdTable w), f) :: fdTable w
  | Exn ENOENT => fdTable w' = fdTable w
  | Exn TypeError => fdTable w' = fdTable w
  | Exn EBADF => False
  | Fuel => True
  end.

(** The descriptor [fd] is open on [d] at position [p], no coming read
    fails, and the buffer has [C] bytes. *)
Definition reading (fd : nat) (T : list (nat * openFile)) (d : list byte)
    (C p : nat) (w : world) : Prop :=
  fdTable w = (fd, {| of_data := d; of_pos := p |}) :: T /\
  noFail (reads w) /\
  List.length (buffer w) = C /\
  (p <= List.length d)%nat.

(** What the fields need of the world: no read fails and the buffer
    has [C] bytes. *)
Definition ready (C : nat) (w : world) : Prop :=
  noFail (reads w) /\ List.length (buffer w) = C.

(** A digit of lowercase hexadecimal: [0-9a-f]. *)
Definition isHexDigit (c : char) : bool :=
  ((48 <=? c) && (c <=? 57)) || ((97 <=? c) && (c <=? 102)).

(** The field has no file: its value is not [null] and not an object
    with a [filePath]. *)
Definition scalarField (kv : jsstring * value) : Prop :=
  snd kv <> VNull /\ fileOf (snd kv) = None.

(** A world to run examples in: one file of three bytes. *)
Definition exampleWorld (rs : list readBehaviour) : world :=
  {| files := fun p => if str_eqb p (js "/tmp/x.bin")
                       then Some [x01; x02; x03] else None;
     fdTable := []; reads := rs; entropy := []; garbage := [];
     buffer := []; trace := [] |}.

Definition exampleData : list (jsstring * value) :=
  [(js "a", VScalar (js "1"));
   (js "file", VObject (Some (js "/tmp/x.bin")) (js "[object Object]"))].

(** Equality of byte strings. *)
Fixpoint bytes_eqb (a b : list byte) : bool :=
  match a, b with
  | [], [] => true
  | x :: a', y :: b' => Byte.eqb x y && bytes_eqb a' b'
  | _, _ => false
  end.

(** A file of [bufCap + 1] bytes: the byte 1, zero bytes, and the byte
    2 at the end; a world that holds it, where every read is complete,
    and a mapping with that file as its one field. *)
Definition bigFile : list byte := x01 :: repeat x00 (bufCap - 1) ++ [x02].

Definition bigWorld : world :=
  {| files := fun p => if str_eqb p (js "/tmp/big.bin")
                       then Some bigFile else None;
     fdTable := []; reads := []; entropy := []; garbage := [];
     buffer := []; trace := [] |}.

Definition bigData : list (jsstring * value) :=
  [(js "file", VObject (Some (js "/tmp/big.bin")) (js "[object Object]"))].

(** Two files of three and of two bytes, and a mapping with both. *)
Definition twoFilesWorld : world :=
  {| files := fun p => if str_eqb p (js "/tmp/a.bin")
                       then Some [x0a; x0b; x0c]
                       else if str_eqb p (js "/tmp/b.bin")
                       then Some [x01; x02] else None;
     fdTable := []; reads := []; entropy := []; garbage := [];
     buffer := []; trace := [] |}.

Definition twoFilesData : list (jsstring * value) :=
  [(js "a", VObject (Some (js "/tmp/a.bin")) (js "[object Object]"));
   (js "b", VObject (Some (js "/tmp/b.bin")) (js "[object Object]"))].

End FormData.

(* ================================================================= *)
(** ** [getLang] and [getLangName] *)

Definition LANG_C : Z := 1.
Definition LANG_JAVA : Z := 2.
Definition LANG_CPP : Z := 3.
Definition LANG_PASCAL : Z := 4.
Definition LANG_CPP11 : Z := 5.

(** The [switch] on the extension; [-1] when no case matches. *)
Definition getLang (fileExt : jsstring) : Z :=
  if str_eqb fileExt (js "c") then LANG_C
  else if str_eqb fileExt (js "java") then LANG_JAVA
  else if str_eqb fileExt (js "cc") || str_eqb fileExt (js "cpp")
  then LANG_CPP11
  else if str_eqb fileExt (js "p") || str_eqb fileExt (js "pascal") ||
          str_eqb fileExt (js "pas")
  then LANG_PASCAL
  else -1.

(** The value of a digit in radix 10 or 16, if it is one. *)
Definition digitValue (radix : Z) (c : char) : option Z :=
  if (48 <=? c) && (c <=? 57) then Some (c - 48)
  else if (radix =? 16) && (97 <=? c) && (c <=? 102) then Some (c - 87)
  else if (radix =? 16) && (65 <=? c) && (c <=? 70) then Some (c - 55)
  else None.

(** The value of the longest prefix of digits of [s], read after the
    digits of value [acc]; [None] when [s] starts with no digit and
    [seen] is false. *)
Fixpoint readDigits (radix : Z) (seen : bool) (acc : Z) (s : jsstring)
    : option Z :=
  match s with
  | [] => if seen then Some acc else None
  | c :: s' =>
      match digitValue radix c with
      | Some d => readDigits radix true (acc * radix + d) s'
      | None => if seen then Some acc else None
      end
  end.

(** [parseInt(s)] of a string, with no radix given: leading whitespace
    is skipped, a sign and a [0x] prefix are read, then the longest
    run of digits; [None] is [NaN]. *)
Definition parseIntStr (s : jsstring) : option Z :=
  let s := trimStart s in
  let '(sign, s) :=
    match s with
    | c :: s' => if c =? 45 then (-1, s')
                 else if c =? 43 then (1, s') else (1, s)
    | [] => (1, s)
    end in
  let '(radix, s) :=
    match s with
    | c0 :: c1 :: s' =>
        if (c0 =? 48) && ((c1 =? 120) || (c1 =? 88)) then (16, s')
        else (10, s)
    | _ => (10, s)
    end in
  match readDigits radix false 0 s with
  | Some n => Some (sign * n)
  | None => None
  end.

(** The decimal digits of a natural number, most significant first;
    [fuel] bounds their number. *)
Fixpoint decimalDigits (fuel : nat) (n : Z) (acc : jsstring) : jsstring :=
  match fuel with
  | O => acc
  | S fuel' =>
      let acc := (48 + n mod 10) :: acc in
      if n <? 10 then acc else decimalDigits fuel' (n / 10) acc
  end.

(** [String(n)] for an integer [n] below 10^21 in magnitude (beyond,
    JavaScript switches to the exponent notation). *)
Definition numToString (n : Z) : jsstring :=
  let ds := decimalDigits 22 (Z.abs n) [] in
  if n <? 0 then 45 :: ds else ds.

(** [parseInt(lang)]: the argument is first turned into a string.
    [VNum n] is the integer [n], below 10^21 in magnitude. *)
Definition parseInt (v : jsval) : option Z :=
  match v with
  | VStr s => parseIntStr s
  | VNum n => parseIntStr (numToString n)
  end.

Definition getLangName (lang : jsval) : jsstring :=
  match parseInt lang with
  | Some 1 => js "C"
  | Some 2 => js "Java"
  | Some 3 => js "C++"
  | Some 4 => js "Pascal"
  | Some 5 => js "C++11"
  | _ => js "?"
  end.

(* ================================================================= *)
(** ** [htmlDecodeSimple] *)

Fixpoint isPrefix (p s : jsstring) : bool :=
  match p, s with
  | [], _ => true
  | x :: p', y :: s' => (x =? y) && isPrefix p' s'
  | _ :: _, [] => false
  end.

(** [s.replace(/pat/g, rep)] for a pattern [pat] of literal
    characters, not empty, and a replacement without [$]: the matches
    are found from left to right and do not overlap. [skip] is the
    number of characters of the last match still to be passed. *)
Fixpoint replaceAllFrom (pat rep : jsstring) (skip : nat) (s : jsstring)
    : jsstring :=
  match s with
  | [] => []
  | c :: s' =>
      match skip with
      | S k => replaceAllFrom pat rep k s'
      | O =>
          if isPrefix pat s
          then rep ++ replaceAllFrom pat rep (List.length pat - 1) s'
          else c :: replaceAllFrom pat rep 0 s'
      end
  end.

Definition replaceAll (pat rep s : jsstring) : jsstring :=
  replaceAllFrom pat rep 0 s.

Definition AMP : char := 38.
Definition LT : char := 60.
Definition GT : char := 62.
Definition SEMI : char := 59.
Definition EQUALS : char := 61.

Definition htmlDecodeSimple (s : jsstring) : jsstring :=
  replaceAll (js "&amp;") [AMP]
    (replaceAll (js "&quot;") [DQUOTE]
       (replaceAll (js "&gt;") [GT]
          (replaceAll (js "&lt;") [LT]
             (replaceAll (js "&apos;") [SQUOTE] s)))).

(** The five entities [htmlDecodeSimple] knows. *)
Inductive entity := EAmp | ELt | EGt | EQuot | EApos.

Definition entityName (e : entity) : jsstring :=
  match e with
  | EAmp => js "&amp;"
  | ELt => js "&lt;"
  | EGt => js "&gt;"
  | EQuot => js "&quot;"
  | EApos => js "&apos;"
  end.

Definition entityChar (e : entity) : char :=
  match e with
  | EAmp => AMP
  | ELt => LT
  | EGt => GT
  | EQuot => DQUOTE
  | EApos => SQUOTE
  end.

(** A text in which the five characters may be written as entities: a
    sequence of characters other than [&] and of entities. *)
Inductive item :=
| Lit (c : char)
| Ent (e : entity).

Definition render (it : item) : jsstring :=
  match it with
  | Lit c => [c]
  | Ent e => entityName e
  end.

Definition renderAll (l : list item) : jsstring := flat_map render l.

Definition litOK (it : item) : Prop :=
  match it with
  | Lit c => c <> AMP
  | Ent _ => True
  end.

(** The character an item stands for. *)
Definition itemChar (it : item) : char :=
  match it with
  | Lit c => c
  | Ent e => entityChar e
  end.

(** The stage of [htmlDecodeSimple] that decodes [e]. *)
Definition decodeItem (e : entity) (it : item) : item :=
  match it with
  | Lit c => Lit c
  | Ent e' =>
      match e, e' with
      | EAmp, EAmp | ELt, ELt | EGt, EGt | EQuot, EQuot | EApos, EApos =>
          Lit (entityChar e)
      | _, _ => Ent e'
      end
  end.

(** The escaping [htmlDecodeSimple] undoes: the five characters as
    entities, every other character as it is. *)
Definition escapeChar (c : char) : item :=
  if c =? AMP then Ent EAmp
  else if c =? LT then Ent ELt
  else if c =? GT then Ent EGt
  else if c =? DQUOTE then Ent EQuot
  else if c =? SQUOTE then Ent EApos
  else Lit c.

Definition htmlEscape (s : jsstring) : jsstring :=
  renderAll (map escapeChar s).

(* ================================================================= *)
(** ** [getCookies] *)

(** [s.split(sep)] for a separator of one character. *)
Fixpoint split (sep : char) (s : jsstring) : list jsstring :=
  match s with
  | [] => [[]]
  | c :: s' =>
      if c =? sep then [] :: split sep s'
      else match split sep s' with
           | h :: t => (c :: h) :: t
           | [] => [[c]]
           end
  end.

(** [inMsg.headers["set-cookie"]]: absent, a string or an array of
    strings. *)
Inductive headerValue :=
| HUndefined
| HString (s : jsstring)
| HArray (lines : list jsstring).

(** The inner function [get]: the cookie of a line, or [null]. *)
Definition getCookie (line : jsstring) : option (jsstring * jsstring) :=
  let tokens := split SEMI line in
  if (1 <=? List.length tokens)%nat then
    let pair := split EQUALS (nth 0 tokens []) in
    if negb (List.length pair =? 2)%nat then None
    else Some (trim (nth 0 pair []), trim (nth 1 pair []))
  else None.

(** The [for] loop over the lines, with the variables [z] and [sep]. *)
Fixpoint getCookies_loop (cookies : list jsstring) (z sep : jsstring)
    : jsstring :=
  match cookies with
  | [] => z
  | line :: cookies' =>
      match getCookie line with
      | None => getCookies_loop cookies' z sep
      | Some (key, value) =>
          getCookies_loop cookies' (z ++ sep ++ key ++ [EQUALS] ++ value)
                          (js "; ")
      end
  end.

(** [None] is [null]. *)
Definition getCookies (h : headerValue) : option jsstring :=
  match h with
  | HString s => Some (getCookies_loop [s] [] [])
  | HUndefined => None
  | HArray lines => Some (getCookies_loop lines [] [])
  end.

(** What a cookie returned by [get] is made of. *)
Definition cookiePart (t : jsstring) : Prop :=
  contains SEMI t = false /\ contains EQUALS t = false /\ trimmed t.

(** The texts [key=value] of the lines that hold a cookie. *)
Definition cookieTexts (lines : list jsstring) : list jsstring :=
  flat_map (fun line => match getCookie line with
                        | Some (key, value) => [key ++ [EQUALS] ++ value]
                        | None => []
                        end) lines.

(** The part of a line before its first [;]. *)
Fixpoint firstSegment (line : jsstring) : jsstring :=
  match line with
  | [] => []
  | c :: line' => if c =? SEMI then [] else c :: firstSegment line'
  end.

Fixpoint count (c : char) (s : jsstring) : nat :=
  match s with
  | [] => 0%nat
  | x :: s' => Nat.add (if x =? c then 1%nat else 0%nat) (count c s')
  end.

(* ================================================================= *)
(** ** [createEndCallback] *)

(** What happens on the messages the function returned by
    [createEndCallback] was given: message [m] is readable and
    [inMsg.read()] gives a chunk ([None] is [null]), or message [m]
    ends. *)
Inductive msgEvent :=
| Readable (m : nat) (chunk : option jsstring)
| Ended (m : nat).

(** The listeners, run on the events in order: [buf] is the variable
    of the closure, shared by all messages; the result lists the calls
    [callback(buf, inMsg)]. *)
Fixpoint endCallback_run (buf : jsstring) (evs : list msgEvent)
    : list (jsstring * nat) :=
  match evs with
  | [] => []
  | Readable _ chunk :: evs' =>
      endCallback_run
        (buf ++ match chunk with
                | Some (c :: s) => c :: s
                | _ => []
                end) evs'
  | Ended m :: evs' => (buf, m) :: endCallback_run buf evs'
  end.

(** [createEndCallback(callback)]: [buf] starts empty. *)
Definition createEndCallback (evs : list msgEvent) : list (jsstring * nat) :=
  endCallback_run [] evs.

(** All the chunks read in [evs], on whatever message. *)
Definition chunksRead (evs : list msgEvent) : jsstring :=
  flat_map (fun e => match e with
                     | Readable _ (Some s) => s
                     | _ => []
                     end) evs.

(* ================================================================= *)
(** ** [parseAttribs] *)

(** The regular expressions [ATTRIB_PATTERN] is made of: one character
    of a class, the greedy [*] of a class, sequence, alternation and
    capture groups. *)
Inductive regex :=
| RChar (p : char -> bool)
| RStar (p : char -> bool)
| RSeq (r1 r2 : regex)
| RAlt (r1 r2 : regex)
| RGroup (n : nat) (r : regex).

(** The captures: the text of the groups matched so far, the latest
    first. *)
Definition captures := list (nat * jsstring).

Fixpoint group (n : nat) (caps : captures) : jsstring :=
  match caps with
  | [] => []
  | (m, text) :: caps' => if Nat.eqb n m then text else group n caps'
  end.

(** Backtracking matching, as ECMAScript defines it: a matcher takes
    the input left and a continuation for what follows; [c*] tries the
    longest run first and gives characters back when what follows
    fails; an alternation tries its right side when the left side, or
    what follows it, fails. *)
Fixpoint starClass {A : Type} (p : char -> bool) (s : jsstring)
    (k : jsstring -> option A) : option A :=
  match s with
  | c :: s' =>
      if p c then
        match starClass p s' k with
        | Some a => Some a
        | None => k s
        end
      else k s
  | [] => k s
  end.

Fixpoint matchRe {A : Type} (r : regex) (s : jsstring) (caps : captures)
    (k : jsstring -> captures -> option A) : option A :=
  match r with
  | RChar p =>
      match s with
      | c :: s' => if p c then k s' caps else None
      | [] => None
      end
  | RStar p => starClass p s (fun s' => k s' caps)
  | RSeq r1 r2 =>
      matchRe r1 s caps (fun s1 caps1 => matchRe r2 s1 caps1 k)
  | RAlt r1 r2 =>
      match matchRe r1 s caps k with
      | Some a => Some a
      | None => matchRe r2 s caps k
      end
  | RGroup n r =>
      matchRe r s caps
        (fun s' caps' =>
           k s' ((n, firstn (List.length s - List.length s') s) :: caps'))
  end.

(** [[\w:]]; the flag [i] adds no character to the class. *)
Definition nameChar (c : char) : bool :=
  ((97 <=? c) && (c <=? 122)) || ((65 <=? c) && (c <=? 90)) ||
  ((48 <=? c) && (c <=? 57)) || (c =? 95) || (c =? 58).

Definition isChar (x : char) (c : char) : bool := c =? x.
Definition isNotChar (x : char) (c : char) : bool := negb (c =? x).
Definition notWhiteSpace (c : char) : bool := negb (isWhiteSpace c).

(** The pattern, with the flags [g] and [i]: a name [[\w:]+] in group
    1, [\s*=\s*], and in group 2 a double quote, characters other than
    a double quote and a double quote, or the same with single quotes,
    or [\S*]. *)
Definition VALUE_PATTERN : regex :=
  RAlt (RSeq (RChar (isChar DQUOTE))
          (RSeq (RStar (isNotChar DQUOTE)) (RChar (isChar DQUOTE))))
    (RAlt (RSeq (RChar (isChar SQUOTE))
             (RSeq (RStar (isNotChar SQUOTE)) (RChar (isChar SQUOTE))))
       (RStar notWhiteSpace)).

Definition ATTRIB_PATTERN : regex :=
  RSeq (RGroup 1 (RSeq (RChar nameChar) (RStar nameChar)))
    (RSeq (RStar isWhiteSpace)
       (RSeq (RChar (isChar EQUALS))
          (RSeq (RStar isWhiteSpace) (RGroup 2 VALUE_PATTERN)))).

(** A match at the start of [s]: [match[1]], [match[2]] and the input
    after the match. *)
Definition matchHere (s : jsstring) : option (jsstring * jsstring * jsstring) :=
  matchRe ATTRIB_PATTERN s []
    (fun rest caps => Some (group 1 caps, group 2 caps, rest)).

(** [ATTRIB_PATTERN.exec(html)], [s] being [html] from [lastIndex]
    on: the first position from there at which the pattern matches. *)
Fixpoint exec (s : jsstring) : option (jsstring * jsstring * jsstring) :=
  match matchHere s with
  | Some m => Some m
  | None =>
      match s with
      | [] => None
      | _ :: s' => exec s'
      end
  end.

(** The [while] loop; [pairs] is the object, given by the assignments
    [pairs[name] = value] made on it, in order. *)
Fixpoint parseAttribs_loop (fuel : nat) (html : jsstring)
    (pairs : list (jsstring * jsstring))
    : outcome (list (jsstring * jsstring)) :=
  match fuel with
  | O => OutOfFuel
  | S fuel' =>
      match exec html with
      | None => Return pairs
      | Some (name, raw, rest) =>
          match unquote raw with
          | Return value =>
              parseAttribs_loop fuel' rest (pairs ++ [(name, value)])
          | Throw e => Throw e
          | OutOfFuel => OutOfFuel
          end
      end
  end.

(** Every match takes at least one character, so [html.length + 1]
    iterations suffice (see [parseAttribs_loop_fuel]). *)
Definition parseAttribs (html : jsstring)
    : outcome (list (jsstring * jsstring)) :=
  parseAttribs_loop (S (List.length html)) html [].

(** [p] put in front of the assignments a call returns. *)
Definition consPair (p : jsstring * jsstring)
    (o : outcome (list (jsstring * jsstring)))
    : outcome (list (jsstring * jsstring)) :=
  match o with
  | Return l => Return (p :: l)
  | Throw e => Throw e
  | OutOfFuel => OutOfFuel
  end.

(** An attribute as written in well-formed XML: whitespace, a name,
    whitespace, [=], whitespace, and a value between two quote chars
    [quote] that does not hold [quote]. *)
Record attrib := {
  a_lead : jsstring;
  a_name : jsstring;
  a_ws1 : jsstring;
  a_ws2 : jsstring;
  a_quote : char;
  a_value : jsstring
}.

Definition attribText (a : attrib) : jsstring :=
  a_lead a ++ a_name a ++ a_ws1 a ++ [EQUALS] ++ a_ws2 a ++
  [a_quote a] ++ a_value a ++ [a_quote a].

Definition wellFormed (a : attrib) : Prop :=
  forallb isWhiteSpace (a_lead a) = true /\
  a_name a <> [] /\ forallb nameChar (a_name a) = true /\
  forallb isWhiteSpace (a_ws1 a) = true /\
  forallb isWhiteSpace (a_ws2 a) = true /\
  isQuoteChar (a_quote a) = true /\
  contains (a_quote a) (a_value a) = false.

(** [l] is empty or starts with a character [p] refuses. *)
Definition headNot (p : char -> bool) (l : jsstring) : Prop :=
  match l with
  | c :: _ => p c = false
  | [] => True
  end.

(* ================================================================= *)
(** * Properties *)

(** ** Strings *)

Lemma str_eqb_eq (a b : jsstring) : str_eqb a b = true <-> a = b.
Proof.
  revert b; induction a as [|x a IH]; intros [|y b]; simpl;
    try (split; [discriminate | congruence]); try tauto.
  rewrite andb_true_iff, Z.eqb_eq, IH. split.
  - intros [-> ->]; reflexivity.
  - intros [= -> ->]; auto.
Qed.

Lemma str_eqb_refl (a : jsstring) : str_eqb a a = true.
Proof. apply str_eqb_eq; reflexivity. Qed.

Lemma nonEmpty_cons (c : char) (s : jsstring) : nonEmpty (c :: s) = true.
Proof. reflexivity. Qed.

Lemma nonEmpty_false (s : jsstring) : nonEmpty s = false <-> s = [].
Proof. destruct s; cbv; split; intros H; try reflexivity; discriminate H. Qed.

Lemma nonEmpty_snoc (s : jsstring) (c : char) : nonEmpty (s ++ [c]) = true.
Proof. destruct s; reflexivity. Qed.

Lemma charAt_skipn (s : jsstring) (i : Z) :
  0 <= i < JS.length s ->
  exists c, charAt s i = [c] /\
            skipn (Z.to_nat i) s = c :: skipn (Z.to_nat (i + 1)) s.
Proof.
  unfold JS.length, charAt. intros H.
  destruct (Z.ltb_spec i 0); [lia|].
  replace (Z.to_nat (i + 1)) with (S (Z.to_nat i)) by lia.
  assert (Hn : (Z.to_nat i < List.length s)%nat) by lia.
  revert Hn. generalize (Z.to_nat i). clear.
  induction s as [|x s IH]; intros [|n] Hn; simpl in *; try lia.
  - exists x; auto.
  - apply IH; lia.
Qed.

Lemma skipn_length_nil (s : jsstring) (i : Z) :
  JS.length s <= i -> skipn (Z.to_nat i) s = [].
Proof. unfold JS.length. intros. apply skipn_all2. lia. Qed.

Lemma notBlank_char (c : char) : notBlank [c] = negb (isSep c).
Proof.
  unfold notBlank, isSep, SPACE, TAB. simpl. rewrite !andb_true_r.
  destruct (c =? 32), (c =? 9); reflexivity.
Qed.

Lemma isQuote_char (c : char) :
  str_eqb [c] [DQUOTE] || str_eqb [c] (js "'") = isQuoteChar c.
Proof. unfold isQuoteChar, SQUOTE. simpl. rewrite !andb_true_r. reflexivity. Qed.

Lemma isSep_char (c : char) :
  str_eqb [c] (js " ") || str_eqb [c] [TAB] = isSep c.
Proof. unfold isSep, SPACE. simpl. rewrite !andb_true_r. reflexivity. Qed.

Lemma sep_not_quote (c : char) : isSep c = true -> isQuoteChar c = false.
Proof.
  unfold isSep, isQuoteChar, SPACE, TAB, DQUOTE, SQUOTE. intros H.
  apply orb_true_iff in H. rewrite !Z.eqb_eq in H.
  apply orb_false_iff. rewrite !Z.eqb_neq. lia.
Qed.

(** ** [trim] *)

Lemma trimStart_app_ws (a b : jsstring) :
  forallb isWhiteSpace a = true -> trimStart (a ++ b) = trimStart b.
Proof.
  induction a as [|x a IH]; simpl; auto.
  intros H. apply andb_true_iff in H as [-> H]. auto.
Qed.

Lemma trimStart_fix (s : jsstring) :
  match s with c :: _ => isWhiteSpace c = false | [] => True end ->
  trimStart s = s.
Proof. destruct s; simpl; auto. intros ->; auto. Qed.

Lemma trimStart_head (s : jsstring) :
  match trimStart s with c :: _ => isWhiteSpace c = false | [] => True end.
Proof.
  induction s as [|x s IH]; simpl; auto.
  destruct (isWhiteSpace x) eqn:E; auto.
Qed.

Lemma trimStart_suffix (s : jsstring) :
  exists ws, s = ws ++ trimStart s /\ forallb isWhiteSpace ws = true.
Proof.
  induction s as [|x s (ws & IH & Hws)]; simpl.
  - exists []; auto.
  - destruct (isWhiteSpace x) eqn:E.
    + exists (x :: ws). simpl. rewrite E, Hws. split; [congruence | reflexivity].
    + exists []; auto.
Qed.

Lemma trimStart_idem (s : jsstring) : trimStart (trimStart s) = trimStart s.
Proof. apply trimStart_fix, trimStart_head. Qed.

(** The first character of a string survives [trimEnd] unless the
    whole string is whitespace. *)
Lemma trimEnd_cons (c : char) (s : jsstring) :
  isWhiteSpace c = false -> exists s', trimEnd (c :: s) = c :: s'.
Proof.
  intros Hc. unfold trimEnd. simpl.
  destruct (trimStart_suffix (rev s ++ [c])) as (ws & E & Hws).
  remember (trimStart (rev s ++ [c])) as t eqn:Ht.
  destruct (rev t) as [|y t'] eqn:Er.
  - assert (t = []) by (apply (f_equal (@rev _)) in Er; rewrite rev_involutive in Er; auto).
    subst t. rewrite H in E. rewrite app_nil_r in E.
    rewrite <- E in Hws. rewrite forallb_app in Hws. simpl in Hws.
    rewrite Hc in Hws. rewrite andb_false_r in Hws. discriminate.
  - apply (f_equal (@rev _)) in E.
    rewrite !rev_app_distr, rev_involutive, Er in E. simpl in E.
    injection E as <- _. eauto.
Qed.

Lemma trim_nil : trim [] = [].
Proof. reflexivity. Qed.

(** A trimmed string neither starts nor ends with whitespace. *)
Lemma trimEnd_last (s : jsstring) :
  match rev (trimEnd s) with c :: _ => isWhiteSpace c = false | [] => True end.
Proof. unfold trimEnd. rewrite rev_involutive. apply trimStart_head. Qed.

Lemma trim_last (s : jsstring) :
  match rev (trim s) with c :: _ => isWhiteSpace c = false | [] => True end.
Proof. apply trimEnd_last. Qed.

Lemma trim_head (s : jsstring) :
  match trim s with c :: _ => isWhiteSpace c = false | [] => True end.
Proof.
  unfold trim. pose proof (trimStart_head s) as H.
  destruct (trimStart s) as [|c t]; [exact I|].
  destruct (trimEnd_cons c t H) as (s' & ->). exact H.
Qed.

Lemma trim_fix (s : jsstring) :
  match s with c :: _ => isWhiteSpace c = false | [] => True end ->
  match rev s with c :: _ => isWhiteSpace c = false | [] => True end ->
  trim s = s.
Proof.
  intros H1 H2. unfold trim. rewrite (trimStart_fix s H1).
  unfold trimEnd. rewrite (trimStart_fix _ H2). apply rev_involutive.
Qed.

Lemma trim_idem (s : jsstring) : trim (trim s) = trim s.
Proof. apply trim_fix; [apply trim_head | apply trim_last]. Qed.

(** ** [parseArgs] runs the character machine *)

Lemma tok_Skip_Unq (args : list jsstring) (c : char) (rest : jsstring) :
  isSep c = false -> tok Skip args (c :: rest) = tok (Unq []) args (c :: rest).
Proof. intros H. simpl. rewrite H. reflexivity. Qed.

(** [skipWhitespace] returns -1 when only separators remain, and the
    index of the next other character otherwise. *)
Lemma skipWhitespace_from_tok (s : jsstring) (args : list jsstring) :
  forall (rest : jsstring) (i : Z),
    0 <= i -> rest = skipn (Z.to_nat i) s ->
    let j := skipWhitespace_from s rest i in
    (j = -1 /\ tok Skip args rest = Return args) \/
    (i <= j < JS.length s /\
     tok Skip args rest = tok (Unq []) args (skipn (Z.to_nat j) s)).
Proof.
  induction rest as [|c rest IH]; intros i Hi Hrest; simpl.
  - left; auto.
  - assert (Hlt : i < JS.length s).
    { destruct (Z.lt_ge_cases i (JS.length s)) as [|Hge]; auto.
      rewrite (skipn_length_nil s i) in Hrest by lia. discriminate. }
    destruct (charAt_skipn s i) as (c' & Hc & Hs); [lia|].
    rewrite Hs in Hrest. injection Hrest as <- Hrest.
    rewrite Hc, notBlank_char.
    destruct (isSep c) eqn:E; simpl.
    + destruct (IH (i + 1)) as [H|H]; [lia|assumption|left; exact H|right].
      split; [lia|apply H].
    + right. split; [lia|]. rewrite Hs, <- Hrest. simpl. rewrite E. reflexivity.
Qed.

Lemma skipWhitespace_tok (s : jsstring) (args : list jsstring) (k : Z) :
  0 <= k ->
  let j := skipWhitespace s k in
  (j = -1 /\ tok Skip args (skipn (Z.to_nat k) s) = Return args) \/
  (k <= j < JS.length s /\
   tok Skip args (skipn (Z.to_nat k) s)
   = tok (Unq []) args (skipn (Z.to_nat j) s)).
Proof. intros Hk. apply skipWhitespace_from_tok; auto. Qed.

Lemma parseArgs_loop_tok :
  forall (fuel : nat) (s : jsstring) (startQuote : option jsstring)
         (args : list jsstring) (curToken : jsstring) (i : Z),
    0 <= i <= JS.length s ->
    JS.length s - i < Z.of_nat fuel ->
    quoteVar startQuote ->
    parseArgs_loop fuel s startQuote args curToken i
    = tok (modeOf startQuote curToken) args (skipn (Z.to_nat i) s).
Proof.
  induction fuel as [|fuel IH]; intros s sq args cur i Hi Hfuel Hsq; [lia|].
  cbn [parseArgs_loop].
  destruct (Z.ltb_spec i (JS.length s)) as [Hlt|Hge].
  - destruct (charAt_skipn s i) as (c & Hc & Hs); [lia|].
    rewrite Hc, Hs.
    destruct Hsq as [->|(q & ->)]; cbn [truthy opt_str_eqb modeOf].
    + rewrite isQuote_char, isSep_char. cbn [tok].
      destruct (isQuoteChar c) eqn:Eq.
      * fold (nonEmpty (trim cur)).
        destruct (nonEmpty (trim cur)) eqn:En.
        -- rewrite IH; [reflexivity|lia|lia|right; eauto].
        -- apply nonEmpty_false in En. rewrite En.
           rewrite IH; [reflexivity|lia|lia|right; eauto].
      * destruct (isSep c) eqn:Es.
        -- destruct (skipWhitespace_tok s (args ++ [trim cur]) (i + 1))
             as [[Hj Ht]|[Hj Ht]]; [lia| |].
           ++ rewrite Hj. simpl. symmetry. exact Ht.
           ++ destruct (Z.ltb_spec (skipWhitespace s (i + 1)) 0); [lia|].
              rewrite IH; [|lia|lia|left; reflexivity].
              symmetry. exact Ht.
        -- rewrite IH; [reflexivity|lia|lia|left; reflexivity].
    + cbn [tok str_eqb]. rewrite andb_true_r.
      destruct (c =? q) eqn:Eq.
      * destruct (skipWhitespace_tok s (args ++ [trim cur]) (i + 1))
          as [[Hj Ht]|[Hj Ht]]; [lia| |].
        -- rewrite Hj. simpl. symmetry. exact Ht.
        -- destruct (Z.ltb_spec (skipWhitespace s (i + 1)) 0); [lia|].
           rewrite IH; [|lia|lia|left; reflexivity].
           symmetry. exact Ht.
      * rewrite IH; [reflexivity|lia|lia|right; eauto].
  - rewrite (skipn_length_nil s i) by lia.
    destruct Hsq as [->|(q & ->)]; reflexivity.
Qed.

(** [parseArgs] never exhausts its budget: it is the character
    machine started in [Skip]. *)
Lemma parseArgs_tok (s : jsstring) : parseArgs s = tok Skip [] s.
Proof.
  unfold parseArgs.
  destruct (skipWhitespace_tok s [] 0) as [[Hj Ht]|[Hj Ht]]; [lia| |];
    simpl in Ht.
  - rewrite Hj. simpl. symmetry. exact Ht.
  - destruct (Z.ltb_spec (skipWhitespace s 0) 0); [lia|].
    rewrite parseArgs_loop_tok; [|lia|unfold JS.length in *; lia|left; reflexivity].
    symmetry. exact Ht.
Qed.

(** ** The checks of the test block of [util.js] *)

Example check_blank :
  parseArgs [] = Return [] /\ parseArgs (js " ") = Return [] /\
  parseArgs (js "  ") = Return [].
Proof. repeat split; reflexivity. Qed.

Example check_a :
  parseArgs (js "a") = Return [js "a"] /\
  parseArgs (js " a") = Return [js "a"] /\
  parseArgs (js "a ") = Return [js "a"] /\
  parseArgs (js " a ") = Return [js "a"] /\
  parseArgs (js "  a  ") = Return [js "a"].
Proof. repeat split; reflexivity. Qed.

Example check_hello :
  parseArgs (js "'hello'") = Return [js "hello"] /\
  parseArgs (js " 'hello'") = Return [js "hello"] /\
  parseArgs (js "'hello' ") = Return [js "hello"] /\
  parseArgs (js " 'hello' ") = Return [js "hello"] /\
  parseArgs (js "  'hello world'  ") = Return [js "hello world"].
Proof. repeat split; reflexivity. Qed.

Example check_hello_abc :
  parseArgs (js "'hello'abc") = Return [js "hello"; js "abc"] /\
  parseArgs (js "'hello' abc") = Return [js "hello"; js "abc"] /\
  parseArgs (js "'hello' abc ") = Return [js "hello"; js "abc"] /\
  parseArgs (js "'hello world' abc") = Return [js "hello world"; js "abc"].
Proof. repeat split; reflexivity. Qed.

Example check_hello_there :
  parseArgs (js "'hello' 'hello there'")
  = Return [js "hello"; js "hello there"] /\
  parseArgs (js "hello 'hello there'")
  = Return [js "hello"; js "hello there"] /\
  parseArgs (js "'hello' " ++ [DQUOTE; DQUOTE] ++ js " 'hello there'")
  = Return [js "hello"; []; js "hello there"] /\
  parseArgs (js "'hello'" ++ [DQUOTE; DQUOTE] ++ js "'hello there'")
  = Return [js "hello"; []; js "hello there"].
Proof. repeat split; reflexivity. Qed.

(** ** Unmatched quotes *)

(** The machine throws exactly when the input ends inside a quote. *)
Lemma tok_outcome :
  forall (rest : jsstring) (m : mode) (args : list jsstring),
    match openQuoteAfter (modeQuote m) rest with
    | Some _ => tok m args rest = Throw UnmatchedQuote
    | None => exists toks, tok m args rest = Return toks
    end.
Proof.
  induction rest as [|c rest IH]; intros m args.
  - destruct m as [|cur|q cur]; simpl; eauto.
    destruct (nonEmpty cur); eauto.
  - destruct m as [|cur|q cur]; simpl.
    + destruct (isSep c) eqn:Es.
      * rewrite (sep_not_quote c Es). apply (IH Skip).
      * destruct (isQuoteChar c).
        -- apply (IH (Quo c [])).
        -- apply (IH (Unq [c])).
    + destruct (isQuoteChar c).
      * apply (IH (Quo c [])).
      * destruct (isSep c); [apply (IH Skip)|apply (IH (Unq (cur ++ [c])))].
    + destruct (c =? q); [apply (IH Skip)|apply (IH (Quo q (cur ++ [c])))].
Qed.

(** C2: [parseArgs] throws [UnmatchedQuote] if and only if a quote is
    opened in the input and never closed; on every other input it
    returns a sequence of tokens. *)
Theorem parseArgs_unmatched_quote (s : jsstring) :
  (parseArgs s = Throw UnmatchedQuote <-> unclosedQuote s = true) /\
  (parseArgs s = Throw UnmatchedQuote \/ exists toks, parseArgs s = Return toks).
Proof.
  rewrite parseArgs_tok. unfold unclosedQuote.
  pose proof (tok_outcome s Skip []) as H. simpl in H.
  destruct (openQuoteAfter None s).
  - rewrite H. split; [split; reflexivity|left; reflexivity].
  - destruct H as (toks & ->). split; [split; discriminate|right; eauto].
Qed.

Example parseArgs_unterminated :
  parseArgs (js "'unterminated") = Throw UnmatchedQuote.
Proof. reflexivity. Qed.

(** ** Tokens are trimmed *)

Lemma trimmed_trim (s : jsstring) : trimmed (trim s).
Proof.
  split; [apply trim_idem|split].
  - intros c t' E. pose proof (trim_head s) as H. rewrite E in H. exact H.
  - intros c t' E. pose proof (trim_last s) as H. rewrite E in H.
    rewrite rev_app_distr in H. exact H.
Qed.

Lemma contains_app (c : char) (a b : jsstring) :
  contains c (a ++ b) = contains c a || contains c b.
Proof. apply existsb_app. Qed.

Lemma trimStart_contains (c : char) (s : jsstring) :
  contains c s = false -> contains c (trimStart s) = false.
Proof.
  destruct (trimStart_suffix s) as (ws & E & _). intros H.
  rewrite E, contains_app in H. apply orb_false_iff in H. tauto.
Qed.

Lemma contains_rev (c : char) (s : jsstring) :
  contains c (rev s) = contains c s.
Proof.
  induction s as [|x s IH]; simpl; auto.
  rewrite contains_app, IH. simpl. rewrite orb_false_r. apply orb_comm.
Qed.

Lemma trim_contains (c : char) (s : jsstring) :
  contains c s = false -> contains c (trim s) = false.
Proof.
  intros H. unfold trim, trimEnd. rewrite contains_rev.
  apply trimStart_contains. rewrite contains_rev.
  apply trimStart_contains, H.
Qed.

Lemma lacksQuote_trim_quoted (q : char) (cur : jsstring) :
  isQuoteChar q = true -> contains q cur = false -> lacksQuote (trim cur).
Proof.
  unfold isQuoteChar, lacksQuote. intros Hq Hc.
  apply orb_true_iff in Hq as [Hq|Hq]; apply Z.eqb_eq in Hq; subst q;
    [left|right]; apply trim_contains, Hc.
Qed.

Lemma contains_snoc_neq (q c : char) (cur : jsstring) :
  contains q cur = false -> (c =? q) = false -> contains q (cur ++ [c]) = false.
Proof.
  intros H E. rewrite contains_app, H. simpl. rewrite E. reflexivity.
Qed.

Lemma isQuoteChar_false (c : char) :
  isQuoteChar c = false -> (c =? DQUOTE) = false /\ (c =? SQUOTE) = false.
Proof. unfold isQuoteChar. apply orb_false_iff. Qed.

(** Every token the machine returns is trimmed and lacks one of the
    two quote chars. *)
Lemma tok_tokens :
  forall (rest : jsstring) (m : mode) (args toks : list jsstring),
    tok m args rest = Return toks ->
    modeInv m ->
    Forall (fun t => trimmed t /\ lacksQuote t) args ->
    Forall (fun t => trimmed t /\ lacksQuote t) toks.
Proof.
  assert (push : forall args cur,
             Forall (fun t => trimmed t /\ lacksQuote t) args ->
             lacksQuote (trim cur) ->
             Forall (fun t => trimmed t /\ lacksQuote t) (args ++ [trim cur])).
  { intros args cur Ha Hl. apply Forall_app. split; auto.
    constructor; auto. split; auto. apply trimmed_trim. }
  induction rest as [|c rest IH]; intros m args toks H Hm Ha.
  - destruct m as [|cur|q cur]; simpl in H.
    + injection H as <-. exact Ha.
    + destruct Hm as [Hd Hs].
      destruct (nonEmpty cur); injection H as <-; auto.
      apply push; auto. left. apply trim_contains, Hd.
    + discriminate.
  - destruct m as [|cur|q cur]; simpl in H.
    + destruct (isSep c); [apply (IH _ _ _ H); simpl; auto|].
      destruct (isQuoteChar c) eqn:Eq; apply (IH _ _ _ H); simpl; auto.
      apply isQuoteChar_false in Eq as [-> ->]. auto.
    + destruct Hm as [Hd Hs].
      destruct (isQuoteChar c) eqn:Eq.
      * apply (IH _ _ _ H); simpl; auto.
        destruct (nonEmpty (trim cur)); auto.
        apply push; auto. left. apply trim_contains, Hd.
      * destruct (isSep c).
        -- apply (IH _ _ _ H); simpl; auto.
           apply push; auto. left. apply trim_contains, Hd.
        -- apply isQuoteChar_false in Eq as [E1 E2].
           apply (IH _ _ _ H); simpl; auto.
           split; apply contains_snoc_neq; auto.
    + destruct Hm as [Hq Hc].
      destruct (c =? q) eqn:E.
      * apply (IH _ _ _ H); simpl; auto.
        apply push; auto. eapply lacksQuote_trim_quoted; eauto.
      * apply (IH _ _ _ H); simpl; auto.
        split; auto. apply contains_snoc_neq; auto.
Qed.

Lemma parseArgs_tokens (s : jsstring) (toks : list jsstring) :
  parseArgs s = Return toks ->
  Forall (fun t => trimmed t /\ lacksQuote t) toks.
Proof.
  rewrite parseArgs_tok. intros H.
  apply (tok_tokens s Skip [] toks H); simpl; auto.
Qed.

(** C10: every token [parseArgs] returns is trimmed: [trim] leaves it
    unchanged and its first and last characters are not whitespace;
    this holds of the tokens of quoted segments too, whose interior
    whitespace is kept. *)
Theorem parseArgs_tokens_trimmed (s : jsstring) (toks : list jsstring) :
  parseArgs s = Return toks ->
  Forall trimmed toks /\
  parseArgs (js "' hello world '") = Return [js "hello world"].
Proof.
  intros H. split; [|reflexivity].
  apply parseArgs_tokens in H.
  eapply Forall_impl; [|exact H]. simpl. tauto.
Qed.

Lemma parseArgs_tokens_trimmed_witness :
  Forall trimmed [js "a b"; js "c"] /\
  parseArgs (js "' hello world '") = Return [js "hello world"].
Proof.
  apply (parseArgs_tokens_trimmed (js " ' a b ' c ")). reflexivity.
Defined.

(** ** Composing runs of the machine *)

Lemma tok_prepend (pre : list jsstring) :
  forall (rest : jsstring) (m : mode) (args : list jsstring),
    tok m (pre ++ args) rest = prepend pre (tok m args rest).
Proof.
  induction rest as [|c rest IH]; intros m args.
  - destruct m as [|cur|q cur]; simpl; auto.
    destruct (nonEmpty cur); simpl; rewrite ?app_assoc; reflexivity.
  - destruct m as [|cur|q cur]; simpl.
    + destruct (isSep c); auto. destruct (isQuoteChar c); auto.
    + destruct (isQuoteChar c).
      * destruct (nonEmpty (trim cur)); rewrite <- ?app_assoc; auto.
      * destruct (isSep c); rewrite <- ?app_assoc; auto.
    + destruct (c =? q); rewrite <- ?app_assoc; auto.
Qed.

Lemma tok_Skip_parseArgs (args : list jsstring) (rest : jsstring) :
  tok Skip args rest = prepend args (parseArgs rest).
Proof.
  rewrite parseArgs_tok, <- tok_prepend, app_nil_r. reflexivity.
Qed.

Lemma tok_lead (args : list jsstring) (rest lead : jsstring) :
  forallb isSep lead = true -> tok Skip args (lead ++ rest) = tok Skip args rest.
Proof.
  induction lead as [|c lead IH]; simpl; auto.
  intros H. apply andb_true_iff in H as [-> H]. auto.
Qed.

(** A quoted segment becomes one token, its content trimmed. *)
Lemma tok_quoted (q : char) (rest : jsstring) :
  forall (body cur : jsstring) (args : list jsstring),
    contains q body = false ->
    tok (Quo q cur) args (body ++ q :: rest)
    = tok Skip (args ++ [trim (cur ++ body)]) rest.
Proof.
  induction body as [|c body IH]; intros cur args H; simpl.
  - rewrite Z.eqb_refl, app_nil_r. reflexivity.
  - simpl in H. apply orb_false_iff in H as [E H]. rewrite E.
    rewrite IH by exact H. rewrite <- app_assoc. reflexivity.
Qed.

Lemma wordChar_spec (c : char) :
  wordChar c = true ->
  isWhiteSpace c = false /\ isSep c = false /\ isQuoteChar c = false.
Proof.
  unfold wordChar. intros H. apply andb_true_iff in H as [H1 H2].
  apply negb_true_iff in H1, H2. repeat split; auto.
  unfold isSep, SPACE, TAB. unfold isWhiteSpace in H1.
  destruct (c =? 32) eqn:E1, (c =? 9) eqn:E2; auto;
    rewrite ?E1, ?E2, ?orb_true_r in H1; simpl in H1; discriminate.
Qed.

Lemma tok_word (rest : jsstring) :
  forall (w cur : jsstring) (args : list jsstring),
    forallb wordChar w = true ->
    tok (Unq cur) args (w ++ rest) = tok (Unq (cur ++ w)) args rest.
Proof.
  induction w as [|c w IH]; intros cur args H; simpl.
  - rewrite app_nil_r. reflexivity.
  - simpl in H. apply andb_true_iff in H as [Hc H].
    apply wordChar_spec in Hc as (_ & -> & ->).
    rewrite IH by exact H. rewrite <- app_assoc. reflexivity.
Qed.

Lemma trim_noWhiteSpace (s : jsstring) : noWhiteSpace s = true -> trim s = s.
Proof.
  unfold noWhiteSpace. intros H. rewrite forallb_forall in H.
  apply trim_fix.
  - destruct s as [|c s]; auto. apply negb_true_iff, H. left; reflexivity.
  - destruct (rev s) as [|c r] eqn:E; auto.
    apply negb_true_iff, H, in_rev. rewrite E. left; reflexivity.
Qed.

Lemma trim_word (w : jsstring) : forallb wordChar w = true -> trim w = w.
Proof.
  intros H. apply trim_noWhiteSpace. unfold noWhiteSpace.
  rewrite forallb_forall in *. intros c Hc.
  apply H, wordChar_spec in Hc as (-> & _). reflexivity.
Qed.

(** Reading a prefix takes the machine to some mode, having pushed
    some tokens; the quote open then is the one [openQuoteAfter] says. *)
Lemma tok_prefix :
  forall (pre : jsstring) (m : mode) (args : list jsstring),
  exists (m' : mode) (extra : list jsstring),
    modeQuote m' = openQuoteAfter (modeQuote m) pre /\
    forall rest, tok m args (pre ++ rest) = tok m' (args ++ extra) rest.
Proof.
  assert (step : forall (m1 : mode) (x : list jsstring) (pre : jsstring)
                        (o : option char) (m : mode) (args : list jsstring) c,
             (forall m args, exists m' extra,
                 modeQuote m' = openQuoteAfter (modeQuote m) pre /\
                 forall rest, tok m args (pre ++ rest) = tok m' (args ++ extra) rest) ->
             modeQuote m1 = o ->
             (forall rest, tok m args (c :: pre ++ rest) = tok m1 (args ++ x) (pre ++ rest)) ->
             exists m' extra,
               modeQuote m' = openQuoteAfter o pre /\
               forall rest, tok m args (c :: pre ++ rest) = tok m' (args ++ extra) rest).
  { intros m1 x pre o m args c IH Ho Hstep.
    destruct (IH m1 (args ++ x)) as (m' & extra & Hq & Ht).
    exists m', (x ++ extra). rewrite <- Ho. split; auto.
    intros rest. rewrite Hstep, Ht, app_assoc. reflexivity. }
  induction pre as [|c pre IH]; intros m args.
  - exists m, []. rewrite app_nil_r. auto.
  - destruct m as [|cur|q cur]; cbn [modeQuote openQuoteAfter app].
    + destruct (isQuoteChar c) eqn:Eq.
      * apply (step (Quo c []) []); auto. intros rest. simpl.
        destruct (isSep c) eqn:Es;
          [rewrite (sep_not_quote c Es) in Eq; discriminate|].
        rewrite Eq, app_nil_r. reflexivity.
      * destruct (isSep c) eqn:Es.
        -- apply (step Skip []); auto. intros rest. simpl.
           rewrite Es, app_nil_r. reflexivity.
        -- apply (step (Unq [c]) []); auto. intros rest. simpl.
           rewrite Es, Eq, app_nil_r. reflexivity.
    + destruct (isQuoteChar c) eqn:Eq.
      * apply (step (Quo c [])
                 (if nonEmpty (trim cur) then [trim cur] else [])); auto.
        intros rest. simpl. rewrite Eq.
        destruct (nonEmpty (trim cur)); rewrite ?app_nil_r; reflexivity.
      * destruct (isSep c) eqn:Es.
        -- apply (step Skip [trim cur]); auto. intros rest. simpl.
           rewrite Eq, Es. reflexivity.
        -- apply (step (Unq (cur ++ [c])) []); auto. intros rest. simpl.
           rewrite Eq, Es, app_nil_r. reflexivity.
    + destruct (c =? q) eqn:E.
      * apply (step Skip [trim cur]); auto. intros rest. simpl.
        rewrite E. reflexivity.
      * apply (step (Quo q (cur ++ [c])) []); auto. intros rest. simpl.
        rewrite E, app_nil_r. reflexivity.
Qed.

(** After a closing quote, a word starts a token of its own. *)
Lemma tok_after_quote (q : char) (body w tail : jsstring)
    (args : list jsstring) :
  isQuoteChar q = true -> contains q body = false ->
  w <> [] -> forallb wordChar w = true -> wordEnds tail = true ->
  tok (Quo q []) args (body ++ q :: w ++ tail)
  = prepend (args ++ [trim body; w]) (parseArgs tail).
Proof.
  intros Hq Hb Hw Hword Htail.
  rewrite tok_quoted by exact Hb. simpl.
  destruct w as [|c w]; [congruence|]. simpl in Hword |- *.
  apply andb_true_iff in Hword as [Hc Hword'].
  destruct (wordChar_spec c Hc) as (_ & -> & ->).
  rewrite tok_word by exact Hword'. simpl.
  assert (Et : trim (c :: w) = c :: w).
  { apply trim_word. simpl. rewrite Hc. exact Hword'. }
  rewrite parseArgs_tok.
  destruct tail as [|d tail]; simpl.
  - rewrite Et, app_nil_r, <- app_assoc. reflexivity.
  - simpl in Htail. rewrite Et.
    destruct (isQuoteChar d) eqn:Ed.
    + destruct (isSep d) eqn:Es;
        [rewrite (sep_not_quote d Es) in Ed; discriminate|].
      rewrite <- tok_prepend, app_nil_r. cbn [nonEmpty str_eqb negb].
      rewrite <- app_assoc. reflexivity.
    + simpl in Htail. rewrite orb_false_r in Htail. rewrite Htail.
      rewrite <- tok_prepend, app_nil_r, <- app_assoc. reflexivity.
Qed.

Lemma quote_not_sep (q : char) : isQuoteChar q = true -> isSep q = false.
Proof.
  intros H. destruct (isSep q) eqn:E; auto.
  rewrite (sep_not_quote q E) in H. discriminate.
Qed.

(** An unquoted run that starts with a character that is not
    whitespace becomes a token that starts with that character. *)
Lemma tok_Unq_first (c : char) :
  isWhiteSpace c = false ->
  forall (rest cur : jsstring) (args toks : list jsstring),
    tok (Unq (c :: cur)) args rest = Return toks ->
    exists t toks', toks = args ++ (c :: t) :: toks'.
Proof.
  intros Hc.
  assert (Ht : forall cur, exists t, trim (c :: cur) = c :: t).
  { intros cur. unfold trim. cbn [trimStart]. rewrite Hc.
    apply trimEnd_cons, Hc. }
  assert (Hpush : forall m cur args rest toks,
             tok m (args ++ [trim (c :: cur)]) rest = Return toks ->
             exists t toks', toks = args ++ (c :: t) :: toks').
  { intros m cur args rest toks H. destruct (Ht cur) as (t & Et).
    rewrite Et, tok_prepend in H.
    change [c :: t] with ([c :: t] ++ []) in H. rewrite tok_prepend in H.
    match type of H with
    | context [prepend [_] ?o] => destruct o as [l| |]
    end; try discriminate.
    injection H as <-. exists t, l. reflexivity. }
  induction rest as [|x rest IH]; intros cur args toks H.
  - cbn [tok nonEmpty str_eqb negb] in H. injection H as <-.
    destruct (Ht cur) as (t & ->). exists t, []. reflexivity.
  - cbn [tok] in H. destruct (isQuoteChar x).
    + destruct (Ht cur) as (t & Et). rewrite Et in H.
      cbn [nonEmpty str_eqb negb] in H. rewrite <- Et in H.
      exact (Hpush _ _ _ _ _ H).
    + destruct (isSep x); [exact (Hpush _ _ _ _ _ H)|].
      exact (IH _ _ _ H).
Qed.

(** C3: after any prefix in which no quote is left open, a quoted
    segment is one token, its content trimmed, and what follows the
    closing quote is read as a string of its own, whatever it is: its
    tokens come after the token of the segment, nothing is appended to
    that token. So when the closing quote is directly followed by a
    character that is neither whitespace nor a quote char, that
    character starts the next token; [parseArgs] of ['hello'abc] is the
    two tokens [hello] and [abc]. *)
Theorem parseArgs_closing_quote_adjacent :
  (forall pre : jsstring,
      unclosedQuote pre = false ->
      exists before : list jsstring,
        (forallb isSep pre = true -> before = []) /\
        forall (q : char) (body rest : jsstring),
          isQuoteChar q = true -> contains q body = false ->
          parseArgs (pre ++ q :: body ++ q :: rest)
          = prepend (before ++ [trim body]) (parseArgs rest)) /\
  (forall (c : char) (rest : jsstring) (toks : list jsstring),
      isWhiteSpace c = false -> isQuoteChar c = false ->
      parseArgs (c :: rest) = Return toks ->
      exists (t : jsstring) (toks' : list jsstring),
        toks = (c :: t) :: toks') /\
  parseArgs (js "'hello'abc") = Return [js "hello"; js "abc"].
Proof.
  split; [|split; [|reflexivity]].
  - intros pre Hpre.
    assert (Hseg : forall (args : list jsstring) (q : char)
                          (body rest : jsstring),
               contains q body = false ->
               tok (Quo q []) args (body ++ q :: rest)
               = prepend (args ++ [trim body]) (parseArgs rest)).
    { intros args q body rest Hb. rewrite tok_quoted by exact Hb.
      apply tok_Skip_parseArgs. }
    destruct (forallb isSep pre) eqn:Elead.
    + exists []. split; [reflexivity|].
      intros q body rest Hq Hb.
      rewrite parseArgs_tok, tok_lead by exact Elead.
      cbn [tok]. rewrite Hq, (quote_not_sep q Hq). apply Hseg, Hb.
    + destruct (tok_prefix pre Skip []) as (m' & extra & Hm & Ht).
      unfold unclosedQuote in Hpre. cbn [modeQuote app] in Hm, Ht.
      destruct (openQuoteAfter None pre) eqn:Eo; [discriminate|].
      destruct m' as [|cur|q' cur]; [| |discriminate].
      * exists extra. split; [discriminate|].
        intros q body rest Hq Hb.
        rewrite (parseArgs_tok (pre ++ _)), Ht.
        cbn [tok]. rewrite Hq, (quote_not_sep q Hq). apply Hseg, Hb.
      * exists (if nonEmpty (trim cur) then extra ++ [trim cur] else extra).
        split; [discriminate|].
        intros q body rest Hq Hb.
        rewrite (parseArgs_tok (pre ++ _)), Ht.
        cbn [tok]. rewrite Hq. apply Hseg, Hb.
  - intros c rest toks Hc Hq H.
    assert (Hw : wordChar c = true) by (unfold wordChar; rewrite Hc, Hq; reflexivity).
    destruct (wordChar_spec c Hw) as (_ & Hs & _).
    rewrite parseArgs_tok in H. cbn [tok] in H. rewrite Hs, Hq in H.
    apply (tok_Unq_first c Hc) in H. exact H.
Qed.

Lemma parseArgs_closing_quote_adjacent_witness :
  parseArgs ([] ++ SQUOTE :: js "hello" ++ SQUOTE :: js "abc")
  = prepend ([] ++ [trim (js "hello")]) (parseArgs (js "abc")).
Proof.
  destruct (proj1 parseArgs_closing_quote_adjacent [] eq_refl)
    as (before & Hb & H).
  specialize (Hb eq_refl). subst before.
  apply (H SQUOTE (js "hello") (js "abc")); reflexivity.
Defined.

(** ** Re-quoting and re-tokenizing *)

Lemma pickQuote_spec (t : jsstring) :
  lacksQuote t ->
  isQuoteChar (pickQuote t) = true /\ contains (pickQuote t) t = false.
Proof.
  unfold lacksQuote, pickQuote. intros H.
  destruct (contains DQUOTE t) eqn:E; split; auto.
  destruct H; congruence.
Qed.

(** Tokens that are trimmed, each re-quoted with a quote char it does
    not contain and joined by separators, are read back as they are. *)
Lemma tok_requoted (pick : jsstring -> char) (sep : jsstring) :
  forallb isSep sep = true ->
  forall (toks args : list jsstring),
    Forall (fun t => trim t = t /\ isQuoteChar (pick t) = true /\
                     contains (pick t) t = false) toks ->
    tok Skip args (join sep (map (requote pick) toks)) = Return (args ++ toks).
Proof.
  intros Hsep. induction toks as [|t toks IH]; intros args H.
  - simpl. rewrite app_nil_r. reflexivity.
  - inversion H as [|? ? (Ht & Hq & Hc) H']; subst.
    assert (one : forall rest,
               tok Skip args (requote pick t ++ rest)
               = tok Skip (args ++ [t]) rest).
    { intros rest. unfold requote. cbn [app tok].
      rewrite (quote_not_sep _ Hq), Hq, <- app_assoc. cbn [app].
      rewrite tok_quoted by exact Hc. cbn [app]. rewrite Ht. reflexivity. }
    destruct toks as [|t' toks].
    + cbn [map join]. rewrite <- (app_nil_r (requote pick t)), one.
      reflexivity.
    + change (join sep (map (requote pick) (t :: t' :: toks)))
        with (requote pick t ++ sep ++ join sep (map (requote pick) (t' :: toks))).
      rewrite one, tok_lead by exact Hsep.
      rewrite IH by exact H'. rewrite <- app_assoc. reflexivity.
Qed.

Lemma parseArgs_requote_roundtrip (pick : jsstring -> char)
    (s : jsstring) (toks : list jsstring) :
  parseArgs s = Return toks ->
  (forall t, In t toks ->
             isQuoteChar (pick t) = true /\ contains (pick t) t = false) ->
  parseArgs (join [SPACE] (map (requote pick) toks)) = Return toks.
Proof.
  intros H Hpick. rewrite parseArgs_tok.
  rewrite (tok_requoted pick [SPACE] eq_refl toks []); [reflexivity|].
  apply parseArgs_tokens in H. rewrite Forall_forall in *.
  intros t Ht. destruct (H t Ht) as [[Htrim _] _].
  destruct (Hpick t Ht). auto.
Qed.

(** C9: when [parseArgs] succeeds, re-quoting each token (with a quote
    char the token does not contain, which always exists), joining the
    re-quoted tokens with spaces and tokenizing again gives as many
    tokens as the first parse (indeed the same tokens). *)
Theorem parseArgs_requote_count (s : jsstring) (toks : list jsstring) :
  parseArgs s = Return toks ->
  exists toks',
    parseArgs (join [SPACE] (map (requote pickQuote) toks)) = Return toks' /\
    List.length toks' = List.length toks /\ toks' = toks.
Proof.
  intros H. exists toks. split; [|auto].
  apply (parseArgs_requote_roundtrip pickQuote s toks H).
  intros t Ht. apply pickQuote_spec.
  apply parseArgs_tokens in H. rewrite Forall_forall in H.
  apply (H t Ht).
Qed.

Lemma parseArgs_requote_count_witness :
  exists toks',
    parseArgs (join [SPACE]
                 (map (requote pickQuote) [js "hello"; []; js "it's"]))
    = Return toks' /\
    List.length toks' = 3%nat /\ toks' = [js "hello"; []; js "it's"].
Proof.
  apply (parseArgs_requote_count
           (js "'hello'" ++ [DQUOTE; DQUOTE; SPACE; DQUOTE] ++ js "it's" ++ [DQUOTE])).
  reflexivity.
Defined.

(** Re-quoting with a quote char the token contains does not round
    trip: the token [it's] between single quotes has an unclosed quote. *)
Example requote_needs_fresh_quote :
  parseArgs (requote (fun _ => SQUOTE) (js "it's")) = Throw UnmatchedQuote.
Proof. reflexivity. Qed.

(** ** Empty tokens *)

Lemma countEmpty_snoc (args : list jsstring) (t : jsstring) :
  countEmpty (args ++ [t])
  = (countEmpty args + if str_eqb t [] then 1 else 0)%nat.
Proof.
  unfold countEmpty. rewrite filter_app, length_app. simpl.
  destruct (str_eqb t []); reflexivity.
Qed.

Lemma countEmpty_snoc_nonempty (args : list jsstring) (t : jsstring) :
  t <> [] -> countEmpty (args ++ [t]) = countEmpty args.
Proof.
  intros H. rewrite countEmpty_snoc. destruct t; [congruence|]. simpl. lia.
Qed.

Lemma countBlank_cons (seg : jsstring) (l : list jsstring) :
  countBlank (seg :: l)
  = ((if str_eqb (trim seg) [] then 1 else 0) + countBlank l)%nat.
Proof. unfold countBlank. simpl. destruct (str_eqb (trim seg) []); reflexivity. Qed.

Lemma noWhiteSpace_snoc (cur : jsstring) (c : char) :
  noWhiteSpace cur = true -> isWhiteSpace c = false ->
  noWhiteSpace (cur ++ [c]) = true.
Proof.
  unfold noWhiteSpace. intros H E. rewrite forallb_app, H. simpl.
  rewrite E. reflexivity.
Qed.

Lemma not_oddSpace (c : char) :
  negb (oddSpace c) = true -> isSep c = false -> isWhiteSpace c = false.
Proof.
  unfold oddSpace. intros H E. rewrite E in H.
  destruct (isWhiteSpace c); auto.
Qed.

(** When the unquoted characters hold no whitespace but separators,
    the empty tokens are those of the blank quoted segments. *)
Lemma tok_countEmpty :
  forall (rest : jsstring) (m : mode) (args toks : list jsstring),
    tok m args rest = Return toks ->
    modeClean m ->
    forallb (fun c => negb (oddSpace c))
            (unquotedCharsFrom (modeQuote m) rest) = true ->
    countEmpty toks
    = (countEmpty args + countBlank (quotedSegmentsFrom (modeSeg m) rest))%nat.
Proof.
  induction rest as [|c rest IH]; intros m args toks H Hm Hu.
  - destruct m as [|cur|q cur]; simpl in H.
    + injection H as <-. simpl. unfold countBlank. simpl. lia.
    + destruct Hm as [Hne Hws].
      destruct cur as [|x cur]; [congruence|]. simpl in H.
      injection H as <-. rewrite (trim_noWhiteSpace _ Hws).
      rewrite countEmpty_snoc_nonempty by discriminate.
      unfold countBlank. simpl. lia.
    + discriminate.
  - destruct m as [|cur|q cur]; cbn [tok] in H;
      cbn [modeQuote modeSeg unquotedCharsFrom quotedSegmentsFrom] in *.
    + destruct (isSep c) eqn:Es.
      * rewrite (sep_not_quote c Es) in *. simpl in Hu.
        apply andb_true_iff in Hu as [_ Hu].
        apply (IH Skip _ _ H); simpl; auto.
      * destruct (isQuoteChar c) eqn:Eq.
        -- apply (IH (Quo c []) _ _ H); simpl; auto.
        -- simpl in Hu. apply andb_true_iff in Hu as [Hc Hu].
           apply (IH (Unq [c]) _ _ H); simpl; auto.
           split; [discriminate|]. unfold noWhiteSpace. simpl.
           rewrite (not_oddSpace c Hc Es). reflexivity.
    + destruct Hm as [Hne Hws].
      pose proof (trim_noWhiteSpace _ Hws) as Et. rewrite Et in H.
      destruct (isQuoteChar c) eqn:Eq.
      * assert (En : nonEmpty cur = true) by (destruct cur; [congruence|reflexivity]).
        rewrite En in H.
        rewrite (IH (Quo c []) _ _ H); simpl; auto.
        rewrite countEmpty_snoc_nonempty by exact Hne. reflexivity.
      * simpl in Hu. apply andb_true_iff in Hu as [Hc Hu].
        destruct (isSep c) eqn:Es.
        -- rewrite (IH Skip _ _ H); simpl; auto.
           rewrite countEmpty_snoc_nonempty by exact Hne. reflexivity.
        -- apply (IH (Unq (cur ++ [c])) _ _ H); simpl; auto.
           split; [destruct cur; discriminate|].
           apply noWhiteSpace_snoc; auto. apply not_oddSpace; auto.
    + destruct (c =? q) eqn:E.
      * rewrite (IH Skip _ _ H); simpl; auto.
        rewrite countEmpty_snoc, countBlank_cons. lia.
      * apply (IH (Quo q (cur ++ [c])) _ _ H); simpl; auto.
Qed.

(** C8, as amended: when no whitespace other than space and tab
    stands outside the quotes, the empty tokens of [parseArgs] are as
    many as the quoted segments that are empty or all whitespace (a
    quoted token is trimmed too), so an input without such a segment
    yields no empty token; the empty input and the inputs of one and
    two spaces yield no token, and two double quotes yield one empty
    token. *)
Theorem parseArgs_empty_tokens :
  (forall (s : jsstring) (toks : list jsstring),
      parseArgs s = Return toks ->
      forallb (fun c => negb (oddSpace c)) (unquotedChars s) = true ->
      countEmpty toks = countBlank (quotedSegments s)) /\
  parseArgs [] = Return [] /\
  parseArgs (js " ") = Return [] /\
  parseArgs (js "  ") = Return [] /\
  parseArgs [DQUOTE; DQUOTE] = Return [[]].
Proof.
  split; [|repeat split; reflexivity].
  intros s toks H Hu. rewrite parseArgs_tok in H.
  apply (tok_countEmpty s Skip [] toks H); simpl; auto.
Qed.

Lemma parseArgs_empty_tokens_witness :
  countEmpty [js "a"; []; []; js "b"]
  = countBlank (quotedSegments (js "a '' ' ' b")).
Proof.
  apply (proj1 parseArgs_empty_tokens (js "a '' ' ' b")); reflexivity.
Defined.

(** C8, as stated, fails: a quoted segment holding one space is not
    empty, and its token is. *)
Lemma parseArgs_blank_segment_empty_token :
  parseArgs (js "' '") = Return [[]] /\
  In [] [@nil char] /\
  ~ In [] (quotedSegments (js "' '")).
Proof.
  split; [reflexivity|]. split; [left; reflexivity|].
  intros [H|[]]. discriminate H.
Qed.

(** An unquoted line feed followed by a space is pushed as an empty
    token, while the same line feed followed by a quote is dropped. *)
Example parseArgs_line_feed_token :
  parseArgs [LF; SPACE] = Return [[]] /\
  parseArgs [LF] = Return [[]] /\
  parseArgs ([LF] ++ js "'a'") = Return [js "a"].
Proof. repeat split; reflexivity. Qed.

(** ** [unquote] *)

Lemma charAt_last (t : jsstring) (d : char) :
  charAt (t ++ [d]) (JS.length (t ++ [d]) - 1) = [d].
Proof.
  unfold charAt, JS.length. rewrite length_app. simpl.
  destruct (Z.ltb_spec (Z.of_nat (List.length t + 1) - 1) 0); [lia|].
  replace (Z.to_nat (Z.of_nat (List.length t + 1) - 1)) with (List.length t) by lia.
  rewrite nth_error_app2 by lia. rewrite Nat.sub_diag. reflexivity.
Qed.

Lemma substring_middle (c d : char) (mid : jsstring) :
  substring (c :: mid ++ [d]) 1 (JS.length (c :: mid ++ [d]) - 1) = mid.
Proof.
  unfold substring, JS.length. cbn [List.length]. rewrite length_app. simpl List.length.
  set (n := List.length mid).
  replace (Z.max 0 (Z.min 1 (Z.of_nat (S (n + 1))))) with 1 by lia.
  replace (Z.max 0 (Z.min (Z.of_nat (S (n + 1)) - 1) (Z.of_nat (S (n + 1)))))
    with (Z.of_nat n + 1) by lia.
  replace (Z.min 1 (Z.of_nat n + 1)) with 1 by lia.
  replace (Z.max 1 (Z.of_nat n + 1)) with (Z.of_nat n + 1) by lia.
  replace (Z.to_nat (Z.of_nat n + 1 - 1)) with n by lia.
  change (Z.to_nat 1) with 1%nat. cbn [skipn].
  subst n. rewrite firstn_app, Nat.sub_diag, firstn_all. simpl.
  apply app_nil_r.
Qed.

Lemma strict_eq_quote (c : char) :
  strict_eq (VStr [c]) (VStr [DQUOTE]) || strict_eq (VStr [c]) (VStr (js "'"))
  = isQuoteChar c.
Proof. apply isQuote_char. Qed.

Lemma unquote_nil (s : jsstring) : trim s = [] -> unquote s = Return [].
Proof. unfold unquote. intros ->. reflexivity. Qed.

Lemma unquote_one (s : jsstring) (c : char) :
  trim s = [c] ->
  unquote s = if isQuoteChar c then Throw MismatchedQuote else Return [c].
Proof.
  unfold unquote. intros ->.
  change (charAt [c] 0) with [c]. change (1 <=? JS.length [c]) with true.
  change (2 <=? JS.length [c]) with false. cbv iota.
  rewrite strict_eq_quote. simpl. rewrite orb_false_r.
  destruct (isQuoteChar c); reflexivity.
Qed.

Lemma unquote_ends (s : jsstring) (c d : char) (mid : jsstring) :
  trim s = c :: mid ++ [d] ->
  unquote s =
  if isQuoteChar c || isQuoteChar d then
    if c =? d then Return mid else Throw MismatchedQuote
  else Return (c :: mid ++ [d]).
Proof.
  unfold unquote. intros ->.
  change (c :: mid ++ [d]) with ((c :: mid) ++ [d]).
  rewrite charAt_last.
  change ((c :: mid) ++ [d]) with (c :: mid ++ [d]).
  rewrite substring_middle.
  assert (H1 : (1 <=? JS.length (c :: mid ++ [d])) = true).
  { apply Z.leb_le. unfold JS.length. simpl. lia. }
  assert (H2 : (2 <=? JS.length (c :: mid ++ [d])) = true).
  { apply Z.leb_le. unfold JS.length. simpl. rewrite length_app. simpl. lia. }
  rewrite H1, H2.
  change (charAt (c :: mid ++ [d]) 0) with [c].
  rewrite <- orb_assoc, strict_eq_quote, strict_eq_quote.
  cbn [strict_eq str_eqb]. rewrite andb_true_r.
  destruct (isQuoteChar c), (isQuoteChar d); reflexivity.
Qed.

Lemma endQuoted_ends (c d : char) (mid : jsstring) :
  endQuoted (c :: mid ++ [d]) = isQuoteChar d.
Proof.
  unfold endQuoted.
  assert (H2 : (2 <=? JS.length (c :: mid ++ [d])) = true).
  { apply Z.leb_le. unfold JS.length. simpl. rewrite length_app. simpl. lia. }
  rewrite H2. change (c :: mid ++ [d]) with ((c :: mid) ++ [d]).
  rewrite rev_app_distr. reflexivity.
Qed.

(** A string is empty, one character, or a first character, a middle
    and a last character. *)
Lemma string_shape (t : jsstring) :
  t = [] \/ (exists c, t = [c]) \/ (exists c mid d, t = c :: mid ++ [d]).
Proof.
  destruct t as [|c [|x rest]]; auto.
  - right; left; eauto.
  - right; right.
    destruct (exists_last (l := x :: rest)) as (mid & d & E); [discriminate|].
    rewrite E. eauto.
Qed.

(** C6: [unquote] trims its argument; when the trimmed string has two
    characters or more and starts and ends with the same quote char,
    the result is what stands between them, untouched; when one side
    only is quoted, [MismatchedQuote] is thrown; when neither side is,
    the result is the trimmed string. *)
Theorem unquote_cases (s : jsstring) :
  (forall (q : char) (mid : jsstring),
      isQuoteChar q = true -> trim s = q :: mid ++ [q] ->
      unquote s = Return mid) /\
  (startQuoted (trim s) <> endQuoted (trim s) ->
   unquote s = Throw MismatchedQuote) /\
  (startQuoted (trim s) = false -> endQuoted (trim s) = false ->
   unquote s = Return (trim s)) /\
  unquote (js "  'hello'  ") = Return (js "hello") /\
  unquote (js "hello") = Return (js "hello").
Proof.
  split; [|split; [|split; [|split; reflexivity]]].
  - intros q mid Hq E. rewrite (unquote_ends s q q mid E), Hq, Z.eqb_refl.
    reflexivity.
  - intros H.
    destruct (string_shape (trim s)) as [E|[(c & E)|(c & mid & d & E)]];
      rewrite E in H.
    + exfalso. apply H. reflexivity.
    + rewrite (unquote_one s c E).
      change (startQuoted [c]) with (isQuoteChar c) in H.
      change (endQuoted [c]) with false in H.
      destruct (isQuoteChar c); congruence.
    + rewrite (unquote_ends s c d mid E).
      rewrite endQuoted_ends in H.
      change (startQuoted (c :: mid ++ [d])) with (isQuoteChar c) in H.
      destruct (Z.eqb_spec c d) as [->|_]; [congruence|].
      destruct (isQuoteChar c), (isQuoteChar d); simpl; congruence.
  - intros H1 H2.
    destruct (string_shape (trim s)) as [E|[(c & E)|(c & mid & d & E)]];
      rewrite E in *.
    + apply unquote_nil, E.
    + rewrite (unquote_one s c E).
      change (startQuoted [c]) with (isQuoteChar c) in H1. rewrite H1.
      reflexivity.
    + rewrite (unquote_ends s c d mid E).
      rewrite endQuoted_ends in H2.
      change (startQuoted (c :: mid ++ [d])) with (isQuoteChar c) in H1.
      rewrite H1, H2. reflexivity.
Qed.

Lemma unquote_cases_witness :
  unquote (js " ' a b ' ") = Return (js " a b ") /\
  unquote (js " 'a ") = Throw MismatchedQuote /\
  unquote (js " a b ") = Return (js "a b").
Proof.
  split; [|split].
  - apply (proj1 (unquote_cases (js " ' a b ' ")) SQUOTE (js " a b "));
      reflexivity.
  - apply (proj1 (proj2 (unquote_cases (js " 'a ")))). discriminate.
  - apply (proj1 (proj2 (proj2 (unquote_cases (js " a b "))))); reflexivity.
Defined.

Example unquote_unterminated :
  unquote (js "'unterminated") = Throw MismatchedQuote.
Proof. reflexivity. Qed.

(** Both sides quoted, with different quote chars, is an error too. *)
Lemma unquote_different_quotes (s : jsstring) (c d : char) (mid : jsstring) :
  trim s = c :: mid ++ [d] ->
  isQuoteChar c = true -> isQuoteChar d = true -> c <> d ->
  unquote s = Throw MismatchedQuote.
Proof.
  intros E Hc Hd Hne. rewrite (unquote_ends s c d mid E), Hc.
  destruct (Z.eqb_spec c d); [contradiction|reflexivity].
Qed.

(** C5, as amended: a single quote char is an unmatched quote:
    [unquote] throws [MismatchedQuote] for it. *)
Theorem unquote_single_quote_char (c : char) :
  isQuoteChar c = true -> unquote [c] = Throw MismatchedQuote.
Proof.
  intros H. rewrite (unquote_one [c] c), H; [reflexivity|].
  unfold isQuoteChar, DQUOTE, SQUOTE in H.
  apply orb_true_iff in H as [H|H]; apply Z.eqb_eq in H; subst c; reflexivity.
Qed.

Lemma unquote_single_quote_char_witness :
  unquote [DQUOTE] = Throw MismatchedQuote.
Proof. apply unquote_single_quote_char. reflexivity. Defined.

(** C5, as stated, fails: the one-character string holding a single
    quote is not returned unchanged, [unquote] throws. *)
Lemma unquote_single_quote_throws :
  unquote (js "'") = Throw MismatchedQuote /\
  unquote (js "'") <> Return (js "'").
Proof. split; [reflexivity|discriminate]. Qed.

(* ================================================================= *)
(** ** [writeFormData] *)

Module FormDataFacts.
Import FormData.
Local Open Scope nat_scope.

(** *** Descriptors *)

Lemma freshFd_above (t : list (nat * openFile)) (fd : nat) (f : openFile) :
  In (fd, f) t -> fd < freshFd t.
Proof.
  induction t as [|[fd' f'] t IH]; cbn [freshFd In]; [tauto|].
  intros [[= -> ->]|H]; [lia|]. specialize (IH H). lia.
Qed.

Lemma lookupFd_absent (t : list (nat * openFile)) (fd : nat) :
  (forall fd' f, In (fd', f) t -> fd' <> fd) -> lookupFd fd t = None.
Proof.
  induction t as [|[fd' f'] t IH]; simpl; auto. intros H.
  destruct (Nat.eqb_spec fd fd') as [->|_].
  - exfalso. apply (H fd' f'); auto.
  - apply IH. intros x f Hin. apply (H x f). auto.
Qed.

Lemma lookupFd_fresh (t : list (nat * openFile)) :
  lookupFd (freshFd t) t = None.
Proof.
  apply lookupFd_absent. intros fd f H. apply freshFd_above in H. lia.
Qed.

Lemma removeFd_absent (t : list (nat * openFile)) (fd : nat) :
  lookupFd fd t = None -> removeFd fd t = t.
Proof.
  induction t as [|[fd' f'] t IH]; simpl; auto.
  destruct (Nat.eqb fd fd'); [discriminate|]. intros H. rewrite IH; auto.
Qed.

Lemma removeFd_fresh (t : list (nat * openFile)) :
  removeFd (freshFd t) t = t.
Proof. apply removeFd_absent, lookupFd_fresh. Qed.

(** *** What every run preserves *)

Lemma fileTest_cases (val : value) (w : world) :
  (val = VNull /\ fileTest val w = (Exn TypeError, w)) \/
  (val <> VNull /\ fileTest val w = (Ok (fileOf val), w)).
Proof.
  destruct val; [left|right|right]; split;
    solve [reflexivity | discriminate].
Qed.

Lemma evolves_refl (fd : nat) (T : list (nat * openFile)) (w : world)
    (f : openFile) :
  fdTable w = (fd, f) :: T -> evolves fd T w w.
Proof.
  intros H. split; [eauto|]. split; auto. exists []. simpl.
  rewrite app_nil_r. reflexivity.
Qed.

Lemma evolves_trans (fd : nat) (T : list (nat * openFile))
    (w1 w2 w3 : world) :
  evolves fd T w1 w2 -> evolves fd T w2 w3 -> evolves fd T w1 w3.
Proof.
  intros (_ & F1 & cs1 & T1) (H & F2 & cs2 & T2).
  split; auto. split; [congruence|].
  exists (cs1 ++ cs2). rewrite T2, T1, map_app, app_assoc. reflexivity.
Qed.

Lemma readSync_evolves (fd offset length : nat) (w w' : world)
    (r : result nat) (f : openFile) (T : list (nat * openFile)) :
  fdTable w = (fd, f) :: T -> removeFd fd T = T ->
  readSync fd offset length w = (r, w') ->
  evolves fd T w w' /\ (forall e, r = Exn e -> e = EIO) /\ r <> Fuel.
Proof.
  intros Ht Hr. unfold readSync. rewrite Ht. simpl. rewrite Nat.eqb_refl.
  assert (E0 : evolves fd T w w) by (eapply evolves_refl; eauto).
  destruct E0 as (_ & _ & cs0 & Hcs0).
  destruct (reads w) as [|[k|] rs]; intros [= <- <-]; simpl;
    (split; [|split; [intros e; congruence|congruence]]);
    (split; [simpl; rewrite ?Ht; simpl; rewrite ?Nat.eqb_refl, ?Hr; eauto|]);
    (split; [reflexivity|exists []; simpl; rewrite app_nil_r; reflexivity]).
Qed.

Lemma fillBuffer_evolves (C fd : nat) (T : list (nat * openFile)) :
  removeFd fd T = T ->
  forall (fuel bufSize : nat) (w w' : world) (r : result nat) (f : openFile),
    fdTable w = (fd, f) :: T ->
    fillBuffer fuel C fd bufSize w = (r, w') ->
    evolves fd T w w' /\ (forall e, r = Exn e -> e = EIO).
Proof.
  intros Hr. induction fuel as [|fuel IH]; intros bs w w' r f Ht H.
  - injection H as <- <-. split; [eapply evolves_refl; eauto|congruence].
  - simpl in H. destruct (Nat.ltb bs C).
    + unfold bind in H.
      destruct (readSync fd bs (C - bs) w) as [r1 w1] eqn:E1.
      destruct (readSync_evolves _ _ _ _ _ _ _ _ Ht Hr E1) as (Ev & He & _).
      destruct r1 as [n|e|].
      * destruct (Nat.eqb n 0).
        -- injection H as <- <-. split; [exact Ev|congruence].
        -- destruct Ev as ((f1 & Ht1) & Ev').
           destruct (IH _ _ _ _ _ Ht1 H) as (Ev2 & He2).
           split; [|exact He2].
           eapply evolves_trans; [|exact Ev2]. split; eauto.
      * injection H as <- <-. split; [exact Ev|].
        intros e' [= <-]. apply He. reflexivity.
      * injection H as <- <-. split; [exact Ev|congruence].
    + injection H as <- <-. split; [eapply evolves_refl; eauto|congruence].
Qed.

Lemma emit_write_evolves (fd : nat) (T : list (nat * openFile)) (w : world)
    (f : openFile) (c : chunk) :
  fdTable w = (fd, f) :: T ->
  evolves fd T w (set_trace (trace w ++ [Write c]) w).
Proof.
  intros Ht. split; [simpl; eauto|]. split; [reflexivity|].
  exists [c]. reflexivity.
Qed.

Lemma streamFile_evolves (C fd : nat) (T : list (nat * openFile)) :
  removeFd fd T = T ->
  forall (fuel bufSize : nat) (w w' : world) (r : result unit) (f : openFile),
    fdTable w = (fd, f) :: T ->
    streamFile fuel C fd bufSize w = (r, w') ->
    evolves fd T w w' /\ (forall e, r = Exn e -> e = EIO).
Proof.
  intros Hr. induction fuel as [|fuel IH]; intros bs w w' r f Ht H.
  - injection H as <- <-. split; [eapply evolves_refl; eauto|congruence].
  - cbn [streamFile] in H. unfold bind at 1 in H.
    destruct (fillBuffer (S fuel) C fd bs w) as [r1 w1] eqn:E1.
    destruct (fillBuffer_evolves C fd T Hr _ _ _ _ _ _ Ht E1) as (Ev & He).
    destruct r1 as [n|e|].
    + unfold bind in H. destruct Ev as ((f1 & Ht1) & Ev').
      assert (Ev1 : evolves fd T w w1) by (split; eauto).
      destruct (Nat.eqb n C).
      * unfold emit in H.
        pose proof (emit_write_evolves fd T w1 f1 (Buf 0 C) Ht1) as Ev2.
        destruct (IH 0 _ w' r f1 (Ht1 : fdTable (set_trace _ w1) = _) H)
          as (Ev3 & He3).
        split; [|exact He3].
        eapply evolves_trans; [exact Ev1|].
        eapply evolves_trans; [exact Ev2|exact Ev3].
      * unfold emit in H. injection H as <- <-. split; [|congruence].
        eapply evolves_trans; [exact Ev1|].
        eapply emit_write_evolves; eauto.
    + injection H as <- <-. split; [exact Ev|].
      intros e' [= <-]. apply He. reflexivity.
    + injection H as <- <-. split; [exact Ev|congruence].
Qed.

Lemma writeField_frame (fuel C : nat) (b key : jsstring) (val : value)
    (w w' : world) (r : result unit) :
  writeField fuel C b key val w = (r, w') -> fieldFrame w w' r.
Proof.
  unfold writeField. unfold bind at 1. unfold emit at 1.
  unfold bind at 1.
  destruct (fileTest_cases val (set_trace (trace w ++
                                  [Write (Str (js "--" ++ b) Ascii)]) w))
    as [[-> E]|[_ E]]; rewrite E; clear E.
  { intros [= <- <-]. split; [reflexivity|]. split; [|reflexivity].
    exists [Str (js "--" ++ b) Ascii]. reflexivity. }
  destruct (fileOf val) as [path|].
  - unfold bind at 1. unfold emit at 1. unfold bind at 1.
    unfold openSync. cbn [files set_trace fdTable].
    destruct (files w path) as [d|] eqn:Ef.
    + set (fd := freshFd (fdTable w)).
      set (w0 := set_fdTable _ _).
      unfold bind at 1.
      destruct (streamFile fuel C fd 0 w0) as [r1 w1] eqn:E1.
      assert (Ht0 : fdTable w0 = (fd, {| of_data := d; of_pos := 0 |}) :: fdTable w)
        by reflexivity.
      destruct (streamFile_evolves C fd (fdTable w) (removeFd_fresh _)
                  _ _ _ _ _ _ Ht0 E1) as (((f1 & Ht1) & Hf & cs & Hc) & He).
      assert (Hcs : exists cs', trace w1 = trace w ++ map Write cs').
      { exists (Str (js "--" ++ b) Ascii :: Str (fileHeader key path) Utf8 :: cs).
        rewrite Hc. subst w0. simpl. rewrite <- !app_assoc. reflexivity. }
      destruct r1 as [[]|e|]; intros H.
      * unfold bind, closeSync, emit in H. rewrite Ht1 in H. simpl in H.
        rewrite Nat.eqb_refl in H. injection H as <- <-.
        unfold fd. rewrite removeFd_fresh.
        split; [exact Hf|]. split; [|reflexivity]. cbn [trace set_trace set_fdTable].
        destruct Hcs as (cs' & ->). exists (cs' ++ [Str CRLF Ascii]).
        rewrite map_app, app_assoc. reflexivity.
      * injection H as <- <-. rewrite (He e eq_refl).
        split; [exact Hf|]. split; [exact Hcs|]. eauto.
      * injection H as <- <-. split; [exact Hf|]. split; [exact Hcs|exact I].
    + intros [= <- <-]. split; [reflexivity|]. split; [|reflexivity].
      exists [Str (js "--" ++ b) Ascii; Str (fileHeader key path) Utf8].
      simpl. rewrite <- app_assoc. reflexivity.
  - unfold bind, emit. intros [= <- <-].
    split; [reflexivity|]. split; [|reflexivity].
    exists [Str (js "--" ++ b) Ascii; Str (scalarHeader key) Utf8;
            Str (toString val ++ CRLF) Utf8].
    simpl. rewrite <- !app_assoc. reflexivity.
Qed.

Lemma writeFields_frame (fuel C : nat) (b : jsstring) :
  forall (data : list (jsstring * value)) (w w' : world) (r : result unit),
    writeFields fuel C b data w = (r, w') -> fieldFrame w w' r.
Proof.
  induction data as [|[key val] data IH]; intros w w' r H.
  - injection H as <- <-. split; [reflexivity|]. split; [|reflexivity].
    exists []. simpl. rewrite app_nil_r. reflexivity.
  - cbn [writeFields] in H. unfold bind in H.
    destruct (writeField fuel C b key val w) as [r1 w1] eqn:E1.
    apply writeField_frame in E1. destruct E1 as (Hf1 & (cs1 & Hc1) & Ht1).
    destruct r1 as [[]|e|].
    + apply IH in H. destruct H as (Hf2 & (cs2 & Hc2) & Ht2).
      split; [congruence|]. split.
      * exists (cs1 ++ cs2). rewrite Hc2, Hc1, map_app, app_assoc. reflexivity.
      * rewrite <- Ht1. exact Ht2.
    + injection H as <- <-. split; [exact Hf1|]. split; [eauto|exact Ht1].
    + injection H as <- <-. split; [exact Hf1|]. split; [eauto|exact I].
Qed.

(** The run of [writeFormData], step by step. *)
Lemma writeFormData_unfold (fuel : nat) (data : list (jsstring * value))
    (w : world) :
  let b := boundaryOf w in
  let w0 :=
    set_buffer (take bufCap (garbage w))
      (set_trace (trace w ++ [SetHeader (js "Content-Type")
                                (js "multipart/form-data; boundary=" ++ b)])
         (set_entropy (skipn 16 (entropy w)) w)) in
  writeFormData fuel data w =
  match writeFields fuel bufCap b data w0 with
  | (Ok _, w1) =>
      (Ok tt, set_trace (trace w1 ++ [End (Str (terminator b) Ascii)]) w1)
  | (Exn e, w1) => (Exn e, w1)
  | (Fuel, w1) => (Fuel, w1)
  end.
Proof. reflexivity. Qed.

Lemma writeFormData_frame (fuel : nat) (data : list (jsstring * value))
    (w w' : world) (r : result unit) :
  writeFormData fuel data w = (r, w') ->
  files w' = files w /\
  match r with
  | Ok _ =>
      fdTable w' = fdTable w /\
      exists cs, trace w'
                 = trace w ++
                   SetHeader (js "Content-Type")
                     (js "multipart/form-data; boundary=" ++ boundaryOf w) ::
                   map Write cs ++
                   [End (Str (terminator (boundaryOf w)) Ascii)]
  | Exn EIO => exists f, fdTable w' = (freshFd (fdTable w), f) :: fdTable w
  | Exn ENOENT => fdTable w' = fdTable w
  | Exn TypeError => fdTable w' = fdTable w
  | Exn EBADF => False
  | Fuel => True
  end.
Proof.
  rewrite writeFormData_unfold. cbv zeta.
  set (w0 := set_buffer _ _).
  destruct (writeFields fuel bufCap (boundaryOf w) data w0) as [r1 w1] eqn:E.
  apply writeFields_frame in E. destruct E as (Hf & (cs & Hc) & Ht).
  destruct r1 as [[]|e|]; intros [= <- <-].
  - split; [exact Hf|]. split; [exact Ht|]. exists cs.
    cbn [trace set_trace]. rewrite Hc. subst w0. cbn [trace set_buffer set_trace].
    rewrite <- !app_assoc. reflexivity.
  - split; [exact Hf|]. exact Ht.
  - split; [exact Hf|exact I].
Qed.

(** *** Descriptors are closed on success only *)

(** C4, as amended: when [writeFormData] returns, every descriptor it
    opened has been closed (the table of open descriptors is as it was
    before the call); when a read of the streaming loop fails, the
    error propagates with the descriptor of that file still open. *)
Theorem writeFormData_descriptors :
  (forall (fuel : nat) (data : list (jsstring * value)) (w w' : world),
      writeFormData fuel data w = (Ok tt, w') -> fdTable w' = fdTable w) /\
  (forall (fuel : nat) (data : list (jsstring * value)) (w w' : world),
      writeFormData fuel data w = (Exn EIO, w') ->
      exists fd, isOpen fd w = false /\ isOpen fd w' = true).
Proof.
  split; intros fuel data w w' H; apply writeFormData_frame in H;
    destruct H as (_ & H).
  - apply H.
  - destruct H as (f & Ht). exists (freshFd (fdTable w)).
    unfold isOpen. rewrite lookupFd_fresh, Ht. simpl.
    rewrite Nat.eqb_refl. auto.
Qed.

Lemma writeFormData_descriptors_witness :
  fdTable (snd (writeFormData 10 exampleData (exampleWorld []))) = [] /\
  exists fd,
    isOpen fd (exampleWorld [ReadAtMost 2; ReadFails]) = false /\
    isOpen fd (snd (writeFormData 10 exampleData
                      (exampleWorld [ReadAtMost 2; ReadFails]))) = true.
Proof.
  split.
  - apply (proj1 writeFormData_descriptors 10 exampleData (exampleWorld [])).
    rewrite (surjective_pairing (writeFormData _ _ _)) at 1.
    f_equal.
  - apply (proj2 writeFormData_descriptors 10 exampleData).
    rewrite (surjective_pairing (writeFormData _ _ _)) at 1.
    f_equal.
Defined.

(** C4, as stated, fails: the second read of the file fails, the error
    propagates, and descriptor 3, opened for the file, is still open. *)
Lemma writeFormData_read_failure_leaks :
  fst (writeFormData 10 exampleData (exampleWorld [ReadAtMost 2; ReadFails]))
  = Exn EIO /\
  isOpen 3 (exampleWorld [ReadAtMost 2; ReadFails]) = false /\
  isOpen 3 (snd (writeFormData 10 exampleData
                   (exampleWorld [ReadAtMost 2; ReadFails]))) = true.
Proof. vm_compute. auto. Qed.

(** *** The terminator *)

Lemma existsb_isEnd_writes (cs : list chunk) :
  existsb isEnd (map Write cs) = false.
Proof. induction cs; simpl; auto. Qed.

Lemma streamBytes_app (encode : encoding -> jsstring -> list byte)
    (mem : list byte) (a b : list event) :
  streamBytes encode mem (a ++ b)
  = streamBytes encode mem a ++ streamBytes encode mem b.
Proof. unfold streamBytes. apply flat_map_app. Qed.

(** C7: the calls of a run that returns are the header, then [write]
    calls, then the one and only [end] call, and that call carries two
    hyphens, the boundary announced in the header, two hyphens, a
    carriage return and a line feed; so the bytes sent end with this
    terminator, whenever the request object reads the chunks it was
    handed. For the empty mapping the call always returns, and the
    bytes sent are the terminator alone. *)
Theorem writeFormData_terminator
    (encode : encoding -> jsstring -> list byte) :
  (forall (fuel : nat) (data : list (jsstring * value)) (w w' : world),
      writeFormData fuel data w = (Ok tt, w') ->
      exists cs : list chunk,
        let header := SetHeader (js "Content-Type")
                        (js "multipart/form-data; boundary=" ++ boundaryOf w) in
        let last := js "--" ++ boundaryOf w ++ js "--" ++ [13%Z; 10%Z] in
        trace w' = trace w ++ header :: map Write cs ++ [End (Str last Ascii)] /\
        existsb isEnd (header :: map Write cs) = false /\
        forall mem : list byte,
          streamBytes encode mem (header :: map Write cs ++ [End (Str last Ascii)])
          = streamBytes encode mem (map Write cs) ++ encode Ascii last) /\
  (forall (fuel : nat) (w : world),
      exists w' : world,
        let header := SetHeader (js "Content-Type")
                        (js "multipart/form-data; boundary=" ++ boundaryOf w) in
        let last := js "--" ++ boundaryOf w ++ js "--" ++ [13%Z; 10%Z] in
        writeFormData fuel [] w = (Ok tt, w') /\
        trace w' = trace w ++ [header; End (Str last Ascii)] /\
        forall mem : list byte,
          streamBytes encode mem [header; End (Str last Ascii)]
          = encode Ascii last).
Proof.
  split.
  - intros fuel data w w' H. apply writeFormData_frame in H.
    destruct H as (_ & _ & cs & Hc).
    exists cs. cbv zeta. split; [exact Hc|]. split.
    + cbn [existsb isEnd orb]. apply existsb_isEnd_writes.
    + intros mem.
      change (?h :: map Write cs ++ ?e) with ([h] ++ map Write cs ++ e).
      rewrite !streamBytes_app. cbn [streamBytes flat_map chunkBytes app].
      rewrite app_nil_r. reflexivity.
  - intros fuel w. rewrite writeFormData_unfold. cbn [writeFields ret].
    eexists. cbv zeta. split; [reflexivity|]. split.
    + cbn [trace set_trace set_buffer]. rewrite <- app_assoc. reflexivity.
    + intros mem. cbn [streamBytes flat_map chunkBytes app].
      apply app_nil_r.
Qed.

Lemma writeFormData_terminator_witness :
  exists cs : list chunk,
    let header := SetHeader (js "Content-Type")
                    (js "multipart/form-data; boundary=" ++
                     boundaryOf (exampleWorld [])) in
    let last := js "--" ++ boundaryOf (exampleWorld []) ++ js "--" ++
                [13%Z; 10%Z] in
    trace (snd (writeFormData 10 exampleData (exampleWorld [])))
    = trace (exampleWorld []) ++ header :: map Write cs ++
      [End (Str last Ascii)] /\
    existsb isEnd (header :: map Write cs) = false /\
    forall mem : list byte,
      streamBytes (fun _ _ => []) mem
        (header :: map Write cs ++ [End (Str last Ascii)])
      = streamBytes (fun _ _ => []) mem (map Write cs) ++ [].
Proof.
  apply (proj1 (writeFormData_terminator (fun _ _ => []))
           10 exampleData (exampleWorld [])).
  rewrite (surjective_pairing (writeFormData _ _ _)) at 1.
  f_equal.
Defined.

(** *** Blocks of the buffer capacity *)

Lemma firstn_firstn_skipn (A : Type) (a b : nat) (l : list A) :
  firstn a l ++ firstn b (skipn a l) = firstn (a + b) l.
Proof.
  revert l; induction a as [|a IH]; intros [|x l]; simpl;
    rewrite ?firstn_nil; auto.
  rewrite IH. reflexivity.
Qed.

Lemma chunksFrom_fuel (C : nat) :
  0 < C ->
  forall (f1 f2 : nat) (l : list byte),
    List.length l <= f1 -> List.length l <= f2 ->
    chunksFrom f1 C l = chunksFrom f2 C l.
Proof.
  intros HC. induction f1 as [|f1 IH]; intros f2 l H1 H2.
  - destruct l; [|simpl in H1; lia].
    destruct f2; simpl; auto.
    destruct (Nat.ltb_spec 0 C); [reflexivity|lia].
  - destruct f2 as [|f2].
    + destruct l; [|simpl in H2; lia]. simpl.
      destruct (Nat.ltb_spec 0 C); [reflexivity|lia].
    + simpl. destruct (Nat.ltb_spec (List.length l) C); auto.
      f_equal. apply IH; rewrite length_skipn; lia.
Qed.

Lemma chunks_short (C : nat) (l : list byte) :
  List.length l < C -> chunks C l = [l].
Proof.
  intros H. unfold chunks. destruct (List.length l) eqn:E; simpl; auto.
  rewrite E. destruct (Nat.ltb_spec (S n) C); [reflexivity|lia].
Qed.

Lemma chunks_long (C : nat) (l : list byte) :
  0 < C -> C <= List.length l ->
  chunks C l = firstn C l :: chunks C (skipn C l).
Proof.
  intros HC H. unfold chunks. destruct (List.length l) as [|m] eqn:E; [lia|].
  cbn [chunksFrom]. rewrite E.
  destruct (Nat.ltb_spec (S m) C); [lia|]. f_equal.
  apply chunksFrom_fuel; auto; rewrite length_skipn; lia.
Qed.

(** The blocks put together are the bytes, block after block; all
    blocks but the last are full, and the last is not. *)
Lemma chunks_spec (C : nat) :
  0 < C ->
  forall (n : nat) (l : list byte),
    List.length l <= n ->
    List.concat (chunks C l) = l /\
    Forall (fun c => List.length c = C) (removelast (chunks C l)) /\
    List.length (last (chunks C l) []) < C.
Proof.
  intros HC. induction n as [|n IH]; intros l Hn.
  - destruct l; [|simpl in Hn; lia]. rewrite chunks_short by (simpl; lia).
    simpl. auto.
  - destruct (Nat.lt_ge_cases (List.length l) C) as [Hlt|Hge].
    + rewrite chunks_short by exact Hlt. simpl. rewrite app_nil_r. auto.
    + rewrite chunks_long by assumption.
      destruct (IH (skipn C l)) as (Hc & Hf & Hl);
        [rewrite length_skipn; lia|].
      assert (Hne : chunks C (skipn C l) <> []).
      { unfold chunks. destruct (List.length (skipn C l)); simpl;
          [discriminate|].
        destruct (Nat.ltb _ C); discriminate. }
      split; [|split].
      * cbn [List.concat]. rewrite Hc. apply firstn_skipn.
      * destruct (chunks C (skipn C l)) as [|c cs] eqn:E; [congruence|].
        cbn [removelast]. constructor; [|exact Hf].
        rewrite length_firstn. lia.
      * destruct (chunks C (skipn C l)) as [|c cs] eqn:E; [congruence|].
        exact Hl.
Qed.

(** The blocks at the edges of the capacity. *)
Lemma chunks_at_capacity (C : nat) (l : list byte) :
  0 < C ->
  (List.length l = 0 -> chunks C l = [[]]) /\
  (List.length l = C - 1 -> chunks C l = [l]) /\
  (List.length l = C -> chunks C l = [l; []]) /\
  (1 < C -> List.length l = C + 1 -> chunks C l = [firstn C l; skipn C l]).
Proof.
  intros HC. repeat split; [intros H|intros H|intros H|intros H1 H].
  - destruct l; [|discriminate]. apply chunks_short. simpl. lia.
  - apply chunks_short. lia.
  - rewrite chunks_long by lia. rewrite firstn_all2, skipn_all2 by lia.
    rewrite chunks_short by (simpl; lia). reflexivity.
  - rewrite chunks_long by lia. f_equal. apply chunks_short.
    rewrite length_skipn. lia.
Qed.

(** *** Streaming a file *)

Lemma readSync_ok (fd offset len : nat) (T : list (nat * openFile))
    (d : list byte) (C p : nat) (w : world) :
  removeFd fd T = T -> reading fd T d C p w ->
  0 < len -> offset + len <= C ->
  exists n w',
    readSync fd offset len w = (Ok n, w') /\
    n <= len /\ n <= List.length d - p /\ (n = 0 -> p = List.length d) /\
    reading fd T d C (p + n) w' /\
    buffer w' = firstn offset (buffer w) ++ firstn n (skipn p d) ++
                skipn (offset + n) (buffer w) /\
    trace w' = trace w /\ files w' = files w.
Proof.
  intros Hr (Ht & Hnf & Hb & Hp) Hlen Hoff.
  unfold readSync. rewrite Ht. cbn [lookupFd]. rewrite Nat.eqb_refl.
  unfold noFail in Hnf.
  destruct (reads w) as [|[k|] rs] eqn:Er; [| |inversion Hnf; congruence];
    cbv zeta; cbn [of_data of_pos tl removeFd]; rewrite Nat.eqb_refl, Hr;
    (eexists; eexists; split; [reflexivity|]);
    pose proof (Pos2Nat.is_pos 1) as Hpos;
    try pose proof (Pos2Nat.is_pos k) as Hk;
    (split; [lia|]); (split; [lia|]); (split; [lia|]);
    (split; [|auto]);
    (split; [reflexivity|]);
    (split; [cbn [reads set_buffer set_reads];
             first [constructor | inversion Hnf; assumption]|]);
    (split; [|lia]);
    cbn [buffer set_buffer];
    rewrite !length_app, !length_firstn, !length_skipn; lia.
Qed.

Lemma fillBuffer_ok (fd C : nat) (T : list (nat * openFile)) (d : list byte) :
  removeFd fd T = T ->
  forall (fuel bufSize p : nat) (w : world),
    reading fd T d C p w -> bufSize <= C ->
    List.length d - p < fuel ->
    exists n w' p',
      fillBuffer fuel C fd bufSize w = (Ok n, w') /\
      n = Nat.min C (bufSize + (List.length d - p)) /\
      p' = p + (n - bufSize) /\
      reading fd T d C p' w' /\
      firstn n (buffer w')
      = firstn bufSize (buffer w) ++ firstn (n - bufSize) (skipn p d) /\
      trace w' = trace w /\ files w' = files w.
Proof.
  intros Hr. induction fuel as [|fuel IH]; intros bs p w Hrd Hbs Hfuel; [lia|].
  cbn [fillBuffer]. destruct (Nat.ltb_spec bs C) as [Hlt|Hge].
  - destruct (readSync_ok fd bs (C - bs) T d C p w Hr Hrd)
      as (n1 & w1 & E1 & Hn1 & Hn2 & Hz & Hrd1 & Hb1 & Ht1 & Hf1); [lia|lia|].
    unfold bind. rewrite E1.
    assert (HB : List.length (buffer w) = C) by apply Hrd.
    assert (Hfirst : firstn (bs + n1) (buffer w1)
                     = firstn bs (buffer w) ++ firstn n1 (skipn p d)).
    { rewrite Hb1, app_assoc.
      rewrite firstn_app.
      replace (bs + n1 - List.length (firstn bs (buffer w) ++ firstn n1 (skipn p d)))
        with 0
        by (rewrite length_app, !length_firstn, length_skipn; lia).
      rewrite firstn_O, app_nil_r. apply firstn_all2.
      rewrite length_app, !length_firstn, length_skipn. lia. }
    destruct (Nat.eqb_spec n1 0) as [E0|Hne].
    + subst n1. exists bs, w1, p. split; [reflexivity|].
      specialize (Hz eq_refl).
      split; [lia|]. split; [lia|].
      rewrite Nat.add_0_r in Hrd1, Hfirst. split; [exact Hrd1|].
      split; [|auto]. rewrite Hfirst. rewrite Nat.sub_diag. reflexivity.
    + destruct (IH (bs + n1) (p + n1) w1 Hrd1)
        as (n & w' & p' & E & Hn & Hp' & Hrd' & Hb' & Ht' & Hf'); [lia|lia|].
      exists n, w', p'. split; [exact E|].
      split; [lia|]. split; [lia|]. split; [exact Hrd'|].
      split; [|split; congruence].
      rewrite Hb', Hfirst, <- app_assoc. f_equal.
      replace (p + n1) with (n1 + p) by lia.
      rewrite <- skipn_skipn, firstn_firstn_skipn. f_equal. lia.
  - exists bs, w, p. split; [reflexivity|].
    split; [lia|]. split; [lia|]. split; [exact Hrd|].
    split; [|auto]. rewrite Nat.sub_diag. simpl. rewrite app_nil_r. reflexivity.
Qed.

Lemma reading_set_trace (fd : nat) (T : list (nat * openFile)) (d : list byte)
    (C p : nat) (w : world) (t : list event) :
  reading fd T d C p w -> reading fd T d C p (set_trace t w).
Proof. intros H. exact H. Qed.

(** The loop writes the rest of the file block by block. *)
Lemma streamFile_ok (fd C : nat) (T : list (nat * openFile)) (d : list byte) :
  removeFd fd T = T -> 0 < C ->
  forall (fuel p : nat) (w : world),
    reading fd T d C p w ->
    List.length d - p < fuel ->
    exists w' p',
      streamFile fuel C fd 0 w = (Ok tt, w') /\
      reading fd T d C p' w' /\
      trace w' = trace w ++ fileBody C (skipn p d) /\
      files w' = files w.
Proof.
  intros Hr HC. induction fuel as [|fuel IH]; intros p w Hrd Hfuel; [lia|].
  cbn [streamFile]. unfold bind at 1.
  destruct (fillBuffer_ok fd C T d Hr (S fuel) 0 p w Hrd)
    as (n & w1 & p1 & E1 & Hn & Hp1 & Hrd1 & Hb1 & Ht1 & Hf1); [lia|lia|].
  rewrite E1.
  assert (Hp : p <= List.length d) by apply Hrd.
  assert (Hlen : List.length (skipn p d) = List.length d - p)
    by apply length_skipn.
  rewrite Nat.sub_0_r in Hp1. unfold fileBody.
  destruct (Nat.eqb_spec n C) as [En|Hne].
  - (* a full buffer *)
    unfold bind, emit.
    destruct (IH p1 (set_trace (trace w1 ++ [Write (Buf 0 C)]) w1))
      as (w' & p' & E & Hrd' & Ht' & Hf'); [exact Hrd1|lia|].
    rewrite E. exists w', p'. split; [reflexivity|]. split; [exact Hrd'|].
    split; [|exact (eq_trans Hf' Hf1)].
    rewrite Ht'. cbn [trace set_trace]. rewrite Ht1, <- app_assoc.
    f_equal. rewrite (chunks_long C (skipn p d)) by lia.
    cbn [map app]. rewrite length_firstn, skipn_skipn.
    replace (Nat.min C (List.length (skipn p d))) with C by lia.
    replace (C + p) with p1 by lia. reflexivity.
  - (* the last, partial buffer *)
    unfold emit. exists (set_trace (trace w1 ++ [Write (Buf 0 n)]) w1), p1.
    split; [reflexivity|]. split; [exact Hrd1|]. split; [|exact Hf1].
    cbn [trace set_trace]. rewrite Ht1. f_equal.
    rewrite chunks_short by lia. cbn [map]. rewrite Hlen.
    do 3 f_equal. lia.
Qed.

(** *** The stream of a mapping *)

Lemma writeField_ok (fuel C : nat) (b key : jsstring) (val : value)
    (w : world) :
  0 < C -> ready C w -> val <> VNull ->
  (forall path, fileOf val = Some path ->
                exists d, files w path = Some d /\ List.length d < fuel) ->
  exists w',
    writeField fuel C b key val w = (Ok tt, w') /\
    trace w' = trace w ++ fieldEvents (files w) C b (key, val) /\
    ready C w' /\ files w' = files w.
Proof.
  intros HC (Hnf & Hb) Hval Hfile. unfold writeField, fieldEvents.
  unfold bind at 1. unfold emit at 1. unfold bind at 1.
  destruct (fileTest_cases val (set_trace (trace w ++
                                  [Write (Str (js "--" ++ b) Ascii)]) w))
    as [[E _]|[_ E]]; [contradiction|rewrite E; clear E].
  destruct (fileOf val) as [path|].
  - destruct (Hfile path eq_refl) as (d & Ed & Hd).
    unfold bind at 1. unfold emit at 1. unfold bind at 1.
    unfold openSync. cbn [files set_trace fdTable]. rewrite Ed.
    set (fd := freshFd (fdTable w)).
    set (w0 := set_fdTable _ _).
    assert (Hrd : reading fd (fdTable w) d C 0 w0).
    { split; [reflexivity|]. split; [exact Hnf|]. split; [exact Hb|lia]. }
    destruct (streamFile_ok fd C (fdTable w) d (removeFd_fresh _) HC
                fuel 0 w0 Hrd)
      as (w1 & p1 & E1 & (Ht1 & Hnf1 & Hb1 & _) & Htr1 & Hf1); [lia|].
    unfold bind at 1. rewrite E1.
    unfold bind, closeSync, emit. rewrite Ht1. cbn [lookupFd].
    rewrite Nat.eqb_refl. cbn [removeFd]. rewrite Nat.eqb_refl.
    unfold fd at 1. rewrite removeFd_fresh.
    eexists. split; [reflexivity|].
    split; [|split; [split; assumption|exact Hf1]].
    cbn [trace set_trace set_fdTable]. rewrite Htr1.
    subst w0. cbn [trace set_trace set_fdTable skipn].
    rewrite <- !app_assoc. reflexivity.
  - unfold bind, emit. eexists. split; [reflexivity|].
    split; [|split; [split; assumption|reflexivity]].
    cbn [trace set_trace]. rewrite <- !app_assoc. reflexivity.
Qed.

Lemma writeFields_ok (fuel C : nat) (b : jsstring) :
  0 < C ->
  forall (data : list (jsstring * value)) (w : world),
    ready C w -> readable (files w) fuel data ->
    exists w',
      writeFields fuel C b data w = (Ok tt, w') /\
      trace w' = trace w ++ flat_map (fieldEvents (files w) C b) data /\
      ready C w' /\ files w' = files w.
Proof.
  intros HC. induction data as [|[key val] data IH]; intros w Hw Hdata.
  - exists w. split; [reflexivity|]. simpl. rewrite app_nil_r. auto.
  - unfold readable in Hdata.
    inversion Hdata as [|? ? [Hval Hkv] Hrest]; subst.
    destruct (writeField_ok fuel C b key val w HC Hw Hval Hkv)
      as (w1 & E1 & Ht1 & Hw1 & Hf1).
    destruct (IH w1 Hw1) as (w' & E & Ht & Hw' & Hf).
    { rewrite Hf1. exact Hrest. }
    exists w'. cbn [writeFields]. unfold bind. rewrite E1, E.
    split; [reflexivity|]. split; [|split; [exact Hw'|congruence]].
    rewrite Ht, Ht1, Hf1. cbn [flat_map]. rewrite app_assoc. reflexivity.
Qed.

Lemma bufCap_pos : 0 < bufCap.
Proof.
  unfold bufCap. rewrite Nat.shiftl_1_l.
  apply Nat.neq_0_lt_0, Nat.pow_nonzero. discriminate.
Qed.

Lemma take_length (n : nat) (l : list byte) : List.length (take n l) = n.
Proof.
  unfold take. rewrite length_firstn, length_app, repeat_length. lia.
Qed.

(** The events of a call on a mapping whose files exist, when no read
    fails. *)
Lemma writeFormData_ok (fuel : nat) (data : list (jsstring * value))
    (w : world) :
  noFail (reads w) -> readable (files w) fuel data ->
  exists w',
    writeFormData fuel data w = (Ok tt, w') /\
    trace w'
    = trace w ++
      SetHeader (js "Content-Type")
        (js "multipart/form-data; boundary=" ++ boundaryOf w) ::
      flat_map (fieldEvents (files w) bufCap (boundaryOf w)) data ++
      [End (Str (terminator (boundaryOf w)) Ascii)].
Proof.
  intros Hnf Hdata. rewrite writeFormData_unfold. cbv zeta.
  set (w0 := set_buffer _ _).
  destruct (writeFields_ok fuel bufCap (boundaryOf w) bufCap_pos data w0)
    as (w1 & E & Ht & _ & _).
  { split; [exact Hnf|]. apply take_length. }
  { exact Hdata. }
  rewrite E. eexists. split; [reflexivity|].
  cbn [trace set_trace]. rewrite Ht. subst w0.
  cbn [trace set_trace set_buffer files set_entropy].
  rewrite <- !app_assoc. reflexivity.
Qed.

(** *** The bytes of a file field *)

Lemma bufCap_value : Z.of_nat bufCap = 65536%Z.
Proof. vm_compute. reflexivity. Qed.

Lemma bytes_eqb_eq (a b : list byte) : bytes_eqb a b = true <-> a = b.
Proof.
  revert b. induction a as [|x a IH]; intros [|y b]; simpl;
    try (split; [discriminate|congruence]); [tauto|].
  rewrite andb_true_iff, IH. split.
  - intros [H ->]. apply byte_dec_bl in H. congruence.
  - intros [= -> ->]. split; [apply byte_dec_lb|]; reflexivity.
Qed.

Lemma bigFile_length : List.length bigFile = bufCap + 1.
Proof.
  unfold bigFile. cbn [List.length]. rewrite length_app, repeat_length.
  pose proof bufCap_pos. cbn [List.length]. lia.
Qed.

(** The [write] calls for the body of a file hand over [Buffer]s of as
    many bytes as the file has, all of them on the start of the one
    memory: full ones first, then one that is not full. *)
Lemma fileBody_views (C : nat) (d : list byte) :
  0 < C ->
  exists (sizes : list nat),
    fileBody C d = map (fun n => Write (Buf 0 n)) sizes /\
    list_sum sizes = List.length d /\
    Forall (fun n => n = C) (removelast sizes) /\
    last sizes 0 < C.
Proof.
  intros HC. destruct (chunks_spec C HC _ d (le_n _)) as (Hc & Hfull & Hlast).
  exists (map (@List.length byte) (chunks C d)).
  split; [unfold fileBody; rewrite map_map; reflexivity|].
  split; [|split].
  - rewrite <- Hc at 2. clear.
    induction (chunks C d) as [|c cs IH]; [reflexivity|].
    cbn [map List.concat]. rewrite length_app, <- IH. reflexivity.
  - clear -Hfull. induction (chunks C d) as [|c [|c' cs] IH]; simpl; auto.
    inversion Hfull; subst. constructor; auto.
  - clear -Hlast HC. induction (chunks C d) as [|c [|c' cs] IH]; simpl; auto.
Qed.

Lemma fieldEvents_file (fs : jsstring -> option (list byte)) (C : nat)
    (b key path str : jsstring) (d : list byte) :
  path <> [] -> fs path = Some d ->
  fieldEvents fs C b (key, VObject (Some path) str)
  = Write (Str (js "--" ++ b) Ascii) ::
    Write (Str (fileHeader key path) Utf8) ::
    fileBody C d ++ [Write (Str CRLF Ascii)].
Proof.
  intros Hp Hd. destruct path as [|c path]; [congruence|].
  cbn [fieldEvents fileOf]. rewrite Hd. reflexivity.
Qed.

(** C1 fails on the code with a request object that keeps the
    [Buffer]s it is handed and reads them after the call, as the one of
    [http.request] does. For a file of [bufCap + 1] bytes
    [writeFormData] returns, having handed over [buf] when it was full
    and then a slice of one byte of the same memory, into which it had
    read the last byte of the file; the bytes sent for the body are
    that last byte, the bytes of the file after the first, and that
    last byte again: as many as the file has, but the first byte of the
    file is missing and its last byte is sent twice. Likewise, of two
    files of three and of two bytes, the first is sent with its first
    two bytes replaced by the second file. *)
Theorem writeFormData_buffer_reuse
    (encode : encoding -> jsstring -> list byte) :
  (let r := writeFormData (bufCap + 2) bigData bigWorld in
   let b := boundaryOf bigWorld in
   let body := [Write (Buf 0 bufCap); Write (Buf 0 1)] in
   List.length bigFile = bufCap + 1 /\
   fst r = Ok tt /\
   trace (snd r)
   = [SetHeader (js "Content-Type") (js "multipart/form-data; boundary=" ++ b);
      Write (Str (js "--" ++ b) Ascii);
      Write (Str (fileHeader (js "file") (js "/tmp/big.bin")) Utf8)] ++
     body ++
     [Write (Str CRLF Ascii);
      End (Str (js "--" ++ b ++ js "--" ++ CRLF) Ascii)] /\
   streamBytes encode (buffer (snd r)) body = x02 :: tl bigFile /\
   streamBytes encode (buffer (snd r)) body <> bigFile) /\
  (let r := writeFormData 10 twoFilesData twoFilesWorld in
   let b := boundaryOf twoFilesWorld in
   fst r = Ok tt /\
   trace (snd r)
   = [SetHeader (js "Content-Type") (js "multipart/form-data; boundary=" ++ b);
      Write (Str (js "--" ++ b) Ascii);
      Write (Str (fileHeader (js "a") (js "/tmp/a.bin")) Utf8);
      Write (Buf 0 3);
      Write (Str CRLF Ascii);
      Write (Str (js "--" ++ b) Ascii);
      Write (Str (fileHeader (js "b") (js "/tmp/b.bin")) Utf8);
      Write (Buf 0 2);
      Write (Str CRLF Ascii);
      End (Str (js "--" ++ b ++ js "--" ++ CRLF) Ascii)] /\
   files twoFilesWorld (js "/tmp/a.bin") = Some [x0a; x0b; x0c] /\
   streamBytes encode (buffer (snd r)) [Write (Buf 0 3)] = [x01; x02; x0c]).
Proof.
  split; cbv zeta.
  - assert (E : bytes_eqb
                  (streamBytes encode
                     (buffer (snd (writeFormData (bufCap + 2) bigData bigWorld)))
                     [Write (Buf 0 bufCap); Write (Buf 0 1)])
                  (x02 :: tl bigFile) = true)
      by (vm_compute; reflexivity).
    apply bytes_eqb_eq in E.
    destruct (writeFormData_ok (bufCap + 2) bigData bigWorld)
      as (w' & Ew & Ht).
    { constructor. }
    { repeat constructor; [discriminate|].
      intros path [= <-]. exists bigFile. split; [reflexivity|].
      rewrite bigFile_length. lia. }
    rewrite Ew in E |- *. cbn [fst snd] in E |- *.
    split; [exact bigFile_length|].
    split; [reflexivity|].
    split; [|split; [exact E|]].
    + rewrite Ht. unfold bigData. cbn [flat_map].
      rewrite (fieldEvents_file _ _ _ _ _ _ bigFile)
        by (reflexivity || discriminate).
      pose proof bufCap_pos as HC.
      assert (H1 : 1 < bufCap)
        by (apply Nat.ltb_lt; vm_compute; reflexivity).
      destruct (chunks_at_capacity bufCap bigFile HC) as (_ & _ & _ & Hc).
      unfold fileBody. rewrite (Hc H1 bigFile_length). cbn [map].
      rewrite length_firstn, length_skipn, bigFile_length.
      replace (Nat.min bufCap (bufCap + 1)) with bufCap by lia.
      replace (bufCap + 1 - bufCap) with 1 by lia.
      reflexivity.
    + rewrite E. unfold bigFile. cbn [tl]. discriminate.
  - split; [vm_compute; reflexivity|].
    split; [vm_compute; reflexivity|].
    split; [reflexivity|].
    vm_compute. reflexivity.
Qed.

Lemma sizes_bounded (C : nat) (sizes : list nat) :
  Forall (fun n => n = C) (removelast sizes) -> last sizes 0 < C ->
  Forall (fun n => n <= C) sizes.
Proof.
  induction sizes as [|n [|m sizes] IH]; intros Hf Hl.
  - constructor.
  - repeat constructor. simpl in Hl. lia.
  - inversion Hf; subst. constructor; [lia|]. apply IH; assumption.
Qed.

Lemma streamBytes_views (encode : encoding -> jsstring -> list byte)
    (mem : list byte) (sizes : list nat) :
  Forall (fun n => n <= List.length mem) sizes ->
  List.length (streamBytes encode mem (map (fun n => Write (Buf 0 n)) sizes))
  = list_sum sizes.
Proof.
  induction 1 as [|n sizes Hn _ IH]; [reflexivity|].
  change (map (fun n => Write (Buf 0 n)) (n :: sizes))
    with ([Write (Buf 0 n)] ++ map (fun n => Write (Buf 0 n)) sizes).
  rewrite streamBytes_app, length_app, IH.
  cbn [streamBytes flat_map chunkBytes skipn]. rewrite app_nil_r.
  rewrite length_firstn. simpl. lia.
Qed.

(** X23: the calls for the body of a file, whatever the request object
    does with them: for a mapping with a file field whose file holds
    [content], when no value is [null], the files can be opened and no
    read fails, [writeFormData] returns, however short the reads are,
    and between the header of the field and the CRLF after it, it
    hands over [Buffer]s of [List.length content] bytes in all, each on
    the start of the memory of [buf]: full ones of [bufCap] bytes
    first, then one of fewer bytes. So the request object sends as many
    bytes for the body as the file holds, whenever it reads the
    memory. *)
Theorem writeFormData_file_calls
    (encode : encoding -> jsstring -> list byte) (fuel : nat)
    (pre post : list (jsstring * value)) (key path : jsstring)
    (val : value) (content : list byte) (w : world) :
  noFail (reads w) ->
  readable (files w) fuel (pre ++ (key, val) :: post) ->
  fileOf val = Some path ->
  files w path = Some content ->
  exists (w' : world) (sizes : list nat),
    let body := map (fun n => Write (Buf 0 n)) sizes in
    writeFormData fuel (pre ++ (key, val) :: post) w = (Ok tt, w') /\
    trace w'
    = trace w ++
      (SetHeader (js "Content-Type")
         (js "multipart/form-data; boundary=" ++ boundaryOf w) ::
       flat_map (fieldEvents (files w) bufCap (boundaryOf w)) pre ++
       [Write (Str (js "--" ++ boundaryOf w) Ascii);
        Write (Str (fileHeader key path) Utf8)]) ++
      body ++
      (Write (Str [13%Z; 10%Z] Ascii) ::
       flat_map (fieldEvents (files w) bufCap (boundaryOf w)) post ++
       [End (Str (js "--" ++ boundaryOf w ++ js "--" ++ [13%Z; 10%Z]) Ascii)]) /\
    list_sum sizes = List.length content /\
    Forall (fun n => n = bufCap) (removelast sizes) /\
    last sizes 0 < bufCap /\
    forall mem : list byte,
      List.length mem = bufCap ->
      List.length (streamBytes encode mem body) = List.length content.
Proof.
  intros Hnf Hdata Hval Hfile.
  destruct (writeFormData_ok fuel _ w Hnf Hdata) as (w' & E & Ht).
  destruct (fileBody_views bufCap content bufCap_pos)
    as (sizes & Hb & Hsum & Hfull & Hlast).
  exists w', sizes. cbv zeta. split; [exact E|].
  split; [|split; [exact Hsum|split; [exact Hfull|split; [exact Hlast|]]]].
  - rewrite Ht. f_equal. rewrite flat_map_app. cbn [flat_map fieldEvents].
    rewrite Hval, Hfile, Hb.
    repeat (rewrite <- app_assoc || rewrite <- app_comm_cons); cbn [app].
    reflexivity.
  - intros mem Hmem. rewrite streamBytes_views; [exact Hsum|].
    rewrite Hmem. apply sizes_bounded; assumption.
Qed.

Lemma writeFormData_file_calls_witness :
  exists (w' : world) (sizes : list nat),
    writeFormData 10
      ([(js "a", VScalar (js "1"))] ++
       (js "file", VObject (Some (js "/tmp/x.bin")) []) :: [])
      (exampleWorld [ReadAtMost 2]) = (Ok tt, w') /\
    list_sum sizes = 3.
Proof.
  destruct (writeFormData_file_calls (fun _ _ => []) 10
              [(js "a", VScalar (js "1"))] [] (js "file") (js "/tmp/x.bin")
              (VObject (Some (js "/tmp/x.bin")) []) [x01; x02; x03]
              (exampleWorld [ReadAtMost 2]))
    as (w' & sizes & E & _ & Hs & _).
  - repeat constructor. discriminate.
  - repeat constructor; try discriminate.
    intros path H. injection H as <-. exists [x01; x02; x03].
    split; [reflexivity|simpl; lia].
  - reflexivity.
  - reflexivity.
  - exists w', sizes. split; assumption.
Defined.

(** *** Failures, scalar mappings and the boundary *)

Lemma writeFields_app (fuel C : nat) (b : jsstring)
    (pre post : list (jsstring * value)) (w : world) :
  writeFields fuel C b (pre ++ post) w =
  match writeFields fuel C b pre w with
  | (Ok _, w1) => writeFields fuel C b post w1
  | (Exn e, w1) => (Exn e, w1)
  | (Fuel, w1) => (Fuel, w1)
  end.
Proof.
  revert w. induction pre as [|[key val] pre IH]; intros w; [reflexivity|].
  cbn [app writeFields]. unfold bind.
  destruct (writeField fuel C b key val w) as [[[]|e|] w1]; auto.
Qed.

(** X1: when [writeFormData] throws, [end] has not been called: the
    request object got the header and [write] calls only, so the
    request is left open with a truncated body. *)
Theorem writeFormData_failure_no_end (fuel : nat)
    (data : list (jsstring * value)) (w w' : world) (e : ioerror) :
  writeFormData fuel data w = (Exn e, w') ->
  exists cs,
    trace w' = trace w ++
               SetHeader (js "Content-Type")
                 (js "multipart/form-data; boundary=" ++ boundaryOf w) ::
               map Write cs /\
    existsb isEnd (map Write cs) = false.
Proof.
  rewrite writeFormData_unfold. cbv zeta. set (w0 := set_buffer _ _).
  destruct (writeFields fuel bufCap (boundaryOf w) data w0) as [r1 w1] eqn:E.
  apply writeFields_frame in E. destruct E as (_ & (cs & Hc) & _).
  destruct r1 as [[]|e1|]; intros [= <- <-].
  exists cs. split; [|apply existsb_isEnd_writes].
  rewrite Hc. subst w0. cbn [trace set_buffer set_trace].
  rewrite <- app_assoc. reflexivity.
Qed.

Lemma writeFormData_failure_no_end_witness :
  exists cs,
    trace (snd (writeFormData 10 exampleData
                  (exampleWorld [ReadAtMost 2; ReadFails])))
    = trace (exampleWorld [ReadAtMost 2; ReadFails]) ++
      SetHeader (js "Content-Type")
        (js "multipart/form-data; boundary=" ++
         boundaryOf (exampleWorld [ReadAtMost 2; ReadFails])) ::
      map Write cs /\
    existsb isEnd (map Write cs) = false.
Proof.
  apply (writeFormData_failure_no_end 10 exampleData _ _ EIO).
  rewrite (surjective_pairing (writeFormData _ _ _)) at 1.
  f_equal.
Defined.

Lemma writeField_scalar (fuel C : nat) (b key : jsstring) (val : value)
    (fs : jsstring -> option (list byte)) (w : world) :
  val <> VNull -> fileOf val = None ->
  exists w',
    writeField fuel C b key val w = (Ok tt, w') /\
    trace w' = trace w ++ fieldEvents fs C b (key, val) /\
    fdTable w' = fdTable w /\ reads w' = reads w /\ files w' = files w.
Proof.
  intros Hnull Hval. unfold writeField, fieldEvents.
  unfold bind at 1. unfold emit at 1. unfold bind at 1.
  destruct (fileTest_cases val (set_trace (trace w ++
                                  [Write (Str (js "--" ++ b) Ascii)]) w))
    as [[E _]|[_ E]]; [contradiction|rewrite E; clear E].
  rewrite Hval.
  unfold bind, emit. eexists. split; [reflexivity|].
  split; [|auto]. cbn [trace set_trace]. rewrite <- !app_assoc. reflexivity.
Qed.

Lemma writeFields_scalar (fuel C : nat) (b : jsstring)
    (fs : jsstring -> option (list byte)) :
  forall (data : list (jsstring * value)) (w : world),
    Forall scalarField data ->
    exists w',
      writeFields fuel C b data w = (Ok tt, w') /\
      trace w' = trace w ++ flat_map (fieldEvents fs C b) data /\
      fdTable w' = fdTable w /\ reads w' = reads w /\ files w' = files w.
Proof.
  induction data as [|[key val] data IH]; intros w H.
  - exists w. split; [reflexivity|]. simpl. rewrite app_nil_r. auto.
  - inversion H as [|? ? [Hnull Hkv] Hrest]; subst.
    destruct (writeField_scalar fuel C b key val fs w Hnull Hkv)
      as (w1 & E1 & Ht1 & Hd1 & Hr1 & Hf1).
    destruct (IH w1 Hrest) as (w' & E & Ht & Hd & Hr & Hf).
    exists w'. cbn [writeFields]. unfold bind. rewrite E1, E.
    split; [reflexivity|]. split; [|repeat split; congruence].
    rewrite Ht, Ht1. cbn [flat_map]. rewrite app_assoc. reflexivity.
Qed.

(** X2: a mapping in which no value is [null] or an object with a
    [filePath] is always encoded: whatever the reads would do and with
    no budget at all, [writeFormData] returns, opens no file, reads
    nothing, and writes for each field, in the order of the mapping,
    the boundary line, the [Content-Disposition] header with the name
    of the field, and the string form of the value (for an object, the
    string its conversion gives) followed by CRLF; then the
    terminator. *)
Theorem writeFormData_scalar_mapping (fuel : nat)
    (data : list (jsstring * value)) (w : world) :
  Forall scalarField data ->
  exists w',
    writeFormData fuel data w = (Ok tt, w') /\
    trace w'
    = trace w ++
      SetHeader (js "Content-Type")
        (js "multipart/form-data; boundary=" ++ boundaryOf w) ::
      flat_map (fun kv =>
                  [Write (Str (js "--" ++ boundaryOf w) Ascii);
                   Write (Str ([13%Z; 10%Z] ++
                               js "Content-Disposition: form-data; name=" ++
                               [DQUOTE] ++ fst kv ++ [DQUOTE] ++
                               [13%Z; 10%Z; 13%Z; 10%Z]) Utf8);
                   Write (Str (match snd kv with
                               | VNull => []
                               | VScalar str => str
                               | VObject _ str => str
                               end ++ [13%Z; 10%Z]) Utf8)]) data ++
      [End (Str (js "--" ++ boundaryOf w ++ js "--" ++ [13%Z; 10%Z]) Ascii)] /\
    fdTable w' = fdTable w /\ reads w' = reads w.
Proof.
  intros H. rewrite writeFormData_unfold. cbv zeta. set (w0 := set_buffer _ _).
  destruct (writeFields_scalar fuel bufCap (boundaryOf w) (files w) data w0 H)
    as (w1 & E & Ht & Hd & Hr & _).
  rewrite E. eexists. split; [reflexivity|].
  split; [|split; [exact Hd|exact Hr]].
  cbn [trace set_trace]. rewrite Ht. subst w0.
  cbn [trace set_trace set_buffer]. rewrite <- !app_assoc. cbn [app].
  do 3 f_equal. clear -H.
  induction H as [|[key val] data [Hnull Hkv] _ IH]; [reflexivity|].
  cbn [flat_map fieldEvents fst snd]. simpl in Hkv, Hnull.
  rewrite Hkv, IH. destruct val; [contradiction| |]; reflexivity.
Qed.

Lemma writeFormData_scalar_mapping_witness :
  exists w',
    writeFormData 0
      [(js "a", VScalar (js "1")); (js "l", VObject None (js "x,y"))]
      (exampleWorld [ReadFails]) = (Ok tt, w') /\
    fdTable w' = [] /\ reads w' = [ReadFails].
Proof.
  destruct (writeFormData_scalar_mapping 0
              [(js "a", VScalar (js "1")); (js "l", VObject None (js "x,y"))]
              (exampleWorld [ReadFails]))
    as (w' & E & _ & Hd & Hr).
  - repeat constructor; discriminate.
  - exists w'. auto.
Defined.

(** X3: when the file of a field cannot be opened, [writeFormData]
    throws after it has written the boundary and the header of that
    field: the fields before it are complete on the request object,
    the part of the field is cut after its header, no descriptor is
    left open. *)
Theorem writeFormData_missing_file (fuel : nat)
    (pre post : list (jsstring * value)) (key path : jsstring)
    (val : value) (w : world) :
  noFail (reads w) -> readable (files w) fuel pre ->
  fileOf val = Some path -> files w path = None ->
  exists w',
    writeFormData fuel (pre ++ (key, val) :: post) w = (Exn ENOENT, w') /\
    trace w'
    = trace w ++
      SetHeader (js "Content-Type")
        (js "multipart/form-data; boundary=" ++ boundaryOf w) ::
      flat_map (fieldEvents (files w) bufCap (boundaryOf w)) pre ++
      [Write (Str (js "--" ++ boundaryOf w) Ascii);
       Write (Str (fileHeader key path) Utf8)] /\
    fdTable w' = fdTable w.
Proof.
  intros Hnf Hpre Hval Hfile. rewrite writeFormData_unfold. cbv zeta.
  set (w0 := set_buffer _ _). rewrite writeFields_app.
  destruct (writeFields_ok fuel bufCap (boundaryOf w) bufCap_pos pre w0)
    as (w1 & E & Ht & _ & Hf).
  { split; [exact Hnf|]. apply take_length. }
  { exact Hpre. }
  rewrite E. cbn [writeFields]. unfold bind at 1.
  unfold writeField.
  unfold bind at 1. unfold emit at 1. unfold bind at 1.
  destruct (fileTest_cases val (set_trace (trace w1 ++
                                  [Write (Str (js "--" ++ boundaryOf w) Ascii)])
                                  w1))
    as [[-> _]|[_ Et]]; [discriminate Hval|rewrite Et; clear Et].
  rewrite Hval.
  unfold bind at 1. unfold emit at 1.
  unfold bind at 1. unfold openSync. cbn [files set_trace].
  rewrite Hf. subst w0. cbn [files set_buffer set_trace set_entropy].
  rewrite Hfile. eexists. split; [reflexivity|].
  assert (Hd : fdTable w1 = fdTable w).
  { apply writeFields_frame in E. apply E. }
  split; [|exact Hd].
  cbn [trace set_trace]. rewrite Ht. cbn [trace set_trace set_buffer files].
  repeat (rewrite <- app_assoc || rewrite <- app_comm_cons); cbn [app].
  reflexivity.
Qed.

Lemma writeFormData_missing_file_witness :
  exists w',
    writeFormData 10
      ([(js "a", VScalar (js "1"))] ++
       (js "f", VObject (Some (js "/nowhere")) []) :: exampleData)
      (exampleWorld []) = (Exn ENOENT, w') /\
    fdTable w' = [].
Proof.
  destruct (writeFormData_missing_file 10 [(js "a", VScalar (js "1"))]
              exampleData (js "f") (js "/nowhere")
              (VObject (Some (js "/nowhere")) []) (exampleWorld []))
    as (w' & E & _ & Hd).
  - constructor.
  - repeat constructor; [discriminate|]. intros path H. discriminate H.
  - reflexivity.
  - reflexivity.
  - exists w'. auto.
Defined.

(** X24: a [null] value makes [writeFormData] throw: [typeof null] is
    ['object'], so [filePath] is read off [null]. The boundary line of
    the field has been written by then, after the complete parts of the
    fields before it; nothing else of the field is written, [end] is
    not called and no file is opened for it. *)
Theorem writeFormData_null_value (fuel : nat)
    (pre post : list (jsstring * value)) (key : jsstring) (w : world) :
  noFail (reads w) -> readable (files w) fuel pre ->
  exists w',
    writeFormData fuel (pre ++ (key, VNull) :: post) w = (Exn TypeError, w') /\
    trace w'
    = trace w ++
      SetHeader (js "Content-Type")
        (js "multipart/form-data; boundary=" ++ boundaryOf w) ::
      flat_map (fieldEvents (files w) bufCap (boundaryOf w)) pre ++
      [Write (Str (js "--" ++ boundaryOf w) Ascii)] /\
    fdTable w' = fdTable w.
Proof.
  intros Hnf Hpre. rewrite writeFormData_unfold. cbv zeta.
  set (w0 := set_buffer _ _). rewrite writeFields_app.
  destruct (writeFields_ok fuel bufCap (boundaryOf w) bufCap_pos pre w0)
    as (w1 & E & Ht & _ & Hf).
  { split; [exact Hnf|]. apply take_length. }
  { exact Hpre. }
  rewrite E. cbn [writeFields]. unfold bind at 1.
  unfold writeField.
  unfold bind at 1. unfold emit at 1. unfold bind at 1.
  cbn [fileTest throw].
  eexists. split; [reflexivity|].
  assert (Hd : fdTable w1 = fdTable w).
  { apply writeFields_frame in E. apply E. }
  split; [|exact Hd].
  cbn [trace set_trace]. rewrite Ht. subst w0.
  cbn [trace set_trace set_buffer files set_entropy].
  repeat (rewrite <- app_assoc || rewrite <- app_comm_cons); cbn [app].
  reflexivity.
Qed.

Lemma writeFormData_null_value_witness :
  exists w',
    writeFormData 10
      ([(js "a", VScalar (js "1"))] ++ (js "n", VNull) :: exampleData)
      (exampleWorld []) = (Exn TypeError, w') /\
    fdTable w' = [].
Proof.
  destruct (writeFormData_null_value 10 [(js "a", VScalar (js "1"))]
              exampleData (js "n") (exampleWorld []))
    as (w' & E & _ & Hd).
  - constructor.
  - repeat constructor; [discriminate|]. intros path H. discriminate H.
  - exists w'. auto.
Defined.

Lemma hexDigit_isHexDigit (d : Z) :
  (0 <= d < 16)%Z -> isHexDigit (hexDigit d) = true.
Proof.
  intros H. unfold hexDigit, isHexDigit.
  destruct (Z.ltb_spec d 10); apply orb_true_iff; [left|right];
    apply andb_true_iff; split; apply Z.leb_le; lia.
Qed.

Lemma toHex_spec (bytes : list byte) :
  List.length (toHex bytes) = 2 * List.length bytes /\
  forallb isHexDigit (toHex bytes) = true.
Proof.
  induction bytes as [|b bytes (IHl & IHf)]; [split; reflexivity|].
  cbn [toHex flat_map app List.length forallb] in *.
  fold (toHex bytes). split; [rewrite IHl; lia|].
  pose proof (Byte.to_N_bounded b) as Hb.
  set (n := Z.of_N (Byte.to_N b)).
  assert (Hn : (0 <= n < 256)%Z) by (subst n; lia).
  rewrite !hexDigit_isHexDigit, IHf; [reflexivity| |].
  - apply Z.mod_pos_bound. lia.
  - split; [apply Z.div_pos; lia|apply Z.div_lt_upper_bound; lia].
Qed.

(** X4: whatever the random bytes are, the boundary is 32 lowercase
    hexadecimal digits; it is the string announced in the
    [Content-Type] header of a call that returns, and the one of the
    terminator the call ends with. *)
Theorem writeFormData_boundary (fuel : nat)
    (data : list (jsstring * value)) (w w' : world) :
  writeFormData fuel data w = (Ok tt, w') ->
  List.length (boundaryOf w) = 32 /\
  forallb isHexDigit (boundaryOf w) = true /\
  exists evs,
    trace w' = trace w ++
               SetHeader (js "Content-Type")
                 (js "multipart/form-data; boundary=" ++ boundaryOf w) ::
               evs ++ [End (Str (js "--" ++ boundaryOf w ++ js "--" ++ CRLF)
                          Ascii)].
Proof.
  intros H. unfold boundaryOf at 1 2.
  destruct (toHex_spec (take 16 (entropy w))) as (Hl & Hf).
  rewrite take_length in Hl. split; [exact Hl|]. split; [exact Hf|].
  apply writeFormData_frame in H. destruct H as (_ & _ & cs & Hc).
  exists (map Write cs). exact Hc.
Qed.

Lemma writeFormData_boundary_witness :
  List.length (boundaryOf (exampleWorld [])) = 32 /\
  forallb isHexDigit (boundaryOf (exampleWorld [])) = true /\
  exists evs,
    trace (snd (writeFormData 10 exampleData (exampleWorld [])))
    = trace (exampleWorld []) ++
      SetHeader (js "Content-Type")
        (js "multipart/form-data; boundary=" ++ boundaryOf (exampleWorld [])) ::
      evs ++ [End (Str (js "--" ++ boundaryOf (exampleWorld []) ++
                        js "--" ++ CRLF) Ascii)].
Proof.
  apply (writeFormData_boundary 10 exampleData).
  rewrite (surjective_pairing (writeFormData _ _ _)) at 1.
  f_equal.
Defined.

End FormDataFacts.

(* ================================================================= *)
(** ** More on [skipWhitespace] and [parseArgs] *)

Lemma skipWhitespace_from_spec (s : jsstring) :
  forall (rest : jsstring) (i : Z),
    0 <= i -> rest = skipn (Z.to_nat i) s ->
    let j := skipWhitespace_from s rest i in
    (j = -1 /\
     forall x, i <= x < JS.length s -> notBlank (charAt s x) = false) \/
    (i <= j < JS.length s /\ notBlank (charAt s j) = true /\
     forall x, i <= x < j -> notBlank (charAt s x) = false).
Proof.
  induction rest as [|c rest IH]; intros i Hi Hrest; cbn [skipWhitespace_from].
  - left. split; [reflexivity|]. intros x Hx. exfalso.
    assert (Hl : List.length (skipn (Z.to_nat i) s) = 0%nat)
      by (rewrite <- Hrest; reflexivity).
    rewrite length_skipn in Hl. unfold JS.length in Hx. lia.
  - assert (Hlt : i < JS.length s).
    { destruct (Z.lt_ge_cases i (JS.length s)) as [|Hge]; auto.
      rewrite (skipn_length_nil s i) in Hrest by lia. discriminate. }
    destruct (charAt_skipn s i) as (c' & Hc & Hs); [lia|].
    rewrite Hs in Hrest. injection Hrest as <- Hrest.
    destruct (notBlank (charAt s i)) eqn:E.
    + right. split; [lia|]. split; [exact E|]. intros x Hx. lia.
    + destruct (IH (i + 1)) as [(Hj & Hall)|(Hj & Hnb & Hall)];
        [lia|exact Hrest| |].
      * left. split; [exact Hj|]. intros x Hx.
        destruct (Z.eq_dec x i) as [->|]; [exact E|apply Hall; lia].
      * right. split; [lia|]. split; [exact Hnb|]. intros x Hx.
        destruct (Z.eq_dec x i) as [->|]; [exact E|apply Hall; lia].
Qed.

(** X5: from a start index that is not negative, [skipWhitespace]
    returns -1 when only spaces and tabs remain, and otherwise the
    index of the first character from the start that is neither. *)
Theorem skipWhitespace_spec (s : jsstring) (k : Z) :
  0 <= k ->
  (skipWhitespace s k = -1 /\
   forall x, k <= x < JS.length s -> notBlank (charAt s x) = false) \/
  (k <= skipWhitespace s k < JS.length s /\
   notBlank (charAt s (skipWhitespace s k)) = true /\
   forall x, k <= x < skipWhitespace s k -> notBlank (charAt s x) = false).
Proof. intros Hk. apply skipWhitespace_from_spec; auto. Qed.

Lemma skipWhitespace_spec_witness :
  (skipWhitespace (js "a  b ") 1 = -1 /\
   forall x, 1 <= x < JS.length (js "a  b ") ->
             notBlank (charAt (js "a  b ") x) = false) \/
  (1 <= skipWhitespace (js "a  b ") 1 < JS.length (js "a  b ") /\
   notBlank (charAt (js "a  b ") (skipWhitespace (js "a  b ") 1)) = true /\
   forall x, 1 <= x < skipWhitespace (js "a  b ") 1 ->
             notBlank (charAt (js "a  b ") x) = false).
Proof. apply skipWhitespace_spec. lia. Defined.

Lemma tok_seps (args : list jsstring) (l : jsstring) :
  forallb isSep l = true -> tok Skip args l = Return args.
Proof.
  intros H. rewrite <- (app_nil_r l), tok_lead by exact H. reflexivity.
Qed.

Lemma tok_Quo_seps (q : char) (args : list jsstring) :
  isQuoteChar q = true ->
  forall (l cur : jsstring),
    forallb isSep l = true -> tok (Quo q cur) args l = Throw UnmatchedQuote.
Proof.
  intros Hq. induction l as [|c l IH]; intros cur H; [reflexivity|].
  simpl in H. apply andb_true_iff in H as [Hc H]. cbn [tok].
  destruct (Z.eqb_spec c q) as [->|_].
  - rewrite (sep_not_quote q Hc) in Hq. discriminate.
  - apply IH, H.
Qed.

(** One step of the machine keeps the modes well formed. *)
Ltac tok_step c cur q :=
  cbn [tok];
  repeat match goal with
         | |- context [isQuoteChar c] =>
             let E := fresh "Eq" in destruct (isQuoteChar c) eqn:E
         | |- context [isSep c] =>
             let E := fresh "Es" in destruct (isSep c) eqn:E
         | |- context [c =? q] =>
             let E := fresh "Ec" in destruct (c =? q) eqn:E
         end.

Lemma tok_trail (trail : jsstring) :
  forallb isSep trail = true ->
  forall (s : jsstring) (m : mode) (args : list jsstring),
    modeWF m -> tok m args (s ++ trail) = tok m args s.
Proof.
  intros Ht. induction s as [|c s IH]; intros m args Hm.
  - cbn [app]. destruct m as [|cur|q cur].
    + apply tok_seps, Ht.
    + destruct trail as [|c t]; [reflexivity|]. simpl in Ht.
      apply andb_true_iff in Ht as [Hc Ht]. cbn [tok].
      rewrite (sep_not_quote c Hc), Hc, (tok_seps _ _ Ht).
      destruct cur; [contradiction Hm; reflexivity|reflexivity].
    + apply tok_Quo_seps; assumption.
  - cbn [app]. destruct m as [|cur|q cur]; tok_step c cur q;
      apply IH; simpl; auto; try discriminate.
    destruct cur; discriminate.
Qed.

(** X6: spaces and tabs before and after the input change nothing:
    the outcome of [parseArgs] (tokens or [UnmatchedQuote]) is that of
    the input without them. *)
Theorem parseArgs_separators_around (lead s trail : jsstring) :
  forallb isSep lead = true -> forallb isSep trail = true ->
  parseArgs (lead ++ s ++ trail) = parseArgs s.
Proof.
  intros Hl Ht. rewrite !parseArgs_tok, tok_lead by exact Hl.
  apply tok_trail; simpl; auto.
Qed.

Lemma parseArgs_separators_around_witness :
  parseArgs (js "  " ++ js "a 'b c" ++ [TAB; SPACE]) = parseArgs (js "a 'b c").
Proof. apply parseArgs_separators_around; reflexivity. Defined.

Lemma tok_app_sep (c : char) (b : jsstring) :
  isSep c = true ->
  forall (a : jsstring) (m : mode) (args ta : list jsstring),
    modeWF m -> tok m args a = Return ta ->
    tok m args (a ++ c :: b) = tok Skip ta b.
Proof.
  intros Hc. induction a as [|x a IH]; intros m args ta Hm H.
  - cbn [app]. destruct m as [|cur|q cur]; cbn [tok] in *.
    + rewrite Hc. congruence.
    + rewrite (sep_not_quote c Hc), Hc.
      destruct cur; [contradiction Hm; reflexivity|].
      simpl in H. congruence.
    + discriminate.
  - cbn [app]. revert H. destruct m as [|cur|q cur]; tok_step x cur q;
      intros H; apply IH with (2 := H); simpl; auto; try discriminate.
    destruct cur; discriminate.
Qed.

(** X7: two inputs put together with a space or a tab between them
    give the tokens of the first followed by the outcome of the second,
    when the first has no unmatched quote. *)
Theorem parseArgs_app_sep (a b : jsstring) (c : char)
    (ta : list jsstring) :
  parseArgs a = Return ta -> isSep c = true ->
  parseArgs (a ++ c :: b) = prepend ta (parseArgs b).
Proof.
  rewrite (parseArgs_tok a), (parseArgs_tok (a ++ c :: b)). intros H Hc.
  rewrite (tok_app_sep c b Hc a Skip [] ta I H).
  apply tok_Skip_parseArgs.
Qed.

Lemma parseArgs_app_sep_witness :
  parseArgs (js "cd 'my dir'" ++ SPACE :: js "x 'y") 
  = prepend [js "cd"; js "my dir"] (parseArgs (js "x 'y")).
Proof. apply parseArgs_app_sep; reflexivity. Defined.

(** X8: no token holds both quote chars: an argument with a single
    and a double quote in it cannot be written. *)
Theorem parseArgs_token_quotes (s : jsstring) (toks : list jsstring) :
  parseArgs s = Return toks ->
  Forall (fun t => contains DQUOTE t && contains SQUOTE t = false) toks.
Proof.
  intros H. apply parseArgs_tokens in H.
  eapply Forall_impl; [|exact H]. intros t (_ & [E|E]); rewrite E;
    [reflexivity|apply andb_false_r].
Qed.

Lemma parseArgs_token_quotes_witness :
  Forall (fun t => contains DQUOTE t && contains SQUOTE t = false)
         [js "it's"; js "a"].
Proof.
  apply (parseArgs_token_quotes ([DQUOTE] ++ js "it's" ++ [DQUOTE] ++ js " a")).
  reflexivity.
Defined.

Lemma plainChar_spec (c : char) :
  plainChar c = true -> isQuoteChar c = false /\ negb (oddSpace c) = true.
Proof.
  unfold plainChar. intros H. apply andb_true_iff in H as [H1 H2].
  apply negb_true_iff in H1. auto.
Qed.

Lemma tok_plain :
  forall (s : jsstring) (m : mode) (args : list jsstring),
    modeClean m -> modeQuote m = None ->
    forallb plainChar s = true ->
    exists toks,
      tok m args s = Return toks /\
      List.concat toks
      = List.concat args ++ pending m ++ filter (fun c => negb (isSep c)) s /\
      (Forall (fun t => t <> [] /\ noWhiteSpace t = true) args ->
       Forall (fun t => t <> [] /\ noWhiteSpace t = true) toks).
Proof.
  assert (push : forall (args : list jsstring) (cur : jsstring),
             cur <> [] -> noWhiteSpace cur = true ->
             List.concat (args ++ [trim cur]) = List.concat args ++ cur /\
             (Forall (fun t => t <> [] /\ noWhiteSpace t = true) args ->
              Forall (fun t => t <> [] /\ noWhiteSpace t = true)
                     (args ++ [trim cur]))).
  { intros args cur Hne Hws. rewrite (trim_noWhiteSpace _ Hws). split.
    - rewrite concat_app. simpl. rewrite app_nil_r. reflexivity.
    - intros Ha. apply Forall_app. split; auto. }
  induction s as [|c s IH]; intros m args Hm Hq Hs.
  - destruct m as [|cur|q cur]; [| |discriminate]; cbn [tok pending filter].
    + exists args. rewrite !app_nil_r. auto.
    + destruct Hm as [Hne Hws]. destruct (push args cur Hne Hws) as [Hc Hf].
      destruct cur as [|x cur]; [congruence|]. cbn [nonEmpty str_eqb negb].
      eexists. split; [reflexivity|]. rewrite app_nil_r. auto.
  - cbn [forallb] in Hs. apply andb_true_iff in Hs as [Hc Hs].
    apply plainChar_spec in Hc as [Hcq Hco].
    destruct m as [|cur|q cur]; [| |discriminate]; cbn [tok pending filter];
      rewrite ?Hcq; destruct (isSep c) eqn:Es; cbn [negb].
    + apply (IH Skip); simpl; auto.
    + destruct (IH (Unq [c]) args) as (toks & E & Hcat & Hf); auto.
      { split; [discriminate|]. unfold noWhiteSpace. simpl.
        rewrite (not_oddSpace c Hco Es). reflexivity. }
      exists toks. split; [exact E|]. split; [exact Hcat|exact Hf].
    + destruct Hm as [Hne Hws]. destruct (push args cur Hne Hws) as [Hc Hf].
      destruct (IH Skip (args ++ [trim cur])) as (toks & E & Hcat & Hf');
        simpl; auto.
      exists toks. split; [exact E|]. split; [|auto].
      rewrite Hcat, Hc. cbn [pending app]. rewrite <- app_assoc. reflexivity.
    + destruct Hm as [Hne Hws].
      destruct (IH (Unq (cur ++ [c])) args) as (toks & E & Hcat & Hf); auto.
      { split; [destruct cur; discriminate|].
        apply noWhiteSpace_snoc; auto. apply not_oddSpace; auto. }
      exists toks. split; [exact E|]. split; [|exact Hf].
      rewrite Hcat. cbn [pending]. rewrite <- !app_assoc. reflexivity.
Qed.

(** X9: on an input without quote chars and without whitespace other
    than spaces and tabs, [parseArgs] returns tokens that are not
    empty and hold no whitespace, and that put end to end are the
    input without its spaces and tabs: no character is lost, added or
    moved. *)
Theorem parseArgs_plain (s : jsstring) :
  forallb plainChar s = true ->
  exists toks,
    parseArgs s = Return toks /\
    List.concat toks = filter (fun c => negb (isSep c)) s /\
    Forall (fun t => t <> [] /\ noWhiteSpace t = true) toks.
Proof.
  intros H. rewrite parseArgs_tok.
  destruct (tok_plain s Skip [] I eq_refl H) as (toks & E & Hcat & Hf).
  exists toks. split; [exact E|]. split; [exact Hcat|]. apply Hf. constructor.
Qed.

Lemma parseArgs_plain_witness :
  exists toks,
    parseArgs (js " submit  100 a.cpp ") = Return toks /\
    List.concat toks
    = filter (fun c => negb (isSep c)) (js " submit  100 a.cpp ") /\
    Forall (fun t => t <> [] /\ noWhiteSpace t = true) toks.
Proof. apply parseArgs_plain. reflexivity. Defined.

(* ================================================================= *)
(** ** [getLang] and [getLangName] *)

(** X10: no extension gives [LANG_CPP]: [cc] and [cpp] are C++11; the
    name of the language of an extension is [?] exactly when the
    extension is not known, and it is never [C++]. *)
Theorem getLang_name (ext : jsstring) :
  getLang ext <> LANG_CPP /\
  (getLangName (VNum (getLang ext)) = js "?" <-> getLang ext = -1) /\
  getLangName (VNum (getLang ext)) <> js "C++".
Proof.
  unfold getLang.
  repeat match goal with
         | |- context [if ?b then _ else _] => destruct b
         end;
    (split; [discriminate|split; [split; discriminate || reflexivity
                                 |discriminate]]).
Qed.

Lemma parseIntStr_digit (ws tail : jsstring) (d : Z) :
  forallb isWhiteSpace ws = true -> 1 <= d <= 9 ->
  match tail with c :: _ => digitValue 10 c = None | [] => True end ->
  parseIntStr (ws ++ (48 + d) :: tail) = Some d.
Proof.
  intros Hws Hd Htail. unfold parseIntStr.
  rewrite (trimStart_app_ws ws _ Hws).
  assert (E : d = 1 \/ d = 2 \/ d = 3 \/ d = 4 \/ d = 5 \/ d = 6 \/ d = 7 \/
              d = 8 \/ d = 9) by lia.
  destruct E as [->|[->|[->|[->|[->|[->|[->|[->| ->]]]]]]]];
    destruct tail as [|c tail]; cbn; try reflexivity;
    rewrite Htail; reflexivity.
Qed.

(** X11: [getLangName] reads its argument with [parseInt]: a text that
    starts, after any whitespace, with one digit from 1 to 5 not
    followed by another digit names the same language as the number,
    whatever follows. *)
Theorem getLangName_text (ws tail : jsstring) (d : Z) :
  forallb isWhiteSpace ws = true -> 1 <= d <= 5 ->
  match tail with c :: _ => digitValue 10 c = None | [] => True end ->
  getLangName (VStr (ws ++ (48 + d) :: tail)) = getLangName (VNum d).
Proof.
  intros Hws Hd Htail. unfold getLangName, parseInt.
  rewrite (parseIntStr_digit ws tail d Hws) by (lia || assumption).
  assert (E : d = 1 \/ d = 2 \/ d = 3 \/ d = 4 \/ d = 5) by lia.
  destruct E as [->|[->|[->|[->| ->]]]]; reflexivity.
Qed.

Lemma getLangName_text_witness :
  getLangName (VStr (js "  " ++ (48 + 3) :: js "rd language"))
  = getLangName (VNum 3).
Proof. apply getLangName_text; [reflexivity|lia|reflexivity]. Defined.

(* ================================================================= *)
(** ** [htmlDecodeSimple] *)

Lemma replaceAllFrom_skip (pat rep : jsstring) :
  forall (l rest : jsstring),
    replaceAllFrom pat rep (List.length l) (l ++ rest)
    = replaceAllFrom pat rep 0 rest.
Proof.
  induction l as [|c l IH]; intros rest; [destruct rest; reflexivity|].
  simpl. apply IH.
Qed.

Lemma isPrefix_app (p s : jsstring) : isPrefix p (p ++ s) = true.
Proof. induction p as [|c p IH]; simpl; auto. rewrite Z.eqb_refl. exact IH. Qed.

Lemma replaceAll_match (pat rep rest : jsstring) :
  pat <> [] ->
  replaceAll pat rep (pat ++ rest) = rep ++ replaceAll pat rep rest.
Proof.
  intros H. destruct pat as [|c pat]; [congruence|].
  unfold replaceAll. cbn [app replaceAllFrom].
  change (c :: pat ++ rest) with ((c :: pat) ++ rest).
  rewrite isPrefix_app. f_equal.
  replace (List.length (c :: pat) - 1)%nat with (List.length pat)
    by (cbn [List.length]; lia).
  apply replaceAllFrom_skip.
Qed.

Lemma replaceAll_other (pat rep rest : jsstring) (c : char) :
  isPrefix pat (c :: rest) = false ->
  replaceAll pat rep (c :: rest) = c :: replaceAll pat rep rest.
Proof. intros H. unfold replaceAll. cbn [replaceAllFrom]. rewrite H. reflexivity. Qed.

Lemma isPrefix_entity_lit (e : entity) (c : char) (rest : jsstring) :
  c <> AMP -> isPrefix (entityName e) (c :: rest) = false.
Proof.
  intros H. assert (E : (AMP =? c) = false) by (apply Z.eqb_neq; congruence).
  destruct e; cbn [entityName js map list_ascii_of_string isPrefix];
    change (Z.of_N (N_of_ascii "&")) with AMP; rewrite E; reflexivity.
Qed.

(** A run of characters other than [&] is passed unchanged. *)
Lemma replaceAll_lits (e : entity) (rep rest : jsstring) :
  forall (l : jsstring),
    contains AMP l = false ->
    replaceAll (entityName e) rep (l ++ rest)
    = l ++ replaceAll (entityName e) rep rest.
Proof.
  induction l as [|c l IH]; intros H; [reflexivity|].
  simpl in H. apply orb_false_iff in H as [Hc H]. cbn [app].
  rewrite replaceAll_other, IH by
    (auto; apply isPrefix_entity_lit; apply Z.eqb_neq; exact Hc).
  reflexivity.
Qed.

(** An entity other than the one looked for is passed unchanged. *)
Lemma replaceAll_entity_other (e e' : entity) (rep rest : jsstring) :
  decodeItem e (Ent e') = Ent e' ->
  replaceAll (entityName e) rep (entityName e' ++ rest)
  = entityName e' ++ replaceAll (entityName e) rep rest.
Proof.
  intros H.
  assert (Hd : exists tl, entityName e' = AMP :: tl /\ contains AMP tl = false
                          /\ isPrefix (entityName e) (entityName e' ++ rest) = false).
  { destruct e, e'; try discriminate H;
      (eexists; split; [reflexivity|split; reflexivity]). }
  destruct Hd as (tl & -> & Htl & Hp). cbn [app] in *.
  rewrite replaceAll_other by exact Hp. f_equal.
  apply replaceAll_lits, Htl.
Qed.

Lemma replaceAll_stage (e : entity) :
  forall (items : list item),
    Forall litOK items ->
    replaceAll (entityName e) [entityChar e] (renderAll items)
    = renderAll (map (decodeItem e) items).
Proof.
  induction items as [|it items IH]; intros H; [reflexivity|].
  inversion H as [|? ? Hit Hrest]; subst. specialize (IH Hrest).
  unfold renderAll in *. cbn [map flat_map].
  destruct it as [c|e'].
  - cbn [render decodeItem app]. rewrite replaceAll_other, IH; auto.
    apply isPrefix_entity_lit, Hit.
  - cbn [render].
    destruct (decodeItem e (Ent e')) as [c|e''] eqn:E.
    + assert (e' = e /\ c = entityChar e) as [-> ->]
        by (destruct e, e'; try discriminate E; injection E as <-; auto).
      rewrite replaceAll_match, IH; [reflexivity|destruct e; discriminate].
    + assert (e'' = e') as -> by (destruct e, e'; simpl in E; congruence).
      rewrite replaceAll_entity_other, IH by exact E. reflexivity.
Qed.

Lemma litOK_decodeItem (e : entity) (items : list item) :
  e <> EAmp -> Forall litOK items -> Forall litOK (map (decodeItem e) items).
Proof.
  intros He H. induction H as [|it items Hit _ IH]; constructor; auto.
  destruct it as [c|e']; [exact Hit|].
  destruct e, e'; simpl; auto; try discriminate; congruence.
Qed.

Lemma htmlDecodeSimple_items (items : list item) :
  Forall litOK items ->
  htmlDecodeSimple (renderAll items) = map itemChar items.
Proof.
  intros H. unfold htmlDecodeSimple.
  change (js "&apos;") with (entityName EApos).
  change (js "&lt;") with (entityName ELt).
  change (js "&gt;") with (entityName EGt).
  change (js "&quot;") with (entityName EQuot).
  change (js "&amp;") with (entityName EAmp).
  change [SQUOTE] with [entityChar EApos].
  change [LT] with [entityChar ELt].
  change [GT] with [entityChar EGt].
  change [DQUOTE] with [entityChar EQuot].
  change [AMP] with [entityChar EAmp].
  pose proof (litOK_decodeItem EApos _ ltac:(discriminate) H) as H1.
  pose proof (litOK_decodeItem ELt _ ltac:(discriminate) H1) as H2.
  pose proof (litOK_decodeItem EGt _ ltac:(discriminate) H2) as H3.
  pose proof (litOK_decodeItem EQuot _ ltac:(discriminate) H3) as H4.
  rewrite (replaceAll_stage EApos _ H), (replaceAll_stage ELt _ H1),
    (replaceAll_stage EGt _ H2), (replaceAll_stage EQuot _ H3),
    (replaceAll_stage EAmp _ H4).
  clear. unfold renderAll. induction items as [|it items IH]; [reflexivity|].
  cbn [map flat_map]. rewrite IH.
  destruct it as [c|[]]; reflexivity.
Qed.

(** X12: a text in which [&] only starts one of the five entities
    (some of the five characters may stand unescaped) is decoded into
    the characters it stands for, each entity decoded once:
    [&amp;lt;] gives [&lt;], not [<]. *)
Theorem htmlDecodeSimple_decodes (items : list item) :
  Forall litOK items ->
  htmlDecodeSimple (renderAll items) = map itemChar items.
Proof. apply htmlDecodeSimple_items. Qed.

Lemma htmlDecodeSimple_decodes_witness :
  htmlDecodeSimple
    (renderAll [Ent EAmp; Lit 108; Lit 116; Lit 59; Ent ELt; Lit SQUOTE])
  = map itemChar [Ent EAmp; Lit 108; Lit 116; Lit 59; Ent ELt; Lit SQUOTE].
Proof. apply htmlDecodeSimple_decodes. repeat constructor; discriminate. Defined.

Lemma litOK_escape (s : jsstring) : Forall litOK (map escapeChar s).
Proof.
  induction s as [|c s IH]; constructor; auto.
  unfold escapeChar. destruct (Z.eqb_spec c AMP); [exact I|].
  repeat match goal with
         | |- context [if ?b then _ else _] => destruct b
         end; simpl; auto.
Qed.

(** X13: [htmlDecodeSimple] undoes the escaping of the five
    characters: every string, escaped and decoded, is itself. *)
Theorem htmlDecodeSimple_escape (s : jsstring) :
  htmlDecodeSimple (htmlEscape s) = s.
Proof.
  unfold htmlEscape. rewrite htmlDecodeSimple_items by apply litOK_escape.
  induction s as [|c s IH]; [reflexivity|].
  cbn [map]. rewrite IH. f_equal. unfold escapeChar.
  repeat match goal with
         | |- context [if ?x =? ?y then _ else _] =>
             destruct (Z.eqb_spec x y)
         end; subst; reflexivity.
Qed.

(** X14: a string without [&] is returned as it is. *)
Theorem htmlDecodeSimple_no_amp (s : jsstring) :
  contains AMP s = false -> htmlDecodeSimple s = s.
Proof.
  intros H.
  assert (E : renderAll (map Lit s) = s).
  { unfold renderAll. clear. induction s as [|c s IH]; [reflexivity|].
    simpl. rewrite IH. reflexivity. }
  rewrite <- E at 1. rewrite htmlDecodeSimple_items.
  - rewrite map_map. apply map_id.
  - clear E. induction s as [|c s IH]; constructor.
    + simpl in H. apply orb_false_iff in H as [Hc _].
      simpl. apply Z.eqb_neq. exact Hc.
    + apply IH. simpl in H. apply orb_false_iff in H. tauto.
Qed.

Lemma htmlDecodeSimple_no_amp_witness :
  htmlDecodeSimple (js "a < b; c") = js "a < b; c".
Proof. apply htmlDecodeSimple_no_amp. reflexivity. Defined.

(* ================================================================= *)
(** ** [getCookies] *)

Lemma split_cons (sep : char) (s : jsstring) :
  exists h t, split sep s = h :: t.
Proof.
  induction s as [|c s (h & t & IH)]; simpl; [eauto|].
  destruct (c =? sep); [eauto|]. rewrite IH. eauto.
Qed.

Lemma split_length (sep : char) (s : jsstring) :
  List.length (split sep s) = S (count sep s).
Proof.
  induction s as [|c s IH]; [reflexivity|]. simpl.
  destruct (c =? sep); simpl; [rewrite IH; reflexivity|].
  destruct (split_cons sep s) as (h & t & E). rewrite E in *. exact IH.
Qed.

Lemma split_head (line : jsstring) :
  nth 0 (split SEMI line) [] = firstSegment line.
Proof.
  induction line as [|c line IH]; [reflexivity|]. simpl.
  destruct (c =? SEMI); [reflexivity|].
  destruct (split_cons SEMI line) as (h & t & E). rewrite E in *.
  simpl in *. rewrite IH. reflexivity.
Qed.

(** No segment holds the separator, nor a character the string does
    not hold. *)
Lemma split_segments (sep : char) (s : jsstring) :
  Forall (fun seg => contains sep seg = false /\
                     forall c, contains c s = false -> contains c seg = false)
         (split sep s).
Proof.
  induction s as [|x s IH]; simpl.
  - repeat constructor.
  - destruct (Z.eqb_spec x sep) as [->|Hne].
    + constructor; [split; auto|].
      eapply Forall_impl; [|exact IH]. intros seg [H1 H2]. split; auto.
      intros c Hc. apply orb_false_iff in Hc as [_ Hc]. auto.
    + destruct (split_cons sep s) as (h & t & E). rewrite E in *.
      inversion IH as [|? ? [H1 H2] Ht]; subst. constructor.
      * simpl. split.
        -- rewrite H1. apply orb_false_iff. split; auto.
           apply Z.eqb_neq. exact Hne.
        -- intros c Hc. apply orb_false_iff in Hc as [Hx Hc].
           rewrite Hx. simpl. auto.
      * eapply Forall_impl; [|exact Ht]. intros seg [H3 H4]. split; auto.
        intros c Hc. apply orb_false_iff in Hc as [_ Hc]. auto.
Qed.

Lemma firstSegment_no_semi (line : jsstring) :
  contains SEMI (firstSegment line) = false.
Proof.
  induction line as [|c line IH]; [reflexivity|]. simpl.
  destruct (c =? SEMI) eqn:E; [reflexivity|]. simpl. rewrite E, IH. reflexivity.
Qed.

Lemma firstSegment_fix (s : jsstring) :
  contains SEMI s = false -> firstSegment s = s.
Proof.
  induction s as [|c s IH]; [reflexivity|]. simpl. intros H.
  apply orb_false_iff in H as [-> H]. rewrite IH by exact H. reflexivity.
Qed.

(** [get] reads the part of the line before its first [;] only. *)
Lemma getCookie_firstSegment (line : jsstring) :
  getCookie line =
  let pair := split EQUALS (firstSegment line) in
  if negb (List.length pair =? 2)%nat then None
  else Some (trim (nth 0 pair []), trim (nth 1 pair [])).
Proof.
  unfold getCookie. rewrite split_head, split_length. reflexivity.
Qed.

Lemma getCookie_parts (line key value : jsstring) :
  getCookie line = Some (key, value) -> cookiePart key /\ cookiePart value.
Proof.
  rewrite getCookie_firstSegment. cbv zeta.
  pose proof (split_segments EQUALS (firstSegment line)) as H.
  destruct (split EQUALS (firstSegment line)) as [|k [|v [|x l]]];
    try discriminate.
  cbn [List.length Nat.eqb negb nth]. intros [= <- <-].
  inversion H as [|? ? [Hk1 Hk2] H']; subst.
  inversion H' as [|? ? [Hv1 Hv2] _]; subst.
  pose proof (firstSegment_no_semi line) as Hs.
  split; (split; [apply trim_contains; auto|
                  split; [apply trim_contains; auto|apply trimmed_trim]]).
Qed.

Lemma getCookies_loop_join :
  forall (lines : list jsstring) (z sep : jsstring),
    getCookies_loop lines z sep
    = z ++ match cookieTexts lines with
           | [] => []
           | ts => sep ++ join (js "; ") ts
           end.
Proof.
  induction lines as [|line lines IH]; intros z sep.
  - simpl. rewrite app_nil_r. reflexivity.
  - cbn [getCookies_loop cookieTexts flat_map].
    fold (cookieTexts lines).
    destruct (getCookie line) as [[key value]|]; [|apply IH].
    rewrite IH.
    destruct (cookieTexts lines) as [|t ts]; cbn [join app];
      rewrite <- ?app_assoc, ?app_nil_r; cbn [app]; reflexivity.
Qed.

(** X15: [getCookies] of an array of lines is the cookies of the lines
    that hold one, as [key=value] joined by [; ], and every key and
    value is trimmed and holds neither [;] nor [=]: the attributes of
    the cookies (path, expiry) never reach the result, and every [;] of
    the result separates two cookies. *)
Theorem getCookies_join (lines : list jsstring) :
  getCookies (HArray lines) = Some (join (js "; ") (cookieTexts lines)) /\
  Forall (fun t => exists key value,
              t = key ++ [EQUALS] ++ value /\
              cookiePart key /\ cookiePart value)
         (cookieTexts lines).
Proof.
  split.
  - unfold getCookies. rewrite getCookies_loop_join. cbn [app].
    destruct (cookieTexts lines); reflexivity.
  - induction lines as [|line lines IH]; [constructor|].
    cbn [cookieTexts flat_map]. fold (cookieTexts lines).
    destruct (getCookie line) as [[key value]|] eqn:E; [|exact IH].
    constructor; [|exact IH]. exists key, value. split; [reflexivity|].
    apply (getCookie_parts line), E.
Qed.

Lemma cookieTexts_app (a b : list jsstring) :
  cookieTexts (a ++ b) = cookieTexts a ++ cookieTexts b.
Proof. apply flat_map_app. Qed.

(** X16: a line whose part before the first [;] does not hold exactly
    one [=] is skipped: a cookie whose value holds a [=] is left out
    of the result, as is a line without [=]. *)
Theorem getCookies_skips (l1 l2 : list jsstring) (line : jsstring) :
  count EQUALS (firstSegment line) <> 1%nat ->
  getCookies (HArray (l1 ++ line :: l2)) = getCookies (HArray (l1 ++ l2)).
Proof.
  intros H. unfold getCookies. rewrite !getCookies_loop_join.
  rewrite !cookieTexts_app. cbn [cookieTexts flat_map].
  rewrite getCookie_firstSegment. cbv zeta. rewrite split_length.
  destruct (Nat.eqb_spec (S (count EQUALS (firstSegment line))) 2) as [E|_];
    [exfalso; apply H; lia|].
  cbn [negb app]. reflexivity.
Qed.

Lemma getCookies_skips_witness :
  getCookies (HArray ([js "a=1"] ++ js "tok=YWJj==; path=/" :: [js "b=2"]))
  = getCookies (HArray ([js "a=1"] ++ [js "b=2"])).
Proof. apply getCookies_skips. discriminate. Defined.

(** X17: only the part of each line before its first [;] counts. *)
Theorem getCookies_first_segments (lines : list jsstring) :
  getCookies (HArray lines) = getCookies (HArray (map firstSegment lines)).
Proof.
  unfold getCookies. rewrite !getCookies_loop_join.
  assert (E : cookieTexts (map firstSegment lines) = cookieTexts lines).
  { induction lines as [|line lines IH]; [reflexivity|].
    cbn [map cookieTexts flat_map]. fold (cookieTexts lines).
    fold (cookieTexts (map firstSegment lines)). rewrite IH.
    rewrite (getCookie_firstSegment (firstSegment line)),
      (getCookie_firstSegment line).
    rewrite (firstSegment_fix _ (firstSegment_no_semi line)). reflexivity. }
  rewrite E. reflexivity.
Qed.

(* ================================================================= *)
(** ** [createEndCallback] *)

Lemma endCallback_run_app (a b : list msgEvent) :
  forall (buf : jsstring),
    endCallback_run buf (a ++ b)
    = endCallback_run buf a ++ endCallback_run (buf ++ chunksRead a) b.
Proof.
  induction a as [|e a IH]; intros buf.
  - simpl. rewrite app_nil_r. reflexivity.
  - destruct e as [m [[|c s]|]|m]; cbn [app endCallback_run chunksRead flat_map];
      fold (chunksRead a); rewrite IH, ?app_nil_r, <- ?app_assoc; reflexivity.
Qed.

(** X18: the variable [buf] is shared by all the messages a function
    made by [createEndCallback] is given and is never emptied: when a
    message ends, the callback gets every chunk read so far on any of
    them, so the second of two messages gets the body of the first
    before its own. *)
Theorem createEndCallback_shared_buffer (pre : list msgEvent) (m : nat) :
  createEndCallback (pre ++ [Ended m])
  = createEndCallback pre ++ [(chunksRead pre, m)].
Proof.
  unfold createEndCallback. rewrite endCallback_run_app. reflexivity.
Qed.

(* ================================================================= *)
(** ** [parseAttribs] *)

(** *** Matching *)

(** A greedy star takes a whole run when what follows accepts the
    rest. *)
Lemma starClass_run (A : Type) (p : char -> bool) (k : jsstring -> option A)
    (rest : jsstring) (a : A) :
  headNot p rest -> k rest = Some a ->
  forall (run : jsstring),
    forallb p run = true -> starClass p (run ++ rest) k = Some a.
Proof.
  intros Hh Hk. induction run as [|c run IH]; intros H.
  - cbn [app]. destruct rest as [|c r]; [exact Hk|].
    simpl in Hh |- *. rewrite Hh. exact Hk.
  - simpl in H. apply andb_true_iff in H as [Hc H].
    cbn [app starClass]. rewrite Hc, (IH H). reflexivity.
Qed.

(** What follows a star or a matcher is run on an end of the input. *)
Lemma starClass_suffix (A : Type) (p : char -> bool)
    (k : jsstring -> option A) (a : A) :
  forall (s : jsstring),
    starClass p s k = Some a ->
    exists pre s', s = pre ++ s' /\ k s' = Some a.
Proof.
  induction s as [|c s IH]; intros H.
  - exists [], []. auto.
  - cbn [starClass] in H. destruct (p c).
    + destruct (starClass p s k) as [a'|] eqn:E.
      * injection H as ->. destruct (IH eq_refl) as (pre & s' & -> & Hk).
        exists (c :: pre), s'. auto.
      * exists [], (c :: s). auto.
    + exists [], (c :: s). auto.
Qed.

Lemma matchRe_suffix (A : Type) (a : A) :
  forall (r : regex) (s : jsstring) (caps : captures)
         (k : jsstring -> captures -> option A),
    matchRe r s caps k = Some a ->
    exists pre s' caps', s = pre ++ s' /\ k s' caps' = Some a.
Proof.
  induction r as [p|p|r1 IH1 r2 IH2|r1 IH1 r2 IH2|n r IH];
    intros s caps k H; cbn [matchRe] in H.
  - destruct s as [|c s]; [discriminate|]. destruct (p c); [|discriminate].
    exists [c], s, caps. auto.
  - apply starClass_suffix in H as (pre & s' & -> & Hk). eauto.
  - apply IH1 in H as (pre1 & s1 & caps1 & -> & H).
    apply IH2 in H as (pre2 & s2 & caps2 & -> & H).
    exists (pre1 ++ pre2), s2, caps2. rewrite <- app_assoc. auto.
  - destruct (matchRe r1 s caps k) eqn:E.
    + injection H as ->. apply IH1 in E. exact E.
    + apply IH2 in H. exact H.
  - apply IH in H as (pre & s' & caps' & -> & H). eauto.
Qed.

Lemma firstn_app_sub (A : Type) (a b : list A) :
  firstn (List.length (a ++ b) - List.length b) (a ++ b) = a.
Proof.
  rewrite length_app.
  replace (List.length a + List.length b - List.length b)%nat
    with (List.length a + 0)%nat by lia.
  rewrite firstn_app_2. simpl. apply app_nil_r.
Qed.

Lemma whiteSpace_not_name (c : char) :
  isWhiteSpace c = true -> nameChar c = false.
Proof.
  unfold isWhiteSpace, nameChar. intros H.
  rewrite !orb_true_iff, !andb_true_iff, !Z.eqb_eq, !Z.leb_le in H.
  apply not_true_is_false. intros Hn.
  rewrite !orb_true_iff, !andb_true_iff, !Z.eqb_eq, !Z.leb_le in Hn.
  lia.
Qed.

Lemma quote_not_whiteSpace (q : char) :
  isQuoteChar q = true -> isWhiteSpace q = false.
Proof.
  unfold isQuoteChar, DQUOTE, SQUOTE. intros H.
  apply orb_true_iff in H as [H|H]; apply Z.eqb_eq in H; subst q; reflexivity.
Qed.

Lemma headNot_app (p w : char -> bool) (ws tl : jsstring) :
  (forall c, w c = true -> p c = false) ->
  forallb w ws = true -> headNot p tl -> headNot p (ws ++ tl).
Proof.
  intros Hw H Ht. destruct ws as [|c ws]; [exact Ht|].
  simpl in *. apply andb_true_iff in H as [Hc _]. auto.
Qed.

(** The pattern matches no text that starts with a character that is
    not of a name. *)
Lemma matchHere_not_name (c : char) (s : jsstring) :
  nameChar c = false -> matchHere (c :: s) = None.
Proof.
  intros H. unfold matchHere, ATTRIB_PATTERN. cbn [matchRe].
  rewrite H. reflexivity.
Qed.

Lemma exec_skip (s : jsstring) :
  forall (lead : jsstring),
    forallb (fun c => negb (nameChar c)) lead = true ->
    exec (lead ++ s) = exec s.
Proof.
  induction lead as [|c lead IH]; intros H; [reflexivity|].
  simpl in H. apply andb_true_iff in H as [Hc H].
  apply negb_true_iff in Hc.
  cbn [app exec]. rewrite (matchHere_not_name c _ Hc). apply IH, H.
Qed.

Lemma exec_here (s : jsstring) (m : jsstring * jsstring * jsstring) :
  matchHere s = Some m -> exec s = Some m.
Proof. intros H. destruct s; cbn [exec]; rewrite H; reflexivity. Qed.

Lemma whiteSpace_skipped (ws : jsstring) :
  forallb isWhiteSpace ws = true ->
  forallb (fun c => negb (nameChar c)) ws = true.
Proof.
  intros H. rewrite forallb_forall in *. intros c Hc.
  rewrite (whiteSpace_not_name c (H c Hc)). reflexivity.
Qed.

(** A match takes at least one character. *)
Lemma matchHere_shorter (s name raw rest : jsstring) :
  matchHere s = Some (name, raw, rest) ->
  exists pre, s = pre ++ rest /\ pre <> [].
Proof.
  unfold matchHere, ATTRIB_PATTERN. cbn [matchRe]. intros H.
  destruct s as [|c s]; [discriminate|].
  destruct (nameChar c); [|discriminate].
  apply starClass_suffix in H as (pre1 & s1 & -> & H).
  apply starClass_suffix in H as (pre2 & s2 & -> & H).
  destruct s2 as [|c2 s2]; [discriminate|].
  destruct (isChar EQUALS c2); [|discriminate].
  apply starClass_suffix in H as (pre3 & s3 & -> & H).
  apply matchRe_suffix in H as (pre4 & s4 & caps4 & -> & H).
  injection H as _ _ <-.
  exists (c :: pre1 ++ pre2 ++ c2 :: pre3 ++ pre4).
  split; [|discriminate].
  cbn [app]. repeat (rewrite <- app_assoc; cbn [app]). reflexivity.
Qed.

Lemma exec_shorter :
  forall (s name raw rest : jsstring),
    exec s = Some (name, raw, rest) ->
    (List.length rest < List.length s)%nat.
Proof.
  induction s as [|c s IH]; intros name raw rest H; cbn [exec] in H.
  - destruct (matchHere []) as [m|] eqn:E; [|discriminate].
    injection H as ->. apply matchHere_shorter in E as (pre & E & Hne).
    destruct pre; [congruence|discriminate].
  - destruct (matchHere (c :: s)) as [m|] eqn:E.
    + injection H as ->. apply matchHere_shorter in E as (pre & E & Hne).
      rewrite E, length_app. destruct pre; [congruence|simpl; lia].
    + apply IH in H. simpl. lia.
Qed.

(** A match holds a [=]. *)
Lemma matchHere_equals (s : jsstring) (m : jsstring * jsstring * jsstring) :
  matchHere s = Some m -> contains EQUALS s = true.
Proof.
  unfold matchHere, ATTRIB_PATTERN. cbn [matchRe]. intros H.
  destruct s as [|c s]; [discriminate|].
  destruct (nameChar c); [|discriminate].
  apply starClass_suffix in H as (pre1 & s1 & -> & H).
  apply starClass_suffix in H as (pre2 & s2 & -> & H).
  destruct s2 as [|c2 s2]; [discriminate|].
  unfold isChar in H. destruct (Z.eqb_spec c2 EQUALS) as [->|]; [|discriminate].
  change (c :: pre1 ++ pre2 ++ EQUALS :: s2)
    with ((c :: pre1) ++ pre2 ++ EQUALS :: s2).
  rewrite !contains_app. simpl. rewrite !orb_true_r. reflexivity.
Qed.

Lemma exec_equals :
  forall (s : jsstring) (m : jsstring * jsstring * jsstring),
    exec s = Some m -> contains EQUALS s = true.
Proof.
  induction s as [|c s IH]; intros m H; cbn [exec] in H.
  - destruct (matchHere []) eqn:E; [|discriminate].
    apply matchHere_equals in E. exact E.
  - destruct (matchHere (c :: s)) eqn:E.
    + apply matchHere_equals in E. exact E.
    + apply IH in H. simpl. rewrite H. apply orb_true_r.
Qed.

(** *** The three forms of a value *)

Lemma isChar_refl (x : char) : isChar x x = true.
Proof. apply Z.eqb_refl. Qed.

Lemma isNotChar_run (q : char) (v : jsstring) :
  contains q v = false -> forallb (isNotChar q) v = true.
Proof.
  induction v as [|c v IH]; [reflexivity|]. simpl. intros H.
  apply orb_false_iff in H as [Hc H]. unfold isNotChar at 1.
  rewrite Hc, (IH H). reflexivity.
Qed.

(** A quoted value is matched up to its closing quote. *)
Lemma value_quoted (A : Type) (q : char) (v rest : jsstring)
    (caps : captures) (k : jsstring -> captures -> option A) (a : A) :
  isQuoteChar q = true -> contains q v = false ->
  k rest caps = Some a ->
  matchRe VALUE_PATTERN (q :: v ++ q :: rest) caps k = Some a.
Proof.
  intros Hq Hv Hk.
  assert (Hstar : starClass (isNotChar q) (v ++ q :: rest)
                    (fun s' => matchRe (RChar (isChar q)) s' caps k) = Some a).
  { apply starClass_run; [| |apply isNotChar_run, Hv].
    - simpl. unfold isNotChar. rewrite Z.eqb_refl. reflexivity.
    - cbn [matchRe]. rewrite isChar_refl. exact Hk. }
  unfold isQuoteChar in Hq.
  apply orb_true_iff in Hq as [Hq|Hq]; apply Z.eqb_eq in Hq; subst q;
    unfold VALUE_PATTERN; cbn [matchRe].
  - rewrite isChar_refl. cbn [matchRe] in Hstar. rewrite Hstar. reflexivity.
  - change (isChar DQUOTE SQUOTE) with false. cbv iota.
    rewrite isChar_refl. cbn [matchRe] in Hstar. rewrite Hstar. reflexivity.
Qed.

(** Without a closing quote, the star of the quoted form gives every
    character back and the form fails. *)
Lemma starClass_no_close (A : Type) (q : char) (caps : captures)
    (k : jsstring -> captures -> option A) :
  forall (run : jsstring),
    contains q run = false ->
    starClass (isNotChar q) run
      (fun s' => matchRe (RChar (isChar q)) s' caps k) = None.
Proof.
  induction run as [|c run IH]; intros H; [reflexivity|].
  simpl in H. apply orb_false_iff in H as [Hc H].
  cbn [starClass]. rewrite (IH H). cbn [matchRe]. unfold isChar, isNotChar.
  rewrite Hc. reflexivity.
Qed.

(** A value that opens a quote never closed is matched by [\S*],
    quote included. *)
Lemma value_unclosed (A : Type) (q : char) (r1 r2 : jsstring)
    (caps : captures) (k : jsstring -> captures -> option A) (a : A) :
  isQuoteChar q = true -> contains q (r1 ++ r2) = false ->
  forallb notWhiteSpace r1 = true -> headNot notWhiteSpace r2 ->
  k r2 caps = Some a ->
  matchRe VALUE_PATTERN ((q :: r1) ++ r2) caps k = Some a.
Proof.
  intros Hq Hrun Hr1 Hr2 Hk.
  pose proof (starClass_no_close A q caps k (r1 ++ r2) Hrun) as Hfail.
  cbn [matchRe] in Hfail.
  assert (Hstar : starClass notWhiteSpace ((q :: r1) ++ r2)
                    (fun s' => k s' caps) = Some a).
  { apply starClass_run; auto. simpl. rewrite Hr1.
    unfold notWhiteSpace. rewrite (quote_not_whiteSpace q Hq). reflexivity. }
  unfold isQuoteChar in Hq.
  apply orb_true_iff in Hq as [Hq|Hq]; apply Z.eqb_eq in Hq; subst q;
    unfold VALUE_PATTERN; cbn [matchRe app].
  - rewrite isChar_refl, Hfail. change (isChar SQUOTE DQUOTE) with false.
    cbv iota. exact Hstar.
  - change (isChar DQUOTE SQUOTE) with false. cbv iota.
    rewrite isChar_refl, Hfail. exact Hstar.
Qed.

(** A value that does not start with a quote char is matched by
    [\S*]. *)
Lemma value_unquoted (A : Type) (val rest : jsstring)
    (caps : captures) (k : jsstring -> captures -> option A) (a : A) :
  startQuoted val = false ->
  val <> [] -> forallb notWhiteSpace val = true ->
  headNot notWhiteSpace rest ->
  k rest caps = Some a ->
  matchRe VALUE_PATTERN (val ++ rest) caps k = Some a.
Proof.
  intros Hs Hne Hval Hrest Hk.
  assert (Hstar : starClass notWhiteSpace (val ++ rest)
                    (fun s' => k s' caps) = Some a)
    by (apply starClass_run; auto).
  destruct val as [|c val]; [congruence|].
  simpl in Hs. apply orb_false_iff in Hs as [Hd Hq].
  unfold VALUE_PATTERN; cbn [matchRe app]. unfold isChar at 1.
  rewrite Hd. unfold isChar at 1. rewrite Hq. exact Hstar.
Qed.

(** The pattern on a name, [=] and a value, with whitespace around
    [=]: [raw] is the text of the value, whichever its form. *)
Lemma matchHere_attrib (name ws1 ws2 raw rest : jsstring) :
  name <> [] -> forallb nameChar name = true ->
  forallb isWhiteSpace ws1 = true -> forallb isWhiteSpace ws2 = true ->
  headNot isWhiteSpace (raw ++ rest) ->
  (forall caps k (a : jsstring * jsstring * jsstring),
      k rest caps = Some a ->
      matchRe VALUE_PATTERN (raw ++ rest) caps k = Some a) ->
  matchHere (name ++ ws1 ++ [EQUALS] ++ ws2 ++ raw ++ rest)
  = Some (name, raw, rest).
Proof.
  intros Hne Hname H1 H2 Hhead Hvalue.
  destruct name as [|c name]; [congruence|].
  simpl in Hname. apply andb_true_iff in Hname as [Hc Hname].
  unfold matchHere, ATTRIB_PATTERN. cbn [matchRe app]. rewrite Hc.
  apply starClass_run; [| |exact Hname].
  { apply (headNot_app nameChar isWhiteSpace);
      [apply whiteSpace_not_name|exact H1|reflexivity]. }
  apply starClass_run; [reflexivity| |exact H1].
  rewrite isChar_refl.
  apply starClass_run; [exact Hhead| |exact H2].
  apply Hvalue. cbn [group Nat.eqb].
  change (c :: name ++ ws1 ++ EQUALS :: ws2 ++ raw ++ rest)
    with ((c :: name) ++ ws1 ++ EQUALS :: ws2 ++ raw ++ rest).
  rewrite !firstn_app_sub. reflexivity.
Qed.

(** *** The loop *)

Lemma parseAttribs_loop_cons (p : jsstring * jsstring) :
  forall (fuel : nat) (html : jsstring) (pairs : list (jsstring * jsstring)),
    parseAttribs_loop fuel html (p :: pairs)
    = consPair p (parseAttribs_loop fuel html pairs).
Proof.
  induction fuel as [|fuel IH]; intros html pairs; [reflexivity|].
  cbn [parseAttribs_loop].
  destruct (exec html) as [[[name raw] rest]|]; [|reflexivity].
  destruct (unquote raw); try reflexivity.
  rewrite <- IH. reflexivity.
Qed.

Lemma parseAttribs_loop_fuel :
  forall (f1 f2 : nat) (html : jsstring) (pairs : list (jsstring * jsstring)),
    (List.length html < f1)%nat -> (List.length html < f2)%nat ->
    parseAttribs_loop f1 html pairs = parseAttribs_loop f2 html pairs.
Proof.
  induction f1 as [|f1 IH]; intros f2 html pairs H1 H2; [lia|].
  destruct f2 as [|f2]; [lia|]. cbn [parseAttribs_loop].
  destruct (exec html) as [[[name raw] rest]|] eqn:E; [|reflexivity].
  destruct (unquote raw); try reflexivity.
  apply exec_shorter in E. apply IH; lia.
Qed.

Lemma parseAttribs_loop_S (fuel : nat) (html : jsstring)
    (pairs : list (jsstring * jsstring)) :
  parseAttribs_loop (S fuel) html pairs =
  match exec html with
  | None => Return pairs
  | Some (name, raw, rest) =>
      match unquote raw with
      | Return value => parseAttribs_loop fuel rest (pairs ++ [(name, value)])
      | Throw e => Throw e
      | OutOfFuel => OutOfFuel
      end
  end.
Proof. reflexivity. Qed.

Lemma parseAttribs_step (html name raw rest value : jsstring) :
  exec html = Some (name, raw, rest) -> unquote raw = Return value ->
  parseAttribs html = consPair (name, value) (parseAttribs rest).
Proof.
  intros E Hu. unfold parseAttribs.
  rewrite (parseAttribs_loop_S (List.length html) html).
  rewrite E, Hu. cbn [app]. rewrite parseAttribs_loop_cons. f_equal.
  apply exec_shorter in E. apply parseAttribs_loop_fuel; lia.
Qed.

Lemma parseAttribs_throw (html name raw rest : jsstring) (e : error) :
  exec html = Some (name, raw, rest) -> unquote raw = Throw e ->
  parseAttribs html = Throw e.
Proof.
  intros E Hu. unfold parseAttribs. cbn [parseAttribs_loop].
  rewrite E, Hu. reflexivity.
Qed.

Lemma parseAttribs_none (html : jsstring) :
  exec html = None -> parseAttribs html = Return [].
Proof.
  intros E. unfold parseAttribs. cbn [parseAttribs_loop]. rewrite E.
  reflexivity.
Qed.

Lemma exec_whiteSpace (ws : jsstring) :
  forallb isWhiteSpace ws = true -> exec ws = None.
Proof.
  intros H. rewrite <- (app_nil_r ws).
  rewrite exec_skip by (apply whiteSpace_skipped, H). reflexivity.
Qed.

(** *** Attributes *)

Lemma unquote_wrapped (q : char) (v : jsstring) :
  isQuoteChar q = true -> unquote (q :: v ++ [q]) = Return v.
Proof.
  intros Hq. pose proof (quote_not_whiteSpace q Hq) as Hw.
  rewrite (unquote_ends _ q q v).
  - rewrite Hq, Z.eqb_refl. reflexivity.
  - apply trim_fix; [exact Hw|].
    change (q :: v ++ [q]) with ((q :: v) ++ [q]).
    rewrite rev_app_distr. exact Hw.
Qed.

Lemma unquote_open (q : char) (r1 : jsstring) :
  isQuoteChar q = true -> contains q r1 = false ->
  forallb notWhiteSpace r1 = true ->
  unquote (q :: r1) = Throw MismatchedQuote.
Proof.
  intros Hq Hc Hr.
  assert (Ht : trim (q :: r1) = q :: r1).
  { apply trim_noWhiteSpace. unfold noWhiteSpace. simpl.
    rewrite (quote_not_whiteSpace q Hq). exact Hr. }
  destruct r1 as [|x r1].
  - rewrite (unquote_one _ q Ht), Hq. reflexivity.
  - destruct (exists_last (l := x :: r1)) as (mid & d & E); [discriminate|].
    rewrite E in *. rewrite (unquote_ends _ q d mid Ht), Hq.
    rewrite contains_app in Hc. apply orb_false_iff in Hc as [_ Hd].
    simpl in Hd. rewrite orb_false_r in Hd.
    rewrite Z.eqb_sym, Hd. reflexivity.
Qed.

Lemma unquote_bare (val : jsstring) :
  forallb notWhiteSpace val = true ->
  startQuoted val = false -> endQuoted val = false ->
  unquote val = Return val.
Proof.
  intros Hv Hs He.
  assert (Ht : trim val = val) by (apply trim_noWhiteSpace; exact Hv).
  destruct (string_shape val) as [->|[(c & ->)|(c & mid & d & ->)]].
  - reflexivity.
  - rewrite (unquote_one _ c Ht).
    change (startQuoted [c]) with (isQuoteChar c) in Hs. rewrite Hs.
    reflexivity.
  - rewrite (unquote_ends _ c d mid Ht). rewrite endQuoted_ends in He.
    change (startQuoted (c :: mid ++ [d])) with (isQuoteChar c) in Hs.
    rewrite Hs, He. reflexivity.
Qed.

(** The longest start of a text without whitespace, and the rest. *)
Lemma notWhiteSpace_split (run : jsstring) :
  exists r1 r2,
    run = r1 ++ r2 /\ forallb notWhiteSpace r1 = true /\
    headNot notWhiteSpace r2.
Proof.
  induction run as [|c run (r1 & r2 & -> & H1 & H2)].
  - exists [], []. simpl. auto.
  - destruct (notWhiteSpace c) eqn:E.
    + exists (c :: r1), r2. simpl. rewrite E, H1. auto.
    + exists [], (c :: r1 ++ r2). simpl. auto.
Qed.

Lemma exec_attrib (lead name ws1 ws2 raw rest : jsstring) :
  forallb isWhiteSpace lead = true ->
  name <> [] -> forallb nameChar name = true ->
  forallb isWhiteSpace ws1 = true -> forallb isWhiteSpace ws2 = true ->
  headNot isWhiteSpace (raw ++ rest) ->
  (forall caps k (a : jsstring * jsstring * jsstring),
      k rest caps = Some a ->
      matchRe VALUE_PATTERN (raw ++ rest) caps k = Some a) ->
  exec (lead ++ name ++ ws1 ++ [EQUALS] ++ ws2 ++ raw ++ rest)
  = Some (name, raw, rest).
Proof.
  intros Hl Hne Hname H1 H2 Hhead Hvalue.
  rewrite exec_skip by (apply whiteSpace_skipped, Hl).
  apply exec_here, matchHere_attrib; assumption.
Qed.

(** X19: well-formed attributes are parsed as written: for attributes
    [name="value"] or [name='value'], the value without the quote char
    it stands between, with whitespace before the names, around [=]
    and at the end, [parseAttribs] assigns to each name, in order, its
    value, untouched. *)
Theorem parseAttribs_well_formed (attrs : list attrib) (trail : jsstring) :
  Forall wellFormed attrs -> forallb isWhiteSpace trail = true ->
  parseAttribs (flat_map attribText attrs ++ trail)
  = Return (map (fun a => (a_name a, a_value a)) attrs).
Proof.
  intros H Ht. induction H as [|a attrs Ha _ IH].
  - apply parseAttribs_none, exec_whiteSpace, Ht.
  - destruct Ha as (Hl & Hne & Hname & H1 & H2 & Hq & Hv).
    cbn [flat_map map]. rewrite <- app_assoc.
    set (rest := flat_map attribText attrs ++ trail) in *.
    unfold attribText.
    assert (E : exec ((a_lead a ++ a_name a ++ a_ws1 a ++ [EQUALS] ++
                       a_ws2 a ++ [a_quote a] ++ a_value a ++ [a_quote a])
                      ++ rest)
                = Some (a_name a, a_quote a :: a_value a ++ [a_quote a], rest)).
    { repeat (rewrite <- app_assoc; cbn [app]).
      change (a_lead a ++ a_name a ++ a_ws1 a ++ EQUALS :: a_ws2 a ++
              a_quote a :: a_value a ++ a_quote a :: rest)
        with (a_lead a ++ a_name a ++ a_ws1 a ++ [EQUALS] ++ a_ws2 a ++
              [a_quote a] ++ a_value a ++ a_quote a :: rest).
      replace ([a_quote a] ++ a_value a ++ a_quote a :: rest)
        with ((a_quote a :: a_value a ++ [a_quote a]) ++ rest)
        by (cbn [app]; rewrite <- app_assoc; reflexivity).
      apply exec_attrib; auto.
      - simpl. apply quote_not_whiteSpace, Hq.
      - intros caps k x Hk. cbn [app]. rewrite <- app_assoc. cbn [app].
        apply value_quoted; assumption. }
    rewrite (parseAttribs_step _ _ _ _ _ E (unquote_wrapped _ _ Hq)), IH.
    reflexivity.
Qed.

Lemma parseAttribs_well_formed_witness :
  parseAttribs
    (flat_map attribText
       [{| a_lead := js " "; a_name := js "href"; a_ws1 := [];
           a_ws2 := []; a_quote := SQUOTE; a_value := js "a b" |};
        {| a_lead := js "  "; a_name := js "xml:id"; a_ws1 := js " ";
           a_ws2 := js " "; a_quote := DQUOTE; a_value := js "it's" |}]
     ++ js " ")
  = Return [(js "href", js "a b"); (js "xml:id", js "it's")].
Proof.
  apply (parseAttribs_well_formed
           [{| a_lead := js " "; a_name := js "href"; a_ws1 := [];
               a_ws2 := []; a_quote := SQUOTE; a_value := js "a b" |};
            {| a_lead := js "  "; a_name := js "xml:id"; a_ws1 := js " ";
               a_ws2 := js " "; a_quote := DQUOTE; a_value := js "it's" |}]);
    [|reflexivity].
  repeat constructor; discriminate.
Defined.

(** X20: a value that opens a quote never closed makes [parseAttribs]
    throw: after a name and [=], a quote char that does not come again
    in the rest of the input is taken with the characters up to the
    next whitespace as the value, and [unquote] rejects it; so does a
    lone quote char at the end of the input. *)
Theorem parseAttribs_unclosed_quote (lead name ws1 ws2 run : jsstring)
    (q : char) :
  forallb isWhiteSpace lead = true ->
  name <> [] -> forallb nameChar name = true ->
  forallb isWhiteSpace ws1 = true -> forallb isWhiteSpace ws2 = true ->
  isQuoteChar q = true -> contains q run = false ->
  parseAttribs (lead ++ name ++ ws1 ++ [EQUALS] ++ ws2 ++ q :: run)
  = Throw MismatchedQuote.
Proof.
  intros Hl Hne Hname H1 H2 Hq Hrun.
  destruct (notWhiteSpace_split run) as (r1 & r2 & -> & Hr1 & Hr2).
  assert (E : exec (lead ++ name ++ ws1 ++ [EQUALS] ++ ws2 ++
                    (q :: r1) ++ r2)
              = Some (name, q :: r1, r2)).
  { apply exec_attrib; auto.
    - simpl. apply quote_not_whiteSpace, Hq.
    - intros caps k x Hk. apply value_unclosed; assumption. }
  apply (parseAttribs_throw _ _ _ _ _ E).
  apply unquote_open; auto.
  rewrite contains_app in Hrun. apply orb_false_iff in Hrun. tauto.
Qed.

Lemma parseAttribs_unclosed_quote_witness :
  parseAttribs ([] ++ js "a" ++ [] ++ [EQUALS] ++ [] ++ SQUOTE :: js "x y")
  = Throw MismatchedQuote.
Proof.
  apply parseAttribs_unclosed_quote; solve [reflexivity | discriminate].
Defined.

(** X21: an input without [=] holds no attribute: [parseAttribs]
    returns the empty object. *)
Theorem parseAttribs_no_equals (html : jsstring) :
  contains EQUALS html = false -> parseAttribs html = Return [].
Proof.
  intros H. apply parseAttribs_none.
  destruct (exec html) as [m|] eqn:E; [|reflexivity].
  apply exec_equals in E. congruence.
Qed.

Lemma parseAttribs_no_equals_witness :
  parseAttribs (js "checked disabled 'x'") = Return [].
Proof. apply parseAttribs_no_equals. reflexivity. Defined.

(** X22: a value without quotes runs to the next whitespace: for a
    name, [=] and a text without whitespace that neither starts nor
    ends with a quote char, followed by whitespace or by the end of
    the input, [parseAttribs] assigns the text to the name and goes on
    with what follows. *)
Theorem parseAttribs_unquoted_value
    (lead name ws1 ws2 val rest : jsstring) :
  forallb isWhiteSpace lead = true ->
  name <> [] -> forallb nameChar name = true ->
  forallb isWhiteSpace ws1 = true -> forallb isWhiteSpace ws2 = true ->
  val <> [] -> forallb notWhiteSpace val = true ->
  startQuoted val = false -> endQuoted val = false ->
  headNot notWhiteSpace rest ->
  parseAttribs (lead ++ name ++ ws1 ++ [EQUALS] ++ ws2 ++ val ++ rest)
  = consPair (name, val) (parseAttribs rest).
Proof.
  intros Hl Hne Hname H1 H2 Hvne Hval Hs He Hrest.
  assert (E : exec (lead ++ name ++ ws1 ++ [EQUALS] ++ ws2 ++ val ++ rest)
              = Some (name, val, rest)).
  { apply exec_attrib; auto.
    - destruct val as [|c val]; [congruence|]. simpl in Hval |- *.
      apply andb_true_iff in Hval as [Hc _]. apply negb_true_iff, Hc.
    - intros caps k x Hk. apply value_unquoted; assumption. }
  apply (parseAttribs_step _ _ _ _ _ E). apply unquote_bare; assumption.
Qed.

Lemma parseAttribs_unquoted_value_witness :
  parseAttribs
    (js " " ++ js "width" ++ [] ++ [EQUALS] ++ js " " ++ js "100%" ++
     js " height=2")
  = consPair (js "width", js "100%") (parseAttribs (js " height=2")).
Proof.
  apply parseAttribs_unquoted_value; solve [reflexivity | discriminate].
Defined.
